(** * A double pendulum and its integrators: the model and its properties

    The repository holds two variants of one JavaScript program:
    [js/pendulum.js], which knows point-mass and compound (uniform rod) links,
    and a second file with point masses only, which lacks what the first adds
    (compound links, energy names, the keyboard torque) and is called the
    earlier variant here.  Both are embedded, each in a module of its own,
    function by function.

    Numbers.  A JavaScript number is modelled as a real number ([R]); rounding,
    infinities and NaN are not modelled.  Where the program would read
    [undefined] from an array and feed it to arithmetic (which gives NaN) the
    model stops with the outcome [NotANumber] instead of inventing a real.
    A division by zero and the root or power of a negative number give an
    infinity or NaN in the program and some real in the model: a theorem that
    states a value or a bound carries the hypotheses that keep the program
    away from them (lengths and masses that are positive, a divisor other
    than zero).

    The linear solver [numeric.solve] belongs to the numeric.js library, not to
    the repository: it is an interface ([Numeric]) of which only the length of
    the result is fixed. *)

From Stdlib Require Import Reals Lra String List.
From stdpp Require Import base list strings pretty.

Open Scope R_scope.

(* ================================================================== *)
(** ** Completions: values, thrown exceptions, NaN *)

(** What a [throw] can carry in this program: one of the two message strings,
    or the engine's [TypeError] for indexing [undefined]. *)
Inductive exn : Type :=
| StringExn (msg : string)
| TypeError.

Inductive result (A : Type) : Type :=
| Ok (a : A)            (* normal completion *)
| Throw (e : exn)       (* an exception leaves the function *)
| NotANumber.           (* an [undefined] operand reached arithmetic *)

Arguments Ok {A} a.
Arguments Throw {A} e.
Arguments NotANumber {A}.

#[global] Instance result_ret : MRet result := fun A a => Ok a.

#[global] Instance result_bind : MBind result := fun A B f m =>
  match m with
  | Ok a => f a
  | Throw e => Throw e
  | NotANumber => NotANumber
  end.

(** A method body that reads and writes the fields of [this]: the state
    survives a throw, since the caller still holds the object. *)
Definition stateful (S A : Type) : Type := S -> result A * S.

Definition st_ret {S A} (a : A) : stateful S A := fun s => (Ok a, s).

Definition st_bind {S A B} (m : stateful S A) (k : A -> stateful S B)
  : stateful S B :=
  fun s =>
    match m s with
    | (Ok a, s') => k a s'
    | (Throw e, s') => (Throw e, s')
    | (NotANumber, s') => (NotANumber, s')
    end.

Definition gets {S A} (f : S -> A) : stateful S A := fun s => (Ok (f s), s).
Definition modify {S} (f : S -> S) : stateful S unit := fun s => (Ok tt, f s).
Definition lift {S A} (r : result A) : stateful S A := fun s => (r, s).
(** A call of a method that only reads [this]. *)
Definition call {S A} (f : S -> result A) : stateful S A := fun s => (f s, s).

Declare Scope stateful_scope.
Delimit Scope stateful_scope with st.
Notation "'let*' x ':=' m 'in' k" := (st_bind m (fun x => k))
  (at level 10, x pattern, m at level 100, k at level 200) : stateful_scope.
Notation "m ;; k" := (st_bind m (fun _ => k))
  (at level 100, k at level 200, right associativity) : stateful_scope.

(** [for (var i = from; i < from + count; i++) body(i)], the loop carrying the
    local variables [acc] that its body reassigns. *)
Fixpoint for_loop {S A} (from count : nat) (body : nat -> A -> stateful S A)
  (acc : A) : stateful S A :=
  match count with
  | O => st_ret acc
  | Datatypes.S count' =>
      st_bind (body from acc) (for_loop (Datatypes.S from) count' body)
  end.

(** The same loop over a pure body. *)
Fixpoint for_pure {A} (from count : nat) (body : nat -> A -> result A)
  (acc : A) : result A :=
  match count with
  | O => Ok acc
  | Datatypes.S count' =>
      acc' ← body from acc; for_pure (Datatypes.S from) count' body acc'
  end.

(* ================================================================== *)
(** ** Arrays of numbers *)

(** [a[i]] used as an operand: outside the array it is [undefined]. *)
Definition index (a : list R) (i : nat) : result R :=
  match a !! i with
  | Some x => Ok x
  | None => NotANumber
  end.

(** [a[i][j]] on an array of pairs: [a[i]] outside the array is [undefined],
    and indexing [undefined] throws. *)
Definition index_pair (a : list (R * R)) (i : nat) : result (R * R) :=
  match a !! i with
  | Some xy => Ok xy
  | None => Throw TypeError
  end.

(** [a[i] = v] on a local array: inside it replaces, at the end it appends;
    further out it would leave holes, which a list of reals cannot hold. *)
Definition array_set (a : list R) (i : nat) (v : R) : result (list R) :=
  if (i <? length a)%nat then Ok (<[i := v]> a)
  else if (i =? length a)%nat then Ok (a ++ [v])
  else NotANumber.

(* ================================================================== *)
(** ** Constants and the Math object *)

Definition GRAVITY : R := 9.81.   (* meters / second^2 *)
Definition DENSITY : R := 999.97. (* kilograms / meter^3 *)

(** The three method objects of [INTEGRATION_METHODS], compared by identity,
    and any other value the field can hold ([null], say). *)
Inductive integration_method : Type :=
| FORWARD_EULER
| SEMI_IMPLICIT_EULER
| RUNGE_KUTTA
| Unrecognized.

Definition Math_PI : R := PI.
Definition Math_sin : R -> R := sin.
Definition Math_cos : R -> R := cos.
(** [Math.sqrt(x)] for an [x] that is not negative. *)
Definition Math_sqrt : R -> R := sqrt.

(** [Math.pow(x, y)] for a base that is positive, or zero with [y > 0]. *)
Definition Math_pow (x y : R) : R :=
  if Rle_dec x 0 then 0 else Rpower x y.

(** [numeric.solve(A, b)] of numeric.js: the solution of [A x = b], an array as
    long as [b]. *)
Class Numeric : Type := {
  numeric_solve : list (list R) -> list R -> list R;
  numeric_solve_length :
    forall A b, length (numeric_solve A b) = length b
}.

(** The optional [torques] argument: [None] when the caller passes no array. *)
Definition torques_arg : Type := option (list R).

(** What [getEnergy] hands to [getTotalEnergy]: the flat array of the current
    variant, or the object [{kinetic: [...], potential: [...]}] of the earlier
    one. *)
Inductive energy_value : Type :=
| EnergyArray (values : list R)
| EnergyObject (kinetic potential : list R).

(** [energy.kinetic] and [energy.potential]: an array has no such property,
    the lookup gives [undefined] ([None]). *)
Definition prop_kinetic (e : energy_value) : option (list R) :=
  match e with
  | EnergyObject k _ => Some k
  | EnergyArray _ => None
  end.

Definition prop_potential (e : energy_value) : option (list R) :=
  match e with
  | EnergyObject _ u => Some u
  | EnergyArray _ => None
  end.

(** [o[i]] where [o] is the result of a property lookup. *)
Definition index_prop (o : option (list R)) (i : nat) : result R :=
  match o with
  | Some a => index a i
  | None => Throw TypeError
  end.

(* ================================================================== *)
(** ** js/pendulum.js *)

Module PendulumJs.

(** The argument of the constructor, after [_.pick]: the four arrays, the
    method ([None] when the property is undefined) and the truthiness of
    [compound]. *)
Record Options : Type := {
  opt_lengths : list R;
  opt_masses : list R;
  opt_thetas : list R;
  opt_omegas : list R;
  opt_integration_method : option integration_method;
  opt_compound : bool
}.

Record Pendulum : Type := {
  lengths : list R;             (* meters *)
  masses : list R;              (* kilograms *)
  thetas : list R;              (* radians *)
  omegas : list R;              (* radians / second *)
  integration_method_of : integration_method;
  compound : bool;
  dimension : nat;
  radii : list R;
  total_length : option R;      (* [None]: NaN, there is no last radius *)
  time : R
}.

Definition set_thetas (v : list R) (p : Pendulum) : Pendulum :=
  {| lengths := lengths p; masses := masses p; thetas := v;
     omegas := omegas p; integration_method_of := integration_method_of p;
     compound := compound p; dimension := dimension p; radii := radii p;
     total_length := total_length p; time := time p |}.

Definition set_omegas (v : list R) (p : Pendulum) : Pendulum :=
  {| lengths := lengths p; masses := masses p; thetas := thetas p;
     omegas := v; integration_method_of := integration_method_of p;
     compound := compound p; dimension := dimension p; radii := radii p;
     total_length := total_length p; time := time p |}.

Definition set_time (v : R) (p : Pendulum) : Pendulum :=
  {| lengths := lengths p; masses := masses p; thetas := thetas p;
     omegas := omegas p; integration_method_of := integration_method_of p;
     compound := compound p; dimension := dimension p; radii := radii p;
     total_length := total_length p; time := v |}.

(** The radius pushed for one [(m, ell)] of [_.zip(masses, lengths)]. *)
Definition radius (compound : bool) (x : R * R) : R :=
  let m := x.1 in
  let ell := x.2 in
  if compound then Math_sqrt (m / (Math_PI * ell * DENSITY))
  else Math_pow ((3 * m) / (4 * Math_PI * DENSITY)) (1 / 3).

Definition new_Pendulum (options : Options) : result Pendulum :=
  let integration_method :=
    match opt_integration_method options with
    | None => SEMI_IMPLICIT_EULER
    | Some m => m
    end in
  let lengths := opt_lengths options in
  let masses := opt_masses options in
  let thetas := opt_thetas options in
  let omegas := opt_omegas options in
  if negb (length lengths =? length masses)%nat
     || negb (length masses =? length thetas)%nat
     || negb (length thetas =? length omegas)%nat
  then Throw (StringExn "All parameters must be arrays of the same length.")
  else
    let dimension := length lengths in
    let radii := map (radius (opt_compound options)) (zip masses lengths) in
    let total_length := fold_left Rplus lengths 0 in
    let total_length := (fun r => total_length + r) <$> last radii in
    Ok {| lengths := lengths; masses := masses; thetas := thetas;
          omegas := omegas; integration_method_of := integration_method;
          compound := opt_compound options; dimension := dimension;
          radii := radii; total_length := total_length; time := 0 |}.

Definition getCartesianPositions (p : Pendulum) : result (list (R * R)) :=
  '(_, _, pos) ← for_pure 0 (dimension p) (fun i '(sx, sy, pos) =>
      ell ← index (lengths p) i;
      th ← index (thetas p) i;
      let sx := sx + ell * Math_sin th in
      let sy := sy - ell * Math_cos th in
      Ok (sx, sy, pos ++ [(sx, sy)])) (0, 0, []);
  Ok pos.

Definition getCentersOfMass (p : Pendulum) : result (list (R * R)) :=
  if negb (compound p) then getCartesianPositions p
  else
    '(_, _, pos) ← for_pure 0 (dimension p) (fun i '(sx, sy, pos) =>
        ell ← index (lengths p) i;
        th ← index (thetas p) i;
        let dsx := 0.5 * ell * Math_sin th in
        let dsy := 0.5 * ell * Math_cos th in
        let sx := sx + dsx in
        let sy := sy - dsy in
        let pos := pos ++ [(sx, sy)] in
        Ok (sx + dsx, sy - dsy, pos)) (0, 0, []);
    Ok pos.

Definition getCartesianVelocities (p : Pendulum) : result (list (R * R)) :=
  '(_, _, vel) ← for_pure 0 (dimension p) (fun i '(vx, vy, vel) =>
      ell ← index (lengths p) i;
      th ← index (thetas p) i;
      w ← index (omegas p) i;
      let dvx := ell * Math_cos th * w in
      let dvy := ell * Math_sin th * w in
      let dvx := if compound p then dvx / 2 else dvx in
      let dvy := if compound p then dvy / 2 else dvy in
      let vx := vx + dvx in
      let vy := vy + dvy in
      let vel := vel ++ [(vx, vy)] in
      if compound p then Ok (vx + dvx, vy + dvy, vel)
      else Ok (vx, vy, vel)) (0, 0, []);
  Ok vel.

(** ['Kinetic ' + (i + 1)] and its like: the number is printed in decimal. *)
Definition label (kind : string) (i : nat) : string :=
  kind +:+ pretty (i + 1)%nat.

Definition getEnergyNames (p : Pendulum) : list string :=
  let range := seq 0 (dimension p) in
  let names := [] in
  let names :=
    fold_left (fun names i => names ++ [label "Kinetic " i]) range names in
  let names :=
    fold_left (fun names i => names ++ [label "Potential " i]) range names in
  let names :=
    if compound p then
      fold_left (fun names i => names ++ [label "Angular " i]) range names
    else names in
  names ++ ["Total energy"%string].

Definition getEnergy (p : Pendulum) : result (list R) :=
  pos ← getCentersOfMass p;
  vel ← getCartesianVelocities p;
  '(total, energy) ← for_pure 0 (dimension p) (fun i '(total, energy) =>
      m ← index (masses p) i;
      v ← index_pair vel i;
      let t := 0.5 * m * (v.1 * v.1 + v.2 * v.2) in
      xy ← index_pair pos i;
      let u := m * GRAVITY * xy.2 in
      let total := total + (t + u) in
      let energy := (energy ++ [t]) ++ [u] in
      if compound p then
        len ← index (lengths p) i;
        w ← index (omegas p) i;
        let at_ := (1 / 24) * m * len * len * w * w in
        Ok (total + at_, energy ++ [at_])
      else Ok (total, energy)) (0, []);
  Ok (energy ++ [total]).

(** [getEnergy] returns an array; [energy.kinetic] is looked up on it. *)
Definition getTotalEnergy (p : Pendulum) : result R :=
  values ← getEnergy p;
  let energy := EnergyArray values in
  for_pure 0 (dimension p) (fun i total_energy =>
    k ← index_prop (prop_kinetic energy) i;
    u ← index_prop (prop_potential energy) i;
    Ok (total_energy + (k + u))) 0.

Section Dynamics.
Context `{Numeric}.

Definition computeAlphas (thetas omegas : list R) (torques : torques_arg)
  (p : Pendulum) : result (list R) :=
  if (dimension p =? 1)%nat then
    if compound p then
      ell ← index (lengths p) 0;
      t ← index thetas 0;
      Ok [(- (3 * GRAVITY)) / (2 * ell) * Math_sin t]
    else
      ell ← index (lengths p) 0;
      t ← index thetas 0;
      Ok [(- GRAVITY) / ell * Math_sin t]
  else if (dimension p =? 2)%nat then
    m1 ← index (masses p) 0;
    m2 ← index (masses p) 1;
    t1 ← index thetas 0;
    t2 ← index thetas 1;
    w1 ← index omegas 0;
    w2 ← index omegas 1;
    ell1 ← index (lengths p) 0;
    ell2 ← index (lengths p) 1;
    if compound p then
      let A00 := (m1 / 3 + m2) * ell1 in
      let A01 := 0.5 * m2 * ell2 * Math_cos (t1 - t2) in
      let b0 := (- 0.5) * m2 * ell2 * w2 * w2 * Math_sin (t1 - t2) in
      let b0 := b0 - (m1 / 2 + m2) * GRAVITY * Math_sin t1 in
      let A10 := 0.5 * m2 * ell1 * Math_cos (t1 - t2) in
      let A11 := (1 / 3) * m2 * ell2 in
      let b1 := 0.5 * m2 * ell1 * w1 * w1 * Math_sin (t1 - t2) in
      let b1 := b1 - 0.5 * m2 * GRAVITY * Math_sin t2 in
      Ok (numeric_solve [[A00; A01]; [A10; A11]] [b0; b1])
    else
      let A00 := (m1 + m2) * ell1 in
      let A01 := m2 * ell2 * Math_cos (t1 - t2) in
      let b0 := (- m2) * ell2 * w2 * w2 * Math_sin (t1 - t2) in
      let b0 := b0 - GRAVITY * (m1 + m2) * Math_sin t1 in
      let A10 := m2 * ell1 * Math_cos (t1 - t2) in
      let A11 := m2 * ell2 in
      let b1 := m2 * ell1 * ell2 * w1 * w1 * Math_sin (t1 - t2) in
      let b1 := b1 - ell2 * m2 * GRAVITY * Math_sin t2 in
      (* the stiffness and torque terms are commented out in the source *)
      Ok (numeric_solve [[A00; A01]; [A10; A11]] [b0; b1])
  else Throw (StringExn "Not implemented").

(** [this.thetas[i]], [this.omegas[i]] as operands, and the writes back. *)
Definition this_thetas (i : nat) : stateful Pendulum R :=
  call (fun p => index (thetas p) i).
Definition this_omegas (i : nat) : stateful Pendulum R :=
  call (fun p => index (omegas p) i).
Definition write_theta (i : nat) (v : R) : stateful Pendulum unit :=
  modify (fun p => set_thetas (<[i := v]> (thetas p)) p).
Definition write_omega (i : nat) (v : R) : stateful Pendulum unit :=
  modify (fun p => set_omegas (<[i := v]> (omegas p)) p).

(** [this.computeAlphas(this.thetas, this.omegas, torques)]. *)
Definition alphas_here (torques : torques_arg)
  : stateful Pendulum (list R) :=
  call (fun p => computeAlphas (thetas p) (omegas p) torques p).

Open Scope stateful_scope.

(** dt is in seconds *)
Definition takeStep (dt : R) (torques : torques_arg)
  : stateful Pendulum unit :=
  modify (fun p => set_time (time p + dt) p) ;;
  let* method := gets integration_method_of in
  match method with
  | FORWARD_EULER =>
      let* alphas := alphas_here torques in
      for_loop 0 (length alphas) (fun i _ =>
        let* t := this_thetas i in
        let* w := this_omegas i in
        write_theta i (t + w * dt) ;;
        let* w := this_omegas i in
        let* a := lift (index alphas i) in
        write_omega i (w + a * dt)) tt
  | SEMI_IMPLICIT_EULER =>
      let* alphas := alphas_here torques in
      for_loop 0 (length alphas) (fun i _ =>
        let* w := this_omegas i in
        let* a := lift (index alphas i) in
        write_omega i (w + a * dt) ;;
        let* t := this_thetas i in
        let* w := this_omegas i in
        write_theta i (t + w * dt)) tt
  | RUNGE_KUTTA =>
      let* omegas_k1 := gets omegas in
      let* alphas_k1 := alphas_here torques in
      let* (thetas, omegas_k2) :=
        for_loop 0 (length alphas_k1) (fun i '(thetas, omegas_k2) =>
          let* t := this_thetas i in
          let* w1 := lift (index omegas_k1 i) in
          let thetas := thetas ++ [t + (dt / 2) * w1] in
          let* w := this_omegas i in
          let* a := lift (index alphas_k1 i) in
          st_ret (thetas, omegas_k2 ++ [w + (dt / 2) * a])) ([], []) in
      let* alphas_k2 := call (computeAlphas thetas omegas_k2 torques) in
      let* (thetas, omegas_k3) :=
        for_loop 0 (length alphas_k2) (fun i '(thetas, omegas_k3) =>
          let* t := this_thetas i in
          let* w2 := lift (index omegas_k2 i) in
          let* thetas := lift (array_set thetas i (t + (dt / 2) * w2)) in
          let* w := this_omegas i in
          let* a := lift (index alphas_k2 i) in
          st_ret (thetas, omegas_k3 ++ [w + (dt / 2) * a])) (thetas, []) in
      let* alphas_k3 := call (computeAlphas thetas omegas_k3 torques) in
      let* (thetas, omegas_k4) :=
        for_loop 0 (length alphas_k3) (fun i '(thetas, omegas_k4) =>
          let* t := this_thetas i in
          let* w3 := lift (index omegas_k3 i) in
          let* thetas := lift (array_set thetas i (t + dt * w3)) in
          let* w := this_omegas i in
          let* a := lift (index alphas_k3 i) in
          st_ret (thetas, omegas_k4 ++ [w + dt * a])) (thetas, []) in
      let* alphas_k4 := call (computeAlphas thetas omegas_k4 torques) in
      let* dimension := gets dimension in
      for_loop 0 dimension (fun i _ =>
        let* w1 := lift (index omegas_k1 i) in
        let* w2 := lift (index omegas_k2 i) in
        let* w3 := lift (index omegas_k3 i) in
        let* w4 := lift (index omegas_k4 i) in
        let theta_step := w1 + 2 * w2 + 2 * w3 + w4 in
        let* a1 := lift (index alphas_k1 i) in
        let* a2 := lift (index alphas_k2 i) in
        let* a3 := lift (index alphas_k3 i) in
        let* a4 := lift (index alphas_k4 i) in
        let omega_step := a1 + 2 * a2 + 2 * a3 + a4 in
        let* t := this_thetas i in
        write_theta i (t + (dt / 6) * theta_step) ;;
        let* w := this_omegas i in
        write_omega i (w + (dt / 6) * omega_step)) tt
  | Unrecognized => st_ret tt
  end.

Close Scope stateful_scope.

End Dynamics.

End PendulumJs.

(* ================================================================== *)
(** ** The earlier variant (point masses only) *)

Module Earlier.

Record Options : Type := {
  opt_lengths : list R;
  opt_masses : list R;
  opt_thetas : list R;
  opt_omegas : list R;
  opt_integration_method : option integration_method
}.

Record Pendulum : Type := {
  lengths : list R;
  masses : list R;
  thetas : list R;
  omegas : list R;
  integration_method_of : integration_method;
  dimension : nat;
  radii : list R;
  total_length : option R;
  time : R
}.

Definition set_thetas (v : list R) (p : Pendulum) : Pendulum :=
  {| lengths := lengths p; masses := masses p; thetas := v;
     omegas := omegas p; integration_method_of := integration_method_of p;
     dimension := dimension p; radii := radii p;
     total_length := total_length p; time := time p |}.

Definition set_omegas (v : list R) (p : Pendulum) : Pendulum :=
  {| lengths := lengths p; masses := masses p; thetas := thetas p;
     omegas := v; integration_method_of := integration_method_of p;
     dimension := dimension p; radii := radii p;
     total_length := total_length p; time := time p |}.

Definition set_time (v : R) (p : Pendulum) : Pendulum :=
  {| lengths := lengths p; masses := masses p; thetas := thetas p;
     omegas := omegas p; integration_method_of := integration_method_of p;
     dimension := dimension p; radii := radii p;
     total_length := total_length p; time := v |}.

Definition radius (m : R) : R :=
  Math_pow ((3 * m) / (4 * Math_PI * DENSITY)) (1 / 3).

Definition new_Pendulum (options : Options) : result Pendulum :=
  let integration_method :=
    match opt_integration_method options with
    | None => SEMI_IMPLICIT_EULER
    | Some m => m
    end in
  let lengths := opt_lengths options in
  let masses := opt_masses options in
  let thetas := opt_thetas options in
  let omegas := opt_omegas options in
  if negb (length lengths =? length masses)%nat
     || negb (length masses =? length thetas)%nat
     || negb (length thetas =? length omegas)%nat
  then Throw (StringExn "All parameters must be arrays of the same length.")
  else
    let dimension := length lengths in
    let radii := map radius masses in
    let total_length := fold_left Rplus lengths 0 in
    let total_length := (fun r => total_length + r) <$> last radii in
    Ok {| lengths := lengths; masses := masses; thetas := thetas;
          omegas := omegas; integration_method_of := integration_method;
          dimension := dimension; radii := radii;
          total_length := total_length; time := 0 |}.

Definition getCartesianPositions (p : Pendulum) : result (list (R * R)) :=
  '(_, _, pos) ← for_pure 0 (dimension p) (fun i '(sx, sy, pos) =>
      ell ← index (lengths p) i;
      th ← index (thetas p) i;
      let sx := sx + ell * Math_sin th in
      let sy := sy - ell * Math_cos th in
      Ok (sx, sy, pos ++ [(sx, sy)])) (0, 0, []);
  Ok pos.

Definition getCartesianVelocities (p : Pendulum) : result (list (R * R)) :=
  '(_, _, vel) ← for_pure 0 (dimension p) (fun i '(vx, vy, vel) =>
      ell ← index (lengths p) i;
      th ← index (thetas p) i;
      w ← index (omegas p) i;
      let vx := vx + ell * Math_cos th * w in
      let vy := vy + ell * Math_sin th * w in
      Ok (vx, vy, vel ++ [(vx, vy)])) (0, 0, []);
  Ok vel.

(** The object [{kinetic: [...], potential: [...]}], as the pair of its two
    arrays. *)
Definition getEnergy (p : Pendulum) : result (list R * list R) :=
  pos ← getCartesianPositions p;
  vel ← getCartesianVelocities p;
  for_pure 0 (dimension p) (fun i '(kinetic, potential) =>
      m ← index (masses p) i;
      v ← index_pair vel i;
      let t := 0.5 * m * (v.1 * v.1 + v.2 * v.2) in
      xy ← index_pair pos i;
      let u := m * GRAVITY * xy.2 in
      Ok (kinetic ++ [t], potential ++ [u])) ([], []).

Definition getTotalEnergy (p : Pendulum) : result R :=
  '(kinetic, potential) ← getEnergy p;
  let energy := EnergyObject kinetic potential in
  for_pure 0 (dimension p) (fun i total_energy =>
    k ← index_prop (prop_kinetic energy) i;
    u ← index_prop (prop_potential energy) i;
    Ok (total_energy + (k + u))) 0.

Section Dynamics.
Context `{Numeric}.

Definition computeAlphas (thetas omegas : list R) (torques : torques_arg)
  (p : Pendulum) : result (list R) :=
  if (dimension p =? 1)%nat then
    ell ← index (lengths p) 0;
    t ← index thetas 0;
    Ok [(- GRAVITY) / ell * Math_sin t]
  else if (dimension p =? 2)%nat then
    m1 ← index (masses p) 0;
    m2 ← index (masses p) 1;
    t1 ← index thetas 0;
    t2 ← index thetas 1;
    w1 ← index omegas 0;
    w2 ← index omegas 1;
    ell1 ← index (lengths p) 0;
    ell2 ← index (lengths p) 1;
    let A00 := (m1 + m2) * ell1 in
    let A01 := m2 * ell2 * Math_cos (t1 - t2) in
    let b0 := (- m2) * ell2 * w2 * w2 * Math_sin (t1 - t2) in
    let b0 := b0 - GRAVITY * (m1 + m2) * Math_sin t1 in
    let A10 := m2 * ell1 * Math_cos (t1 - t2) in
    let A11 := m2 * ell2 in
    let b1 := m2 * ell1 * ell2 * w1 * w1 * Math_sin (t1 - t2) in
    let b1 := b1 - ell2 * m2 * GRAVITY * Math_sin t2 in
    match torques with
    | Some torques =>                       (* _.isArray(torques) *)
        tau ← index torques 0;
        let b0 := b0 + tau * (t1 - t2) / ell1 in
        let b1 := b1 - tau * (t1 - t2) / ell2 in
        Ok (numeric_solve [[A00; A01]; [A10; A11]] [b0; b1])
    | None => Ok (numeric_solve [[A00; A01]; [A10; A11]] [b0; b1])
    end
  else Throw (StringExn "Not implemented").

Definition this_thetas (i : nat) : stateful Pendulum R :=
  call (fun p => index (thetas p) i).
Definition this_omegas (i : nat) : stateful Pendulum R :=
  call (fun p => index (omegas p) i).
Definition write_theta (i : nat) (v : R) : stateful Pendulum unit :=
  modify (fun p => set_thetas (<[i := v]> (thetas p)) p).
Definition write_omega (i : nat) (v : R) : stateful Pendulum unit :=
  modify (fun p => set_omegas (<[i := v]> (omegas p)) p).

(** [this.computeAlphas(this.thetas, this.omegas)], with [passed] as third
    argument. *)
Definition alphas_here (passed : torques_arg)
  : stateful Pendulum (list R) :=
  call (fun p => computeAlphas (thetas p) (omegas p) passed p).

Open Scope stateful_scope.

(** The body of [takeStep]; [passed] is what its calls of [computeAlphas]
    receive as third argument. *)
Definition takeStep_passing (passed : torques_arg) (dt : R)
  : stateful Pendulum unit :=
  modify (fun p => set_time (time p + dt) p) ;;
  let* method := gets integration_method_of in
  match method with
  | FORWARD_EULER =>
      let* alphas := alphas_here passed in
      for_loop 0 (length alphas) (fun i _ =>
        let* t := this_thetas i in
        let* w := this_omegas i in
        write_theta i (t + w * dt) ;;
        let* w := this_omegas i in
        let* a := lift (index alphas i) in
        write_omega i (w + a * dt)) tt
  | SEMI_IMPLICIT_EULER =>
      let* alphas := alphas_here passed in
      for_loop 0 (length alphas) (fun i _ =>
        let* w := this_omegas i in
        let* a := lift (index alphas i) in
        write_omega i (w + a * dt) ;;
        let* t := this_thetas i in
        let* w := this_omegas i in
        write_theta i (t + w * dt)) tt
  | RUNGE_KUTTA =>
      let* omegas_k1 := gets omegas in
      let* alphas_k1 := alphas_here passed in
      let* (thetas, omegas_k2) :=
        for_loop 0 (length alphas_k1) (fun i '(thetas, omegas_k2) =>
          let* t := this_thetas i in
          let* w1 := lift (index omegas_k1 i) in
          let thetas := thetas ++ [t + (dt / 2) * w1] in
          let* w := this_omegas i in
          let* a := lift (index alphas_k1 i) in
          st_ret (thetas, omegas_k2 ++ [w + (dt / 2) * a])) ([], []) in
      let* alphas_k2 := call (computeAlphas thetas omegas_k2 passed) in
      let* (thetas, omegas_k3) :=
        for_loop 0 (length alphas_k2) (fun i '(thetas, omegas_k3) =>
          let* t := this_thetas i in
          let* w2 := lift (index omegas_k2 i) in
          let* thetas := lift (array_set thetas i (t + (dt / 2) * w2)) in
          let* w := this_omegas i in
          let* a := lift (index alphas_k2 i) in
          st_ret (thetas, omegas_k3 ++ [w + (dt / 2) * a])) (thetas, []) in
      let* alphas_k3 := call (computeAlphas thetas omegas_k3 passed) in
      let* (thetas, omegas_k4) :=
        for_loop 0 (length alphas_k3) (fun i '(thetas, omegas_k4) =>
          let* t := this_thetas i in
          let* w3 := lift (index omegas_k3 i) in
          let* thetas := lift (array_set thetas i (t + dt * w3)) in
          let* w := this_omegas i in
          let* a := lift (index alphas_k3 i) in
          st_ret (thetas, omegas_k4 ++ [w + dt * a])) (thetas, []) in
      let* alphas_k4 := call (computeAlphas thetas omegas_k4 passed) in
      let* dimension := gets dimension in
      for_loop 0 dimension (fun i _ =>
        let* w1 := lift (index omegas_k1 i) in
        let* w2 := lift (index omegas_k2 i) in
        let* w3 := lift (index omegas_k3 i) in
        let* w4 := lift (index omegas_k4 i) in
        let theta_step := w1 + 2 * w2 + 2 * w3 + w4 in
        let* a1 := lift (index alphas_k1 i) in
        let* a2 := lift (index alphas_k2 i) in
        let* a3 := lift (index alphas_k3 i) in
        let* a4 := lift (index alphas_k4 i) in
        let omega_step := a1 + 2 * a2 + 2 * a3 + a4 in
        let* t := this_thetas i in
        write_theta i (t + (dt / 6) * theta_step) ;;
        let* w := this_omegas i in
        write_omega i (w + (dt / 6) * omega_step)) tt
  | Unrecognized => st_ret tt
  end.


(** dt is in seconds.  Every call of [computeAlphas] in the source has two
    arguments: the third is [undefined]. *)
Definition takeStep (dt : R) (torques : torques_arg)
  : stateful Pendulum unit :=
  takeStep_passing None dt.

(** The step as the specification words it: the torque goes unchanged to
    every evaluation of the accelerations. *)
Definition takeStep_forwarding (dt : R) (torques : torques_arg)
  : stateful Pendulum unit :=
  takeStep_passing torques dt.

Close Scope stateful_scope.

End Dynamics.

End Earlier.

(* ================================================================== *)
(** ** Running the model: a concrete solver and concrete pendulums *)

(** Cramer's rule on a 2x2 system, an instance of the solver interface under
    which the model runs on concrete inputs. *)
Definition cramer (A : list (list R)) (b : list R) : list R :=
  match A, b with
  | [[a00; a01]; [a10; a11]], [b0; b1] =>
      let det := a00 * a11 - a01 * a10 in
      [(b0 * a11 - a01 * b1) / det; (a00 * b1 - b0 * a10) / det]
  | _, _ => b
  end.

Definition cramer_numeric : Numeric.
Proof.
  refine {| numeric_solve := cramer |}.
  intros A b. unfold cramer.
  repeat (match goal with
          | |- context [match ?l with [] => _ | _ :: _ => _ end] =>
              destruct l
          end; try reflexivity).
Defined.

(** What the constructor establishes and no method disturbs: the four arrays
    have [dimension] entries each. *)
Definition wf (p : PendulumJs.Pendulum) : Prop :=
  length (PendulumJs.lengths p) = PendulumJs.dimension p
  /\ length (PendulumJs.masses p) = PendulumJs.dimension p
  /\ length (PendulumJs.thetas p) = PendulumJs.dimension p
  /\ length (PendulumJs.omegas p) = PendulumJs.dimension p.

Definition wf_earlier (p : Earlier.Pendulum) : Prop :=
  length (Earlier.lengths p) = Earlier.dimension p
  /\ length (Earlier.masses p) = Earlier.dimension p
  /\ length (Earlier.thetas p) = Earlier.dimension p
  /\ length (Earlier.omegas p) = Earlier.dimension p.

(** The arrays of a construction share one length. *)
Definition same_length (o : PendulumJs.Options) : Prop :=
  length (PendulumJs.opt_lengths o) = length (PendulumJs.opt_masses o)
  /\ length (PendulumJs.opt_masses o) = length (PendulumJs.opt_thetas o)
  /\ length (PendulumJs.opt_thetas o) = length (PendulumJs.opt_omegas o).

Definition validation_error : exn :=
  StringExn "All parameters must be arrays of the same length.".
Definition unsupported_dimension : exn := StringExn "Not implemented".

(** A chain of three equal links at rest: the constructor takes it. *)
Definition three_links : PendulumJs.Options :=
  {| PendulumJs.opt_lengths := [1; 1; 1];
     PendulumJs.opt_masses := [1; 1; 1];
     PendulumJs.opt_thetas := [0; 0; 0];
     PendulumJs.opt_omegas := [0; 0; 0];
     PendulumJs.opt_integration_method := None;
     PendulumJs.opt_compound := false |}.

(** A dimension the dynamics has formulas for. *)
Definition supported (p : PendulumJs.Pendulum) : Prop :=
  PendulumJs.dimension p = 1%nat \/ PendulumJs.dimension p = 2%nat.

Definition supported_earlier (p : Earlier.Pendulum) : Prop :=
  Earlier.dimension p = 1%nat \/ Earlier.dimension p = 2%nat.

(** Lengths in meters and masses in kilograms, as the comments of the source
    give them: positive numbers.  The dynamics then divides by no zero, and
    the system of two links it hands to [numeric.solve] is regular. *)
Definition positive_links (p : PendulumJs.Pendulum) : Prop :=
  Forall (fun ell => 0 < ell) (PendulumJs.lengths p)
  /\ Forall (fun m => 0 < m) (PendulumJs.masses p).

(** [keeps I m]: from a state in [I], the computation [m] ends in [I] and
    does not throw. *)
Definition keeps {S A} (I : S -> Prop) (m : stateful S A) : Prop :=
  forall s, I s -> I (m s).2 /\ forall e, (m s).1 <> Throw e.

(** The single point-mass pendulum of the closed-form check: one metre, two
    kilograms, released from the horizontal. *)
Definition single_point_mass : PendulumJs.Options :=
  {| PendulumJs.opt_lengths := [1];
     PendulumJs.opt_masses := [2];
     PendulumJs.opt_thetas := [Math_PI / 2];
     PendulumJs.opt_omegas := [0];
     PendulumJs.opt_integration_method := None;
     PendulumJs.opt_compound := false |}.

Definition single_point_mass_earlier : Earlier.Options :=
  {| Earlier.opt_lengths := [1];
     Earlier.opt_masses := [2];
     Earlier.opt_thetas := [Math_PI / 2];
     Earlier.opt_omegas := [0];
     Earlier.opt_integration_method := None |}.

(** The same pendulum with [null] for a method, as the page passes when no
    method button is checked. *)
Definition single_without_method : PendulumJs.Options :=
  {| PendulumJs.opt_lengths := [1];
     PendulumJs.opt_masses := [2];
     PendulumJs.opt_thetas := [Math_PI / 2];
     PendulumJs.opt_omegas := [0];
     PendulumJs.opt_integration_method := Some Unrecognized;
     PendulumJs.opt_compound := false |}.

Definition single_without_method_earlier : Earlier.Options :=
  {| Earlier.opt_lengths := [1];
     Earlier.opt_masses := [2];
     Earlier.opt_thetas := [Math_PI / 2];
     Earlier.opt_omegas := [0];
     Earlier.opt_integration_method := Some Unrecognized |}.

(** One semi-implicit Euler update of all links: the velocities first, the
    angles from the new velocities. *)
Definition semi_implicit_omegas (dt : R) (omegas alphas : list R) : list R :=
  zip_with (fun w a => w + a * dt) omegas alphas.

Definition semi_implicit_thetas (dt : R) (thetas omegas alphas : list R)
  : list R :=
  zip_with (fun t w' => t + w' * dt) thetas
    (semi_implicit_omegas dt omegas alphas).

(** The 2x2 system of the point-mass double pendulum as the specification
    writes it: the matrix, and the right-hand side without any torque. *)
Definition point_mass_matrix (m1 m2 l1 l2 t1 t2 : R) : list (list R) :=
  [[(m1 + m2) * l1; m2 * l2 * cos (t1 - t2)];
   [m2 * l1 * cos (t1 - t2); m2 * l2]].

Definition point_mass_b0 (m1 m2 l2 t1 t2 w2 : R) : R :=
  - m2 * l2 * (w2 * w2) * sin (t1 - t2) - GRAVITY * (m1 + m2) * sin t1.

Definition point_mass_b1 (m2 l1 l2 t1 t2 w1 : R) : R :=
  m2 * l1 * l2 * (w1 * w1) * sin (t1 - t2) - l2 * m2 * GRAVITY * sin t2.

(** A point-mass double pendulum at rest, the first link horizontal and the
    second hanging down, so that the two angles differ. *)
Definition double_at_right_angle : Earlier.Options :=
  {| Earlier.opt_lengths := [1; 1];
     Earlier.opt_masses := [1; 1];
     Earlier.opt_thetas := [Math_PI / 2; 0];
     Earlier.opt_omegas := [0; 0];
     Earlier.opt_integration_method := None |}.

(** The pendulum the page starts with: one compound link of 1.2 m and 40 kg,
    released from the horizontal, integrated by Runge-Kutta. *)
Definition page_default : PendulumJs.Options :=
  {| PendulumJs.opt_lengths := [1.2];
     PendulumJs.opt_masses := [40];
     PendulumJs.opt_thetas := [Math_PI / 2];
     PendulumJs.opt_omegas := [0];
     PendulumJs.opt_integration_method := Some RUNGE_KUTTA;
     PendulumJs.opt_compound := true |}.

(** A point-mass double pendulum hanging at rest. *)
Definition double_hanging : PendulumJs.Options :=
  {| PendulumJs.opt_lengths := [1; 1];
     PendulumJs.opt_masses := [1; 1];
     PendulumJs.opt_thetas := [0; 0];
     PendulumJs.opt_omegas := [0; 0];
     PendulumJs.opt_integration_method := None;
     PendulumJs.opt_compound := false |}.

(* ================================================================== *)
(** ** Geometry, energy, steps and the driver: further definitions *)

(** The joint a link hangs from: the origin for the first link, the tip of
    the link before for the others. *)
Definition joint_before (pos : list (R * R)) (i : nat) : R * R :=
  match i with
  | O => (0, 0)
  | S j => default (0, 0) (pos !! j)
  end.

Definition joints_of (ls ths : list R) (pos : list (R * R)) : Prop :=
  forall i l t, ls !! i = Some l -> ths !! i = Some t ->
    pos !! i = Some ((joint_before pos i).1 + l * sin t,
                     (joint_before pos i).2 - l * cos t).

Definition midpoint (a b : R * R) : R * R :=
  ((a.1 + b.1) / 2, (a.2 + b.2) / 2).

Definition Rsum (l : list R) : R := foldr Rplus 0 l.

(** The number of energy components per link. *)
Definition components_per_link (compound : bool) : nat :=
  if compound then 3%nat else 2%nat.


(** [x + a y], link by link. *)
Definition axpy (a : R) (x y : list R) : list R :=
  zip_with (fun xi yi => xi + a * yi) x y.

(** The closing update of a classical Runge-Kutta step:
    [x + dt/6 (k1 + 2 k2 + 2 k3 + k4)], link by link. *)
Fixpoint rk4_update (dt : R) (x k1 k2 k3 k4 : list R) : list R :=
  match x, k1, k2, k3, k4 with
  | xi :: x, a :: k1, b :: k2, c :: k3, d :: k4 =>
      (xi + dt / 6 * (a + 2 * b + 2 * c + d)) :: rk4_update dt x k1 k2 k3 k4
  | _, _, _, _, _ => []
  end.

(** One forward Euler update of the angles: from the old velocities. *)
Definition forward_euler_thetas (dt : R) (thetas omegas : list R) : list R :=
  zip_with (fun t w => t + w * dt) thetas omegas.

(** [preserves I m]: whatever way the computation [m] ends, it ends in [I]
    when it starts there. *)
Definition preserves {S A} (I : S -> Prop) (m : stateful S A) : Prop :=
  forall s, I s -> I (m s).2.

(** [q] differs from [p] in its angles and angular velocities at most, and
    has as many of them. *)
Definition same_frame (p q : PendulumJs.Pendulum) : Prop :=
  PendulumJs.lengths q = PendulumJs.lengths p
  /\ PendulumJs.masses q = PendulumJs.masses p
  /\ PendulumJs.integration_method_of q = PendulumJs.integration_method_of p
  /\ PendulumJs.compound q = PendulumJs.compound p
  /\ PendulumJs.dimension q = PendulumJs.dimension p
  /\ PendulumJs.radii q = PendulumJs.radii p
  /\ PendulumJs.total_length q = PendulumJs.total_length p
  /\ PendulumJs.time q = PendulumJs.time p
  /\ length (PendulumJs.thetas q) = length (PendulumJs.thetas p)
  /\ length (PendulumJs.omegas q) = length (PendulumJs.omegas p).

(* ================================================================== *)
(** ** The driver of js/pendulum.js: [startSimulation] and the page *)

(** What the closure of [startSimulation] holds: the pendulum (of either
    variant) and the series of the energy plot, each a label and its points
    [[t, value]].  The canvas, the timers and the calls of [$.plot] are left
    out. *)
Record Closure (P : Type) : Type := {
  pendulum : P;
  energy_data : list (string * list (R * R))
}.

Arguments pendulum {P} c.
Arguments energy_data {P} c.

Definition set_pendulum {P} (p : P) (s : Closure P) : Closure P :=
  {| pendulum := p; energy_data := energy_data s |}.

Definition set_energy_data {P} (d : list (string * list (R * R)))
  (s : Closure P) : Closure P :=
  {| pendulum := pendulum s; energy_data := d |}.

Definition Simulation : Type := Closure PendulumJs.Pendulum.

(** [new Pendulum(options)] and one empty series per energy name. *)
Definition startSimulation (options : PendulumJs.Options)
  : result Simulation :=
  p ← PendulumJs.new_Pendulum options;
  let energy_data :=
    fold_left (fun energy_data name => energy_data ++ [(name, [])])
      (PendulumJs.getEnergyNames p) [] in
  Ok {| pendulum := p; energy_data := energy_data |}.

(** [energy_data[i].data.push(point)]: a series that is not there is
    [undefined], and reading its [data] throws. *)
Definition push_point {P} (i : nat) (point : R * R)
  : stateful (Closure P) unit :=
  fun s =>
    match energy_data s !! i with
    | Some (label, data) =>
        (Ok tt,
         set_energy_data (<[i := (label, data ++ [point])]> (energy_data s)) s)
    | None => (Throw TypeError, s)
    end.

Open Scope stateful_scope.

Definition update_energy_data : stateful Simulation unit :=
  let* t := gets (fun s => PendulumJs.time (pendulum s)) in
  let* energy := call (fun s => PendulumJs.getEnergy (pendulum s)) in
  for_loop 0 (length energy) (fun i _ =>
    let* e := lift (index energy i) in     (* i < energy.length *)
    push_point i (t, e)) tt.

(** A method of the pendulum, called from the closure. *)
Definition on_pendulum {A} (m : stateful PendulumJs.Pendulum A)
  : stateful Simulation A :=
  fun s => let (r, p) := m (pendulum s) in (r, set_pendulum p s).

(** The callback of the 5 ms timer; [f_down] and [j_down] are the key
    flags of the closure at that moment. *)
Definition tick `{Numeric} (f_down j_down : bool) : stateful Simulation unit :=
  let torque0 := 0 in
  let torque0 := if f_down then torque0 + 0.5 else torque0 in
  let torque0 := if j_down then torque0 - 0.5 else torque0 in
  on_pendulum (PendulumJs.takeStep 0.005 (Some [torque0])) ;;
  update_energy_data.

Close Scope stateful_scope.

Definition max_length : nat := 1000.

(** What [draw_energy_plot] does to one series before plotting:
    [series.data.slice(series.data.length - max_length)] when it is longer
    than [max_length]. *)
Definition trim_series (series : string * list (R * R))
  : string * list (R * R) :=
  let (label, data) := series in
  if (max_length <? length data)%nat
  then (label, drop (length data - max_length) data)
  else (label, data).

Definition draw_energy_plot {P} : stateful (Closure P) unit :=
  modify (fun s => set_energy_data (map trim_series (energy_data s)) s).

(** The controls of the page that the click handler reads: the value of the
    checked pendulum-type radio ([None] when none is checked) and the
    [checked] property of five inputs. *)
Record Controls : Type := {
  pendulum_type : option string;
  simple_checked : bool;
  compound_checked : bool;
  int_forward_checked : bool;
  int_semi_checked : bool;
  int_runge_kutta_checked : bool
}.

(** The options the click handler of [#go-btn] builds. *)
Definition click_options (c : Controls) : PendulumJs.Options :=
  let double :=
    match pendulum_type c with
    | Some v => if String.eqb v "single" then false else String.eqb v "double"
    | None => false
    end in
  let push (a : list R) (x : R) := if double then a ++ [x] else a in
  let compound := true in
  let compound :=
    if simple_checked c then false
    else if compound_checked c then true
    else compound in
  let integration_method := Unrecognized in           (* null *)
  let integration_method :=
    if int_forward_checked c then FORWARD_EULER
    else if int_semi_checked c then SEMI_IMPLICIT_EULER
    else if int_runge_kutta_checked c then RUNGE_KUTTA
    else integration_method in
  {| PendulumJs.opt_lengths := push [1.2] 0.9;
     PendulumJs.opt_masses := push [40] 40;
     PendulumJs.opt_thetas := push [Math_PI / 2] (Math_PI / 2);
     PendulumJs.opt_omegas := push [0] 0;
     PendulumJs.opt_integration_method := Some integration_method;
     PendulumJs.opt_compound := compound |}.

(** The series are those of the pendulum's energy names, in order. *)
Definition plot_ready (s : Simulation) : Prop :=
  wf (pendulum s)
  /\ supported (pendulum s)
  /\ map fst (energy_data s) = PendulumJs.getEnergyNames (pendulum s).

(** A pendulum of [js/pendulum.js] without its [compound] flag, as the
    earlier variant holds it. *)
Definition forget_compound (p : PendulumJs.Pendulum) : Earlier.Pendulum :=
  {| Earlier.lengths := PendulumJs.lengths p;
     Earlier.masses := PendulumJs.masses p;
     Earlier.thetas := PendulumJs.thetas p;
     Earlier.omegas := PendulumJs.omegas p;
     Earlier.integration_method_of := PendulumJs.integration_method_of p;
     Earlier.dimension := PendulumJs.dimension p;
     Earlier.radii := PendulumJs.radii p;
     Earlier.total_length := PendulumJs.total_length p;
     Earlier.time := PendulumJs.time p |}.

(** Four empty arrays, with any method and either body model. *)
Definition no_links (method : option integration_method) (compound : bool)
  : PendulumJs.Options :=
  {| PendulumJs.opt_lengths := [];
     PendulumJs.opt_masses := [];
     PendulumJs.opt_thetas := [];
     PendulumJs.opt_omegas := [];
     PendulumJs.opt_integration_method := method;
     PendulumJs.opt_compound := compound |}.

(* ================================================================== *)
(** ** The driver of the earlier variant *)

Definition EarlierSimulation : Type := Closure Earlier.Pendulum.

(** [new Pendulum(options)], then a series per kinetic energy, a series per
    potential energy and the series of the total. *)
Definition earlier_startSimulation (options : Earlier.Options)
  : result EarlierSimulation :=
  p ← Earlier.new_Pendulum options;
  let range := seq 0 (Earlier.dimension p) in
  let energy_data := [] in
  let energy_data :=
    fold_left (fun energy_data i =>
                 energy_data ++ [("Kinetic " +:+ pretty (i + 1)%nat, [])])
      range energy_data in
  let energy_data :=
    fold_left (fun energy_data i =>
                 energy_data ++ [("Potential " +:+ pretty (i + 1)%nat, [])])
      range energy_data in
  let energy_data := energy_data ++ [("Total energy"%string, [])] in
  Ok {| pendulum := p; energy_data := energy_data |}.

Open Scope stateful_scope.

Definition earlier_update_energy_data : stateful EarlierSimulation unit :=
  let* t := gets (fun s => Earlier.time (pendulum s)) in
  let* energy := call (fun s => Earlier.getEnergy (pendulum s)) in
  let energy := EnergyObject energy.1 energy.2 in
  let* dimension := gets (fun s => Earlier.dimension (pendulum s)) in
  let* total_energy :=
    for_loop 0 dimension (fun i total_energy =>
      let* k := lift (index_prop (prop_kinetic energy) i) in
      let* u := lift (index_prop (prop_potential energy) i) in
      let total_energy := total_energy + (k + u) in
      let* k := lift (index_prop (prop_kinetic energy) i) in
      push_point i (t, k) ;;
      let* u := lift (index_prop (prop_potential energy) i) in
      push_point (i + dimension) (t, u) ;;
      st_ret total_energy) 0 in
  push_point (2 * dimension) (t, total_energy).

Close Scope stateful_scope.

(** The labels [earlier_startSimulation] gives the series of [n] links. *)
Definition earlier_labels (n : nat) : list string :=
  map (fun i => "Kinetic " +:+ pretty (i + 1)%nat) (seq 0 n)
  ++ map (fun i => "Potential " +:+ pretty (i + 1)%nat) (seq 0 n)
  ++ ["Total energy"%string].

(** The single point-mass pendulum, integrated by forward Euler. *)
Definition single_forward : PendulumJs.Options :=
  {| PendulumJs.opt_lengths := [1];
     PendulumJs.opt_masses := [2];
     PendulumJs.opt_thetas := [Math_PI / 2];
     PendulumJs.opt_omegas := [0];
     PendulumJs.opt_integration_method := Some FORWARD_EULER;
     PendulumJs.opt_compound := false |}.

(* ================================================================== *)
(** ** Drawing on the canvas *)

(** The calls [draw] makes on the 2d context of the canvas, in order. *)
Inductive canvas_call : Type :=
| ClearRect (x y w h : R)
| Save
| SetLineWidth (w : R)
| BeginPath
| MoveTo (x y : R)
| LineTo (x y : R)
| Stroke
| Restore
| Arc (x y r start stop : R)
| Fill.

Definition Math_min : R -> R -> R := Rmin.

(** [this.total_length] as an operand: NaN when there is no link. *)
Definition total_length_operand (p : PendulumJs.Pendulum) : result R :=
  match PendulumJs.total_length p with
  | Some t => Ok t
  | None => NotANumber
  end.

(** [Pendulum.prototype.draw], on a canvas of the given width and height:
    the calls a drawing that completes has made on the context, in order.
    The assignment to [ctx.lineWidth] is listed as a call.  A [scale] that
    is NaN matters where it is used, inside the loop: without links the
    canvas is cleared and nothing else happens. *)
Definition draw (width height : R) (p : PendulumJs.Pendulum)
  : result (list canvas_call) :=
  let calls := [ClearRect 0 0 width height] in
  let scale :=
    total_length ← total_length_operand p;
    Ok (0.5 * Math_min width height / total_length) in
  pos ← PendulumJs.getCartesianPositions p;
  for_pure 0 (PendulumJs.dimension p) (fun i calls =>
    scale ← scale;
    '(x0, y0) ←
      (if (i =? 0)%nat then Ok (width / 2, height / 2)
       else
         before ← index_pair pos (i - 1);
         Ok (width / 2 + scale * before.1, height / 2 - scale * before.2));
    here ← index_pair pos i;
    let x1 := width / 2 + scale * here.1 in
    let y1 := height / 2 - scale * here.2 in
    radius ← index (PendulumJs.radii p) i;
    let calls := calls ++ [Save] in
    let calls :=
      if PendulumJs.compound p
      then calls ++ [SetLineWidth (2 * scale * radius)]
      else calls in
    let calls :=
      calls ++ [BeginPath; MoveTo x0 y0; LineTo x1 y1; Stroke; Restore] in
    let calls :=
      if PendulumJs.compound p
      then calls ++ [BeginPath;
                     Arc x0 y0 (scale * radius) 0 (2 * Math_PI); Fill]
      else calls in
    Ok (calls ++ [BeginPath;
                  Arc x1 y1 (scale * radius) 0 (2 * Math_PI); Fill])) calls.

(** [x] is at most [reach] from the origin. *)
Definition within (reach x : R) : Prop := - reach <= x <= reach.

(** A call that names a point names one on the canvas, and a circle has a
    radius that is not negative. *)
Definition on_canvas (width height : R) (call : canvas_call) : Prop :=
  match call with
  | MoveTo x y | LineTo x y => 0 <= x <= width /\ 0 <= y <= height
  | Arc x y r _ _ => 0 <= x <= width /\ 0 <= y <= height /\ 0 <= r
  | _ => True
  end.

(* ================================================================== *)
(** ** Drawing in the earlier variant *)

Definition earlier_total_length_operand (p : Earlier.Pendulum) : result R :=
  match Earlier.total_length p with
  | Some t => Ok t
  | None => NotANumber
  end.

(** [Pendulum.prototype.new_draw] of the earlier variant, the function its
    timer calls: the calls a drawing that completes has made.  As in
    [draw], a [scale] that is NaN matters inside the loop only. *)
Definition earlier_new_draw (width height : R) (p : Earlier.Pendulum)
  : result (list canvas_call) :=
  let calls := [ClearRect 0 0 width height] in
  let scale :=
    total_length ← earlier_total_length_operand p;
    Ok (0.5 * Math_min width height / total_length) in
  pos ← Earlier.getCartesianPositions p;
  for_pure 0 (Earlier.dimension p) (fun i calls =>
    scale ← scale;
    '(x0, y0) ←
      (if (i =? 0)%nat then Ok (width / 2, height / 2)
       else
         before ← index_pair pos (i - 1);
         Ok (width / 2 + scale * before.1, height / 2 - scale * before.2));
    here ← index_pair pos i;
    let x1 := width / 2 + scale * here.1 in
    let y1 := height / 2 - scale * here.2 in
    radius ← index (Earlier.radii p) i;
    Ok (calls ++ [BeginPath; MoveTo x0 y0; LineTo x1 y1; Stroke;
                  BeginPath; Arc x1 y1 (scale * radius) 0 (2 * Math_PI);
                  Fill])) calls.

(** The number of rows of [_.zip(lengths, masses, thetas, radii)]: that of
    the longest array. *)
Definition zip_rows (p : Earlier.Pendulum) : nat :=
  Nat.max (Nat.max (length (Earlier.lengths p)) (length (Earlier.masses p)))
          (Nat.max (length (Earlier.thetas p)) (length (Earlier.radii p))).

(** [Pendulum.prototype.draw] of the earlier variant, which nothing calls: it
    walks the links by itself, from the centre of the canvas, with y growing
    downwards.  The mass of a row is not used, and neither are [cx] and
    [cy]. *)
Definition earlier_draw (width height : R) (p : Earlier.Pendulum)
  : result (list canvas_call) :=
  let calls := [ClearRect 0 0 width height] in
  let scale :=
    total_length ← earlier_total_length_operand p;
    Ok (0.5 * Math_min width height / total_length) in
  let x0 := width / 2 in
  let y0 := height / 2 in
  '(_, _, calls) ← for_pure 0 (zip_rows p) (fun i '(x0, y0, calls) =>
    scale ← scale;
    len ← index (Earlier.lengths p) i;
    theta ← index (Earlier.thetas p) i;
    radius ← index (Earlier.radii p) i;
    let x1 := x0 + scale * Math_sin theta * len in
    let y1 := y0 + scale * Math_cos theta * len in
    Ok (x1, y1,
        calls ++ [BeginPath; MoveTo x0 y0; LineTo x1 y1; Stroke;
                  BeginPath; Arc x1 y1 (scale * radius) 0 (2 * Math_PI);
                  Fill])) (x0, y0, calls);
  Ok calls.

(* ================================================================== *)
(** ** The timers of the page *)

(** What runs once [startSimulation] has returned: the callbacks of its three
    timers.  The key handlers only set the two flags that the step callback
    reads, so a step carries the flags of its moment; the drawing callback
    carries the width and height the canvas has then. *)
Inductive callback : Type :=
| Step (f_down j_down : bool)       (* every 5 ms: takeStep, update_energy_data *)
| Redraw (width height : nat)       (* every 10 ms: pendulum.draw(canvas) *)
| Plot.                             (* every 100 ms: draw_energy_plot *)

Open Scope stateful_scope.

Definition run_callback `{Numeric} (c : callback)
  : stateful Simulation unit :=
  match c with
  | Step f_down j_down => tick f_down j_down
  | Redraw width height =>
      let* _ := call (fun s => draw (INR width) (INR height) (pendulum s)) in
      st_ret tt
  | Plot => draw_energy_plot
  end.

(** Callbacks in the order the timers fire them, as long as none throws. *)
Fixpoint run_callbacks `{Numeric} (cs : list callback)
  : stateful Simulation unit :=
  match cs with
  | [] => st_ret tt
  | c :: cs => run_callback c ;; run_callbacks cs
  end.

Close Scope stateful_scope.

(** The number of step callbacks among [cs]. *)
Fixpoint steps_of (cs : list callback) : nat :=
  match cs with
  | [] => 0
  | Step _ _ :: cs => S (steps_of cs)
  | _ :: cs => steps_of cs
  end.

(** The number of points of a series after [cs] when it had [n] before: a
    step adds one, a plot keeps the last [max_length]. *)
Fixpoint points_after (n : nat) (cs : list callback) : nat :=
  match cs with
  | [] => n
  | Step _ _ :: cs => points_after (S n) cs
  | Redraw _ _ :: cs => points_after n cs
  | Plot :: cs => points_after (Nat.min n max_length) cs
  end.

(** What the callbacks keep: the series are those of the energy names, all
    of [n] points, and the pendulum has one radius per link and a total
    length. *)
Definition running (n : nat) (s : Simulation) : Prop :=
  plot_ready s
  /\ length (PendulumJs.radii (pendulum s)) = PendulumJs.dimension (pendulum s)
  /\ (exists total, PendulumJs.total_length (pendulum s) = Some total)
  /\ Forall (fun series => length series.2 = n) (energy_data s).

(* ================================================================== *)
(** ** Construction *)

Lemma same_length_dec (o : PendulumJs.Options) :
  (negb (length (PendulumJs.opt_lengths o)
         =? length (PendulumJs.opt_masses o))%nat
   || negb (length (PendulumJs.opt_masses o)
            =? length (PendulumJs.opt_thetas o))%nat
   || negb (length (PendulumJs.opt_thetas o)
            =? length (PendulumJs.opt_omegas o))%nat) = false
  <-> same_length o.
Proof.
  unfold same_length.
  rewrite !orb_false_iff, !negb_false_iff, !Nat.eqb_eq. tauto.
Qed.

Lemma new_Pendulum_ok (o : PendulumJs.Options) (p : PendulumJs.Pendulum) :
  PendulumJs.new_Pendulum o = Ok p ->
  same_length o
  /\ PendulumJs.lengths p = PendulumJs.opt_lengths o
  /\ PendulumJs.masses p = PendulumJs.opt_masses o
  /\ PendulumJs.thetas p = PendulumJs.opt_thetas o
  /\ PendulumJs.omegas p = PendulumJs.opt_omegas o
  /\ PendulumJs.compound p = PendulumJs.opt_compound o
  /\ PendulumJs.dimension p = length (PendulumJs.opt_lengths o)
  /\ PendulumJs.radii p =
       map (PendulumJs.radius (PendulumJs.opt_compound o))
           (zip (PendulumJs.opt_masses o) (PendulumJs.opt_lengths o))
  /\ PendulumJs.time p = 0.
Proof.
  unfold PendulumJs.new_Pendulum.
  destruct (_ || _) eqn:E; [discriminate|].
  apply same_length_dec in E.
  intros [= <-]. simpl. tauto.
Qed.

Lemma new_Pendulum_wf (o : PendulumJs.Options) (p : PendulumJs.Pendulum) :
  PendulumJs.new_Pendulum o = Ok p -> wf p.
Proof.
  intros Hp. apply new_Pendulum_ok in Hp.
  destruct Hp as ((H1 & H2 & H3) & E1 & E2 & E3 & E4 & _ & E5 & _).
  unfold wf. rewrite E1, E2, E3, E4, E5. lia.
Qed.

(** C7.  The constructor throws its validation error exactly when the four
    arrays do not share one length; then no configuration comes out.  When
    they do, a configuration comes out whose dimension is that length, three
    included: the dimension is not looked at here. *)
Theorem construction_validates_lengths (o : PendulumJs.Options) :
  (PendulumJs.new_Pendulum o = Throw validation_error <-> ~ same_length o)
  /\ (~ same_length o -> forall p, PendulumJs.new_Pendulum o <> Ok p)
  /\ (same_length o ->
      exists p, PendulumJs.new_Pendulum o = Ok p
                /\ PendulumJs.dimension p = length (PendulumJs.opt_lengths o)
                /\ wf p)
  /\ (exists p, PendulumJs.new_Pendulum three_links = Ok p
                /\ PendulumJs.dimension p = 3%nat).
Proof.
  assert (Hthrow : ~ same_length o ->
                   PendulumJs.new_Pendulum o = Throw validation_error).
  { intros Hn. unfold PendulumJs.new_Pendulum.
    destruct (_ || _) eqn:E; [reflexivity|].
    apply same_length_dec in E. contradiction. }
  assert (Hok : same_length o -> exists p,
               PendulumJs.new_Pendulum o = Ok p
               /\ PendulumJs.dimension p = length (PendulumJs.opt_lengths o)
               /\ wf p).
  { intros Hs. pose proof Hs as E. apply same_length_dec in E.
    unfold PendulumJs.new_Pendulum. rewrite E.
    eexists. split; [reflexivity|]. split; [reflexivity|].
    unfold wf, same_length in *. simpl. lia. }
  repeat split.
  - intros Ht Hs. destruct (Hok Hs) as (p & Hp & _). congruence.
  - exact Hthrow.
  - intros Hn p Hp. rewrite (Hthrow Hn) in Hp. discriminate.
  - exact Hok.
  - eexists. split; reflexivity.
Qed.

(* ================================================================== *)
(** ** Computations that do not throw *)

Section Keeps.
Context {S : Type} (I : S -> Prop).

Lemma keeps_ret {A} (a : A) : keeps I (st_ret a).
Proof. intros s Hs. split; [exact Hs | discriminate]. Qed.

Lemma keeps_gets {A} (f : S -> A) : keeps I (gets f).
Proof. intros s Hs. split; [exact Hs | discriminate]. Qed.

Lemma keeps_modify (f : S -> S) :
  (forall s, I s -> I (f s)) -> keeps I (modify f).
Proof. intros Hf s Hs. split; [apply Hf, Hs | discriminate]. Qed.

Lemma keeps_lift {A} (r : result A) :
  (forall e, r <> Throw e) -> keeps I (lift r).
Proof. intros Hr s Hs. split; [exact Hs | exact Hr]. Qed.

Lemma keeps_call {A} (f : S -> result A) :
  (forall s e, I s -> f s <> Throw e) -> keeps I (call f).
Proof. intros Hf s Hs. split; [exact Hs | intros e; apply Hf, Hs]. Qed.

Lemma keeps_bind {A B} (m : stateful S A) (k : A -> stateful S B) :
  keeps I m -> (forall a, keeps I (k a)) -> keeps I (st_bind m k).
Proof.
  intros Hm Hk s Hs. unfold st_bind.
  destruct (Hm s Hs) as [Hs' Hq].
  destruct (m s) as [[a | e |] s']; simpl in *.
  - apply Hk, Hs'.
  - exfalso. exact (Hq e eq_refl).
  - split; [exact Hs' | discriminate].
Qed.

Lemma keeps_for_loop {A} (body : nat -> A -> stateful S A) :
  (forall i acc, keeps I (body i acc)) ->
  forall count from acc, keeps I (for_loop from count body acc).
Proof.
  intros Hbody. induction count as [|count IH]; intros from acc; simpl.
  - apply keeps_ret.
  - apply keeps_bind; [apply Hbody | intros a; apply IH].
Qed.

End Keeps.

Lemma index_quiet (a : list R) (i : nat) (e : exn) : index a i <> Throw e.
Proof. unfold index. destruct (a !! i); discriminate. Qed.

Lemma array_set_quiet (a : list R) (i : nat) (v : R) (e : exn) :
  array_set a i v <> Throw e.
Proof.
  unfold array_set.
  destruct (i <? length a)%nat; [discriminate|].
  destruct (i =? length a)%nat; discriminate.
Qed.

(* ================================================================== *)
(** ** The dynamics and the step *)

(** Lists of a known length, spelled out. *)
Ltac list_shapes :=
  repeat match goal with
    | H : length ?l = _ |- _ =>
        is_var l; destruct l; simpl in H;
        [ first [discriminate H | clear H]
        | first [discriminate H | apply Nat.succ_inj in H] ]
    end.

(** A well-formed pendulum of one or two links, spelled out. *)
Ltac pendulum_shapes p :=
  let Hs := fresh "Hs" in
  intros (? & ? & ? & ?) Hs;
  destruct p as [ls ms ths oms meth cmp dim rad tl tm];
  unfold supported in Hs; simpl in *;
  destruct Hs; subst; list_shapes.

Ltac earlier_shapes p :=
  let Hs := fresh "Hs" in
  intros (? & ? & ? & ?) Hs;
  destruct p as [ls ms ths oms meth dim rad tl tm];
  unfold supported_earlier in Hs; simpl in *;
  destruct Hs; subst; list_shapes.

Section StepFacts.
Context `{Numeric}.

(** The array that [numeric.solve] returns for two right-hand sides. *)
Ltac solve_shape :=
  match goal with
  | |- context [numeric_solve ?A ?b] =>
      let L := fresh "L" in
      pose proof (numeric_solve_length A b) as L;
      destruct (numeric_solve A b) as [|? [|? [|? ?]]]; simpl in L;
      try discriminate L; clear L
  end.

Ltac run_step :=
  unfold PendulumJs.takeStep, PendulumJs.alphas_here,
    PendulumJs.computeAlphas, Earlier.takeStep, Earlier.takeStep_forwarding,
    Earlier.takeStep_passing, Earlier.alphas_here, Earlier.computeAlphas,
    call, st_bind;
  cbn; repeat (solve_shape; cbn).

Lemma computeAlphas_unsupported (p : PendulumJs.Pendulum)
  (th om : list R) (tq : torques_arg) :
  ~ supported p ->
  PendulumJs.computeAlphas th om tq p = Throw unsupported_dimension.
Proof.
  unfold supported, PendulumJs.computeAlphas. intros Hn.
  destruct (Nat.eqb_spec (PendulumJs.dimension p) 1); [tauto|].
  destruct (Nat.eqb_spec (PendulumJs.dimension p) 2); [tauto|].
  reflexivity.
Qed.

Lemma computeAlphas_quiet (p : PendulumJs.Pendulum)
  (th om : list R) (tq : torques_arg) (e : exn) :
  supported p -> PendulumJs.computeAlphas th om tq p <> Throw e.
Proof.
  unfold supported, PendulumJs.computeAlphas, index. intros Hs.
  destruct (Nat.eqb_spec (PendulumJs.dimension p) 1).
  - destruct (PendulumJs.compound p);
      repeat (case_match; simpl; try discriminate).
  - destruct (Nat.eqb_spec (PendulumJs.dimension p) 2); [|tauto].
    unfold mbind, result_bind.
    repeat (case_match; simpl; try discriminate).
Qed.

Lemma computeAlphas_returns (p : PendulumJs.Pendulum)
  (th om : list R) (tq : torques_arg) :
  wf p -> supported p ->
  length th = PendulumJs.dimension p ->
  length om = PendulumJs.dimension p ->
  exists alphas,
    PendulumJs.computeAlphas th om tq p = Ok alphas
    /\ length alphas = PendulumJs.dimension p.
Proof.
  pendulum_shapes p; intros Hth Hom; list_shapes.
  - unfold PendulumJs.computeAlphas; cbn.
    destruct cmp; eexists; split; reflexivity.
  - unfold PendulumJs.computeAlphas; cbn.
    destruct cmp; eexists; (split; [reflexivity|]);
      apply numeric_solve_length.
Qed.

Ltac keeps_step :=
  first
    [ apply keeps_ret
    | apply keeps_gets
    | apply keeps_modify; intros ? Hs; exact Hs
    | apply keeps_lift; intros ?;
      first [apply index_quiet | apply array_set_quiet]
    | apply keeps_call; intros ? ? ?;
      first [apply index_quiet | apply computeAlphas_quiet; assumption]
    | apply keeps_for_loop; intros ? ?
    | apply keeps_bind; [|intros ?]
    | match goal with
      | |- keeps _ (let '(_, _) := ?x in _) => destruct x
      | |- keeps _ (match ?x with FORWARD_EULER => _ | _ => _ end) =>
          destruct x
      end ].

(** With one or two links no step throws, whatever the arrays hold. *)
Lemma takeStep_keeps (dt : R) (tq : torques_arg) :
  keeps supported (PendulumJs.takeStep dt tq).
Proof.
  unfold PendulumJs.takeStep, PendulumJs.alphas_here, PendulumJs.this_thetas,
    PendulumJs.this_omegas, PendulumJs.write_theta, PendulumJs.write_omega.
  repeat keeps_step.
Qed.

(** With any other number of links a step of a recognized method throws at
    its first evaluation of the accelerations, the time already advanced. *)
Lemma takeStep_unsupported (p : PendulumJs.Pendulum) (dt : R)
  (tq : torques_arg) :
  ~ supported p ->
  PendulumJs.integration_method_of p <> Unrecognized ->
  PendulumJs.takeStep dt tq p =
    (Throw unsupported_dimension,
     PendulumJs.set_time (PendulumJs.time p + dt) p).
Proof.
  intros Hn Hm.
  assert (Hn' : ~ supported
                  (PendulumJs.set_time (PendulumJs.time p + dt) p))
    by exact Hn.
  unfold PendulumJs.takeStep, PendulumJs.alphas_here, call, st_bind, modify,
    gets.
  cbn.
  destruct (PendulumJs.integration_method_of p); try congruence;
    rewrite (computeAlphas_unsupported _ _ _ _ Hn'); reflexivity.
Qed.

Lemma takeStep_unrecognized (p : PendulumJs.Pendulum) (dt : R)
  (tq : torques_arg) :
  PendulumJs.integration_method_of p = Unrecognized ->
  PendulumJs.takeStep dt tq p =
    (Ok tt, PendulumJs.set_time (PendulumJs.time p + dt) p).
Proof.
  intros Hm.
  unfold PendulumJs.takeStep, st_bind, modify, gets. cbn.
  rewrite Hm. reflexivity.
Qed.

(** C6.  The dynamics throws exactly when the dimension is neither 1 nor 2,
    and what it throws is the unsupported-dimension error; a step of a
    recognized method on such a pendulum fails with it at once.  With one or
    two links, evaluated on arrays of that many angles and velocities, the
    dynamics returns one acceleration per link. *)
Theorem computeAlphas_dimension_error (p : PendulumJs.Pendulum)
  (th om : list R) (tq : torques_arg) :
  ((exists e, PendulumJs.computeAlphas th om tq p = Throw e)
   <-> ~ supported p)
  /\ (~ supported p ->
      PendulumJs.computeAlphas th om tq p = Throw unsupported_dimension
      /\ forall dt,
          PendulumJs.integration_method_of p <> Unrecognized ->
          (PendulumJs.takeStep dt tq p).1 = Throw unsupported_dimension)
  /\ (supported p -> wf p ->
      length th = PendulumJs.dimension p ->
      length om = PendulumJs.dimension p ->
      exists alphas,
        PendulumJs.computeAlphas th om tq p = Ok alphas
        /\ length alphas = PendulumJs.dimension p).
Proof.
  split; [split|split].
  - intros [e He] Hs. exact (computeAlphas_quiet _ _ _ _ e Hs He).
  - intros Hn. eexists. apply computeAlphas_unsupported, Hn.
  - intros Hn. split; [apply computeAlphas_unsupported, Hn|].
    intros dt Hm. rewrite takeStep_unsupported by assumption. reflexivity.
  - intros Hs Hwf. apply computeAlphas_returns; assumption.
Qed.

(** C2, as the code has it.  A step that throws has thrown the
    unsupported-dimension error; it leaves every angle and every angular
    velocity as it was, and every other field too, except [time], which it
    has advanced by [dt] before failing. *)
Theorem failed_step_keeps_angles (p p' : PendulumJs.Pendulum) (dt : R)
  (tq : torques_arg) (e : exn) :
  PendulumJs.takeStep dt tq p = (Throw e, p') ->
  e = unsupported_dimension
  /\ PendulumJs.thetas p' = PendulumJs.thetas p
  /\ PendulumJs.omegas p' = PendulumJs.omegas p
  /\ PendulumJs.time p' = PendulumJs.time p + dt
  /\ p' = PendulumJs.set_time (PendulumJs.time p + dt) p.
Proof.
  intros Hstep.
  destruct (decide (PendulumJs.dimension p = 1%nat
                    \/ PendulumJs.dimension p = 2%nat)) as [Hs | Hn].
  - destruct (takeStep_keeps dt tq p Hs) as [_ Hq].
    exfalso. apply (Hq e). rewrite Hstep. reflexivity.
  - assert (PendulumJs.integration_method_of p = Unrecognized
            \/ PendulumJs.integration_method_of p <> Unrecognized)
      as [Hm | Hm]
      by (destruct (PendulumJs.integration_method_of p);
          first [left; reflexivity | right; discriminate]).
    + rewrite takeStep_unrecognized in Hstep by assumption. discriminate.
    + rewrite takeStep_unsupported in Hstep by assumption.
      injection Hstep as <- <-. repeat split.
Qed.

Lemma takeStep_unrecognized_frame (p : PendulumJs.Pendulum) (dt : R)
  (tq : torques_arg) :
  PendulumJs.integration_method_of p = Unrecognized ->
  exists p',
    PendulumJs.takeStep dt tq p = (Ok tt, p')
    /\ PendulumJs.thetas p' = PendulumJs.thetas p
    /\ PendulumJs.omegas p' = PendulumJs.omegas p
    /\ PendulumJs.time p' = PendulumJs.time p + dt.
Proof.
  intros Hm. eexists. split; [apply takeStep_unrecognized, Hm|].
  repeat split.
Qed.

Lemma takeStep_unrecognized_earlier (p : Earlier.Pendulum) (dt : R)
  (tq : torques_arg) :
  Earlier.integration_method_of p = Unrecognized ->
  exists p',
    Earlier.takeStep dt tq p = (Ok tt, p')
    /\ Earlier.thetas p' = Earlier.thetas p
    /\ Earlier.omegas p' = Earlier.omegas p
    /\ Earlier.time p' = Earlier.time p + dt.
Proof.
  intros Hm.
  exists (Earlier.set_time (Earlier.time p + dt) p). split.
  - unfold Earlier.takeStep, Earlier.takeStep_passing, st_bind, modify, gets.
    cbn. rewrite Hm. reflexivity.
  - repeat split.
Qed.

(** C10.  When the method is none of the three recognized ones, a step
    throws nothing, leaves every angle and every angular velocity as it was,
    and still advances [time] by [dt]; in both variants.  A pendulum
    constructed with [null] for a method is such a one: the default replaces
    [undefined] only. *)
Theorem unrecognized_method_only_advances_time (dt : R) (tq : torques_arg) :
  (forall p : PendulumJs.Pendulum,
      PendulumJs.integration_method_of p = Unrecognized ->
      exists p',
        PendulumJs.takeStep dt tq p = (Ok tt, p')
        /\ PendulumJs.thetas p' = PendulumJs.thetas p
        /\ PendulumJs.omegas p' = PendulumJs.omegas p
        /\ PendulumJs.time p' = PendulumJs.time p + dt)
  /\ (forall p : Earlier.Pendulum,
      Earlier.integration_method_of p = Unrecognized ->
      exists p',
        Earlier.takeStep dt tq p = (Ok tt, p')
        /\ Earlier.thetas p' = Earlier.thetas p
        /\ Earlier.omegas p' = Earlier.omegas p
        /\ Earlier.time p' = Earlier.time p + dt)
  /\ (exists p,
      PendulumJs.new_Pendulum single_without_method = Ok p
      /\ PendulumJs.integration_method_of p = Unrecognized)
  /\ (exists p,
      Earlier.new_Pendulum single_without_method_earlier = Ok p
      /\ Earlier.integration_method_of p = Unrecognized).
Proof.
  split; [|split; [|split]].
  - intros p Hm. apply takeStep_unrecognized_frame, Hm.
  - intros p Hm. apply takeStep_unrecognized_earlier, Hm.
  - eexists. split; reflexivity.
  - eexists. split; reflexivity.
Qed.

(** C8.  With one or two links of positive lengths and masses, a step of
    zero seconds returns normally and leaves the whole pendulum as it was:
    every angle, every angular velocity and the time; whatever the method.
    (With a length of zero the program divides by zero, and the step leaves
    NaN behind; see the note on numbers.) *)
Theorem zero_step_changes_nothing (p : PendulumJs.Pendulum)
  (tq : torques_arg) :
  wf p -> supported p -> positive_links p ->
  PendulumJs.takeStep 0 tq p = (Ok tt, p).
Proof.
  pendulum_shapes p; intros _;
    destruct meth, cmp; run_step;
    unfold st_ret, PendulumJs.set_omegas, PendulumJs.set_thetas,
      PendulumJs.set_time; cbn;
    repeat (f_equal; try lra).
Qed.

(** *** The semi-implicit Euler step *)

Lemma supported_of_alphas (p : PendulumJs.Pendulum) (th om alphas : list R)
  (tq : torques_arg) :
  PendulumJs.computeAlphas th om tq p = Ok alphas -> supported p.
Proof.
  intros Ha.
  destruct (decide (PendulumJs.dimension p = 1%nat
                    \/ PendulumJs.dimension p = 2%nat)) as [Hs | Hn];
    [exact Hs|].
  rewrite computeAlphas_unsupported in Ha by exact Hn. discriminate.
Qed.

Lemma semi_implicit_step (p : PendulumJs.Pendulum) (dt : R)
  (tq : torques_arg) (alphas : list R) :
  wf p ->
  PendulumJs.integration_method_of p = SEMI_IMPLICIT_EULER ->
  PendulumJs.computeAlphas (PendulumJs.thetas p) (PendulumJs.omegas p) tq p
    = Ok alphas ->
  exists p',
    PendulumJs.takeStep dt tq p = (Ok tt, p')
    /\ PendulumJs.omegas p' =
         semi_implicit_omegas dt (PendulumJs.omegas p) alphas
    /\ PendulumJs.thetas p' =
         semi_implicit_thetas dt (PendulumJs.thetas p)
           (PendulumJs.omegas p) alphas
    /\ PendulumJs.time p' = PendulumJs.time p + dt.
Proof.
  intros Hwf Hm Ha. pose proof (supported_of_alphas _ _ _ _ _ Ha) as Hs.
  revert Hwf Hs Hm Ha. pendulum_shapes p; intros -> Ha;
    unfold PendulumJs.computeAlphas in Ha; cbn in Ha;
    destruct cmp; injection Ha as <-; run_step;
    eexists; (split; [reflexivity|]); repeat split.
Qed.

Lemma supported_of_alphas_earlier (p : Earlier.Pendulum)
  (th om alphas : list R) (tq : torques_arg) :
  Earlier.computeAlphas th om tq p = Ok alphas -> supported_earlier p.
Proof.
  unfold Earlier.computeAlphas, supported_earlier.
  destruct (Nat.eqb_spec (Earlier.dimension p) 1); [tauto|].
  destruct (Nat.eqb_spec (Earlier.dimension p) 2); [tauto|].
  discriminate.
Qed.

Lemma semi_implicit_step_earlier (p : Earlier.Pendulum) (dt : R)
  (tq : torques_arg) (alphas : list R) :
  wf_earlier p ->
  Earlier.integration_method_of p = SEMI_IMPLICIT_EULER ->
  Earlier.computeAlphas (Earlier.thetas p) (Earlier.omegas p) None p
    = Ok alphas ->
  exists p',
    Earlier.takeStep dt tq p = (Ok tt, p')
    /\ Earlier.omegas p' =
         semi_implicit_omegas dt (Earlier.omegas p) alphas
    /\ Earlier.thetas p' =
         semi_implicit_thetas dt (Earlier.thetas p) (Earlier.omegas p) alphas
    /\ Earlier.time p' = Earlier.time p + dt.
Proof.
  intros Hwf Hm Ha.
  pose proof (supported_of_alphas_earlier _ _ _ _ _ Ha) as Hs.
  revert Hwf Hs Hm Ha. earlier_shapes p; intros -> Ha;
    unfold Earlier.computeAlphas in Ha; cbn in Ha;
    injection Ha as <-; run_step;
    eexists; (split; [reflexivity|]); repeat split.
Qed.

Lemma released_from_horizontal :
  (- GRAVITY) / 1 * Math_sin (Math_PI / 2) = -9.81
  /\ 0 + -9.81 * 0.005 = -0.04905
  /\ Math_PI / 2 + -0.04905 * 0.005 = PI / 2 - 0.00024525.
Proof.
  unfold GRAVITY, Math_sin, Math_PI. rewrite sin_PI2. repeat split; lra.
Qed.

Lemma single_step_example (tq : torques_arg) :
  exists p p',
    PendulumJs.new_Pendulum single_point_mass = Ok p
    /\ PendulumJs.computeAlphas (PendulumJs.thetas p) (PendulumJs.omegas p)
         tq p = Ok [-9.81]
    /\ PendulumJs.takeStep 0.005 tq p = (Ok tt, p')
    /\ PendulumJs.omegas p' = [-0.04905]
    /\ PendulumJs.thetas p' = [PI / 2 - 0.00024525]
    /\ PendulumJs.time p' = 0.005.
Proof.
  destruct released_from_horizontal as (Ea & Ew & Et).
  eexists. eexists. split; [reflexivity|].
  split; [|split; [reflexivity|]].
  - unfold PendulumJs.computeAlphas. cbn. rewrite Ea. reflexivity.
  - cbn. rewrite Ea, Ew, Et. repeat split. lra.
Qed.

Lemma single_step_example_earlier (tq : torques_arg) :
  exists p p',
    Earlier.new_Pendulum single_point_mass_earlier = Ok p
    /\ Earlier.computeAlphas (Earlier.thetas p) (Earlier.omegas p) None p
       = Ok [-9.81]
    /\ Earlier.takeStep 0.005 tq p = (Ok tt, p')
    /\ Earlier.omegas p' = [-0.04905]
    /\ Earlier.thetas p' = [PI / 2 - 0.00024525]
    /\ Earlier.time p' = 0.005.
Proof.
  destruct released_from_horizontal as (Ea & Ew & Et).
  eexists. eexists. split; [reflexivity|].
  split; [|split; [reflexivity|]].
  - unfold Earlier.computeAlphas. cbn. rewrite Ea. reflexivity.
  - cbn. rewrite Ea, Ew, Et. repeat split. lra.
Qed.

(** C1.  A semi-implicit Euler step evaluates the accelerations at the
    state it starts from, then gives every link its new velocity
    [omega + alpha * dt] and, from that new velocity, its new angle
    [theta + (omega + alpha * dt) * dt]; in both variants.  On the single
    point-mass pendulum (1 m, 2 kg, released from the horizontal) with
    [dt = 0.005] this gives [alpha = -9.81], [omega = -0.04905] and
    [theta = PI / 2 - 0.00024525]. *)
Theorem semi_implicit_euler_step (dt : R) (tq : torques_arg) :
  (forall (p : PendulumJs.Pendulum) (alphas : list R),
      wf p ->
      PendulumJs.integration_method_of p = SEMI_IMPLICIT_EULER ->
      PendulumJs.computeAlphas (PendulumJs.thetas p) (PendulumJs.omegas p)
        tq p = Ok alphas ->
      exists p',
        PendulumJs.takeStep dt tq p = (Ok tt, p')
        /\ PendulumJs.omegas p' =
             semi_implicit_omegas dt (PendulumJs.omegas p) alphas
        /\ PendulumJs.thetas p' =
             semi_implicit_thetas dt (PendulumJs.thetas p)
               (PendulumJs.omegas p) alphas
        /\ PendulumJs.time p' = PendulumJs.time p + dt)
  /\ (forall (p : Earlier.Pendulum) (alphas : list R),
      wf_earlier p ->
      Earlier.integration_method_of p = SEMI_IMPLICIT_EULER ->
      Earlier.computeAlphas (Earlier.thetas p) (Earlier.omegas p) None p
        = Ok alphas ->
      exists p',
        Earlier.takeStep dt tq p = (Ok tt, p')
        /\ Earlier.omegas p' =
             semi_implicit_omegas dt (Earlier.omegas p) alphas
        /\ Earlier.thetas p' =
             semi_implicit_thetas dt (Earlier.thetas p) (Earlier.omegas p)
               alphas
        /\ Earlier.time p' = Earlier.time p + dt)
  /\ (exists p p',
      PendulumJs.new_Pendulum single_point_mass = Ok p
      /\ PendulumJs.integration_method_of p = SEMI_IMPLICIT_EULER
      /\ PendulumJs.computeAlphas (PendulumJs.thetas p)
           (PendulumJs.omegas p) tq p = Ok [-9.81]
      /\ PendulumJs.takeStep 0.005 tq p = (Ok tt, p')
      /\ PendulumJs.omegas p' = [-0.04905]
      /\ PendulumJs.thetas p' = [PI / 2 - 0.00024525]
      /\ PendulumJs.time p' = 0.005)
  /\ (exists p p',
      Earlier.new_Pendulum single_point_mass_earlier = Ok p
      /\ Earlier.integration_method_of p = SEMI_IMPLICIT_EULER
      /\ Earlier.computeAlphas (Earlier.thetas p) (Earlier.omegas p) None p
         = Ok [-9.81]
      /\ Earlier.takeStep 0.005 tq p = (Ok tt, p')
      /\ Earlier.omegas p' = [-0.04905]
      /\ Earlier.thetas p' = [PI / 2 - 0.00024525]
      /\ Earlier.time p' = 0.005).
Proof.
  split; [|split; [|split]].
  - intros p alphas. apply semi_implicit_step.
  - intros p alphas. apply semi_implicit_step_earlier.
  - destruct (single_step_example tq) as (p & p' & Hp & H1 & H2 & H3).
    exists p, p'. repeat split; try tauto.
    unfold PendulumJs.new_Pendulum in Hp. cbn in Hp.
    injection Hp as <-. reflexivity.
  - destruct (single_step_example_earlier tq)
      as (p & p' & Hp & H1 & H2 & H3).
    exists p, p'. repeat split; try tauto.
    unfold Earlier.new_Pendulum in Hp. cbn in Hp.
    injection Hp as <-. reflexivity.
Qed.

(** *** The torque *)

Lemma computeAlphas_with_torque (m1 m2 l1 l2 t1 t2 w1 w2 tau : R)
  (rest rad : list R) (meth : integration_method) (tl : option R)
  (tm : R) :
  let p := {| Earlier.lengths := [l1; l2]; Earlier.masses := [m1; m2];
              Earlier.thetas := [t1; t2]; Earlier.omegas := [w1; w2];
              Earlier.integration_method_of := meth;
              Earlier.dimension := 2; Earlier.radii := rad;
              Earlier.total_length := tl; Earlier.time := tm |} in
  Earlier.computeAlphas [t1; t2] [w1; w2] (Some (tau :: rest)) p =
    Ok (numeric_solve (point_mass_matrix m1 m2 l1 l2 t1 t2)
          [point_mass_b0 m1 m2 l2 t1 t2 w2 + tau * (t1 - t2) / l1;
           point_mass_b1 m2 l1 l2 t1 t2 w1 - tau * (t1 - t2) / l2])
  /\ Earlier.computeAlphas [t1; t2] [w1; w2] None p =
    Ok (numeric_solve (point_mass_matrix m1 m2 l1 l2 t1 t2)
          [point_mass_b0 m1 m2 l2 t1 t2 w2;
           point_mass_b1 m2 l1 l2 t1 t2 w1]).
Proof.
  unfold Earlier.computeAlphas, point_mass_matrix, point_mass_b0,
    point_mass_b1, Math_sin, Math_cos.
  cbn. split; do 2 f_equal; repeat (f_equal; try ring).
Qed.

(** C3, as the code has it.  No step depends on the torque it is given.
    In [js/pendulum.js] the dynamics ignores its torque argument, for point
    masses and compound links alike.  In the earlier variant the dynamics of
    two links, given a torque array, does add [torques[0]*(t1-t2)/l1] to
    [b0] and subtract [torques[0]*(t1-t2)/l2] from [b1] of the point-mass
    system, but a step hands it no torque. *)
Theorem torque_never_reaches_a_step :
  (forall (p : PendulumJs.Pendulum) (th om : list R) (tq : torques_arg),
      PendulumJs.computeAlphas th om tq p
      = PendulumJs.computeAlphas th om None p)
  /\ (forall (p : PendulumJs.Pendulum) (dt : R) (tq : torques_arg),
      PendulumJs.takeStep dt tq p = PendulumJs.takeStep dt None p)
  /\ (forall (p : Earlier.Pendulum) (dt : R) (tq : torques_arg),
      Earlier.takeStep dt tq p = Earlier.takeStep dt None p)
  /\ (forall (m1 m2 l1 l2 t1 t2 w1 w2 tau : R) (rest rad : list R)
        (meth : integration_method) (tl : option R) (tm : R),
      let p := {| Earlier.lengths := [l1; l2]; Earlier.masses := [m1; m2];
                  Earlier.thetas := [t1; t2]; Earlier.omegas := [w1; w2];
                  Earlier.integration_method_of := meth;
                  Earlier.dimension := 2; Earlier.radii := rad;
                  Earlier.total_length := tl; Earlier.time := tm |} in
      Earlier.computeAlphas [t1; t2] [w1; w2] (Some (tau :: rest)) p =
        Ok (numeric_solve (point_mass_matrix m1 m2 l1 l2 t1 t2)
              [point_mass_b0 m1 m2 l2 t1 t2 w2 + tau * (t1 - t2) / l1;
               point_mass_b1 m2 l1 l2 t1 t2 w1 - tau * (t1 - t2) / l2])
      /\ Earlier.computeAlphas [t1; t2] [w1; w2] None p =
        Ok (numeric_solve (point_mass_matrix m1 m2 l1 l2 t1 t2)
              [point_mass_b0 m1 m2 l2 t1 t2 w2;
               point_mass_b1 m2 l1 l2 t1 t2 w1])).
Proof.
  split; [|split; [|split]]; try reflexivity.
  intros. apply computeAlphas_with_torque.
Qed.

End StepFacts.

(* ================================================================== *)
(** ** The step on concrete pendulums *)

(** C3 as stated fails: on a double pendulum whose two angles differ, the
    step the code takes with a torque is not the step in which every
    evaluation of the accelerations receives that torque. *)
Lemma torque_is_not_forwarded :
  exists p,
    Earlier.new_Pendulum double_at_right_angle = Ok p
    /\ Earlier.takeStep (H := cramer_numeric) 1 (Some [1]) p
       <> Earlier.takeStep_forwarding (H := cramer_numeric) 1 (Some [1]) p.
Proof.
  eexists. split; [reflexivity|].
  unfold Earlier.takeStep, Earlier.takeStep_forwarding,
    Earlier.takeStep_passing, Earlier.alphas_here, Earlier.computeAlphas,
    call, st_bind.
  cbn.
  unfold st_ret, Earlier.set_omegas, Earlier.set_thetas, Earlier.set_time,
    Math_sin, Math_cos, Math_PI; cbn.
  rewrite !Rminus_0_r, cos_PI2, sin_PI2, sin_0.
  intros E. injection E as _ _ _ E.
  replace ((1 + 1) * 1 * (1 * 1) - 1 * 1 * 0 * (1 * 1 * 0)) with 2 in E
    by ring.
  pose proof PI_RGT_0. unfold GRAVITY in E. lra.
Qed.

(** C2 as stated fails: a step on three links throws, and the time it
    leaves behind is not the time it found. *)
Lemma failed_step_advances_time :
  exists p p',
    PendulumJs.new_Pendulum three_links = Ok p
    /\ PendulumJs.takeStep (H := cramer_numeric) 1 None p
       = (Throw unsupported_dimension, p')
    /\ PendulumJs.time p = 0
    /\ PendulumJs.time p' = 1
    /\ PendulumJs.time p' <> PendulumJs.time p.
Proof.
  eexists. eexists. split; [reflexivity|]. split; [reflexivity|].
  cbn. repeat split; lra.
Qed.

Lemma failed_step_keeps_angles_witness :
  exists p p',
    PendulumJs.new_Pendulum three_links = Ok p
    /\ PendulumJs.takeStep (H := cramer_numeric) 1 None p
       = (Throw unsupported_dimension, p')
    /\ (unsupported_dimension = unsupported_dimension
        /\ PendulumJs.thetas p' = PendulumJs.thetas p
        /\ PendulumJs.omegas p' = PendulumJs.omegas p
        /\ PendulumJs.time p' = PendulumJs.time p + 1
        /\ p' = PendulumJs.set_time (PendulumJs.time p + 1) p).
Proof.
  eexists. eexists. split; [reflexivity|]. split; [reflexivity|].
  apply (failed_step_keeps_angles (H := cramer_numeric) _ _ 1 None).
  reflexivity.
Defined.

Lemma zero_step_changes_nothing_witness :
  exists p,
    PendulumJs.new_Pendulum single_point_mass = Ok p
    /\ PendulumJs.takeStep (H := cramer_numeric) 0 (Some [1]) p = (Ok tt, p).
Proof.
  eexists. split; [reflexivity|].
  apply (zero_step_changes_nothing (H := cramer_numeric)).
  - repeat split.
  - left. reflexivity.
  - split; (apply Forall_cons; split; [lra | apply Forall_nil_2]).
Defined.

(* ================================================================== *)
(** ** Radii *)

Lemma sphere_argument_positive (m : R) :
  0 < m -> 0 < 3 * m / (4 * PI * 999.97).
Proof.
  intros Hm. pose proof PI_RGT_0.
  apply Rdiv_lt_0_compat; nra.
Qed.

Lemma Math_pow_positive (x y : R) : 0 < x -> Math_pow x y = Rpower x y.
Proof.
  intros Hx. unfold Math_pow. destruct (Rle_dec x 0); [lra | reflexivity].
Qed.

Lemma cube_of_cube_root (x : R) : 0 < x -> Rpower x (1 / 3) ^ 3 = x.
Proof.
  intros Hx.
  rewrite <- Rpower_pow by (unfold Rpower; apply exp_pos).
  rewrite Rpower_mult.
  replace (1 / 3 * INR 3) with 1 by (simpl; field).
  apply Rpower_1, Hx.
Qed.

(** The sphere of the point-mass bulb: its volume times the density is the
    mass. *)
Lemma sphere_radius (m : R) :
  0 < m ->
  let r := Math_pow (3 * m / (4 * PI * 999.97)) (1 / 3) in
  r = Rpower (3 * m / (4 * PI * 999.97)) (1 / 3)
  /\ 0 < r
  /\ 4 / 3 * PI * r ^ 3 * 999.97 = m.
Proof.
  intros Hm r. subst r.
  pose proof (sphere_argument_positive m Hm) as Hx.
  rewrite Math_pow_positive by exact Hx.
  split; [reflexivity|]. split; [unfold Rpower; apply exp_pos|].
  rewrite cube_of_cube_root by exact Hx.
  pose proof PI_RGT_0. field. lra.
Qed.

(** The cylinder of the compound link: [PI r^2 l rho = m]. *)
Lemma cylinder_radius (m ell : R) :
  0 < m -> 0 < ell ->
  let r := sqrt (m / (PI * ell * 999.97)) in
  0 < r /\ PI * (r * r) * ell * 999.97 = m.
Proof.
  intros Hm Hl r. subst r. pose proof PI_RGT_0.
  assert (Hx : 0 < m / (PI * ell * 999.97)).
  { apply Rdiv_lt_0_compat; [exact Hm|].
    apply Rmult_lt_0_compat; [|lra]. apply Rmult_lt_0_compat; lra. }
  split; [apply sqrt_lt_R0, Hx|].
  rewrite sqrt_sqrt by lra. field. lra.
Qed.

Lemma radii_lookup (o : PendulumJs.Options) (p : PendulumJs.Pendulum)
  (i : nat) (m ell : R) :
  PendulumJs.new_Pendulum o = Ok p ->
  PendulumJs.masses p !! i = Some m ->
  PendulumJs.lengths p !! i = Some ell ->
  PendulumJs.radii p !! i =
    Some (if PendulumJs.compound p
          then sqrt (m / (PI * ell * 999.97))
          else Math_pow (3 * m / (4 * PI * 999.97)) (1 / 3)).
Proof.
  intros Hp Hm Hl. apply new_Pendulum_ok in Hp.
  destruct Hp as (_ & El & Em & _ & _ & Ec & _ & Er & _).
  rewrite Er, list_lookup_fmap, <- El, <- Em, <- Ec.
  assert (Hz : zip (PendulumJs.masses p) (PendulumJs.lengths p) !! i
               = Some (m, ell)) by (apply lookup_zip_Some; split; assumption).
  rewrite Hz. reflexivity.
Qed.

(** C9.  Every link of a constructed pendulum has the radius of the closed
    form: [(3 m / (4 PI 999.97))^(1/3)] for a point mass, the sphere of
    density 999.97 and mass [m]; [sqrt (m / (PI l 999.97))] for a compound
    link, the cylinder with [PI r^2 l 999.97 = m].  So it is for the point
    mass of 2 kg and for the compound link of 40 kg and 1.2 m. *)
Theorem radii_closed_forms :
  (forall (o : PendulumJs.Options) (p : PendulumJs.Pendulum) (i : nat)
      (m ell : R),
      PendulumJs.new_Pendulum o = Ok p ->
      PendulumJs.masses p !! i = Some m ->
      PendulumJs.lengths p !! i = Some ell ->
      PendulumJs.radii p !! i =
        Some (if PendulumJs.compound p
              then sqrt (m / (PI * ell * 999.97))
              else Math_pow (3 * m / (4 * PI * 999.97)) (1 / 3)))
  /\ (forall m : R,
      0 < m ->
      let r := Math_pow (3 * m / (4 * PI * 999.97)) (1 / 3) in
      r = Rpower (3 * m / (4 * PI * 999.97)) (1 / 3)
      /\ 0 < r
      /\ 4 / 3 * PI * r ^ 3 * 999.97 = m)
  /\ (forall m ell : R,
      0 < m -> 0 < ell ->
      let r := sqrt (m / (PI * ell * 999.97)) in
      0 < r /\ PI * (r * r) * ell * 999.97 = m)
  /\ (exists p,
      PendulumJs.new_Pendulum single_point_mass = Ok p
      /\ PendulumJs.radii p = [Rpower (3 * 2 / (4 * PI * 999.97)) (1 / 3)])
  /\ (exists p,
      PendulumJs.new_Pendulum page_default = Ok p
      /\ PendulumJs.radii p = [sqrt (40 / (PI * 1.2 * 999.97))]).
Proof.
  split; [exact radii_lookup|].
  split; [exact sphere_radius|].
  split; [exact cylinder_radius|].
  split.
  - eexists. split; [reflexivity|]. cbn.
    unfold PendulumJs.radius, Math_PI, DENSITY. cbn.
    rewrite Math_pow_positive by (apply sphere_argument_positive; lra).
    reflexivity.
  - eexists. split; [reflexivity|]. reflexivity.
Qed.

(* ================================================================== *)
(** ** Energy *)

(** [getTotalEnergy] of [js/pendulum.js] cannot get past its first link:
    the array that [getEnergy] returns has no [kinetic]. *)
Lemma getTotalEnergy_throws (p : PendulumJs.Pendulum) (values : list R) :
  PendulumJs.getEnergy p = Ok values ->
  (1 <= PendulumJs.dimension p)%nat ->
  PendulumJs.getTotalEnergy p = Throw TypeError.
Proof.
  intros He Hd. unfold PendulumJs.getTotalEnergy. rewrite He.
  destruct (PendulumJs.dimension p) as [|n]; [lia|]. reflexivity.
Qed.

(** C5 at its failing input.  Whenever [getEnergy] returns and there is a
    link, [getTotalEnergy] of [js/pendulum.js] throws a [TypeError]; so on
    the pendulum the page starts with, where [getEnergy] returns its four
    numbers.  The earlier variant, on its own single pendulum, returns the
    sum of the kinetic and the potential energy. *)
Theorem getTotalEnergy_type_error :
  (forall (p : PendulumJs.Pendulum) (values : list R),
      PendulumJs.getEnergy p = Ok values ->
      (1 <= PendulumJs.dimension p)%nat ->
      PendulumJs.getTotalEnergy p = Throw TypeError)
  /\ (exists p values,
      PendulumJs.new_Pendulum page_default = Ok p
      /\ PendulumJs.getEnergy p = Ok values
      /\ length values = 4%nat
      /\ PendulumJs.getTotalEnergy p = Throw TypeError)
  /\ (exists p t u,
      Earlier.new_Pendulum single_point_mass_earlier = Ok p
      /\ Earlier.getEnergy p = Ok ([t], [u])
      /\ Earlier.getTotalEnergy p = Ok (0 + (t + u))).
Proof.
  split; [exact getTotalEnergy_throws|]. split.
  - eexists. eexists. split; [reflexivity|].
    split; [reflexivity|]. split; reflexivity.
  - eexists. eexists. eexists. split; [reflexivity|].
    split; reflexivity.
Qed.

(** What [getEnergy] returns for two point masses, value by value: the
    kinetic and the potential energy of the first link, then those of the
    second, then the total. *)
Lemma getEnergy_two_point_masses (l1 l2 m1 m2 t1 t2 w1 w2 : R)
  (meth : integration_method) (rad : list R) (tl : option R) (tm : R) :
  let p := {| PendulumJs.lengths := [l1; l2];
              PendulumJs.masses := [m1; m2];
              PendulumJs.thetas := [t1; t2];
              PendulumJs.omegas := [w1; w2];
              PendulumJs.integration_method_of := meth;
              PendulumJs.compound := false;
              PendulumJs.dimension := 2;
              PendulumJs.radii := rad;
              PendulumJs.total_length := tl;
              PendulumJs.time := tm |} in
  let vx1 := 0 + l1 * cos t1 * w1 in
  let vy1 := 0 + l1 * sin t1 * w1 in
  let vx2 := vx1 + l2 * cos t2 * w2 in
  let vy2 := vy1 + l2 * sin t2 * w2 in
  let y1 := 0 - l1 * cos t1 in
  let y2 := y1 - l2 * cos t2 in
  let kinetic1 := 0.5 * m1 * (vx1 * vx1 + vy1 * vy1) in
  let potential1 := m1 * GRAVITY * y1 in
  let kinetic2 := 0.5 * m2 * (vx2 * vx2 + vy2 * vy2) in
  let potential2 := m2 * GRAVITY * y2 in
  PendulumJs.getEnergy p =
    Ok [kinetic1; potential1; kinetic2; potential2;
        0 + (kinetic1 + potential1) + (kinetic2 + potential2)]
  /\ PendulumJs.getEnergyNames p =
    ["Kinetic 1"; "Kinetic 2"; "Potential 1"; "Potential 2";
     "Total energy"]%string.
Proof. split; reflexivity. Qed.

Lemma double_hanging_energy :
  exists p,
    PendulumJs.new_Pendulum double_hanging = Ok p
    /\ PendulumJs.getEnergyNames p =
         ["Kinetic 1"; "Kinetic 2"; "Potential 1"; "Potential 2";
          "Total energy"]%string
    /\ PendulumJs.getEnergy p = Ok [0; -9.81; 0; -19.62; -29.43].
Proof.
  eexists. split; [reflexivity|]. split; [reflexivity|].
  etransitivity;
    [apply (getEnergy_two_point_masses 1 1 1 1 0 0 0 0)|].
  rewrite cos_0, sin_0. unfold GRAVITY.
  do 2 f_equal; [lra|]. do 3 (f_equal; [lra|]). f_equal. lra.
Qed.

(** C4 at its failing input.  On a double pendulum hanging at rest the
    names come grouped by kind and the values grouped by link: the second
    value, labelled [Kinetic 2], is the potential energy of the first link
    (-9.81 J), where the kinetic energy of the second link is 0. *)
Theorem energy_names_mislabel_values :
  exists p,
    PendulumJs.new_Pendulum double_hanging = Ok p
    /\ PendulumJs.getEnergyNames p =
         ["Kinetic 1"; "Kinetic 2"; "Potential 1"; "Potential 2";
          "Total energy"]%string
    /\ PendulumJs.getEnergy p = Ok [0; -9.81; 0; -19.62; -29.43]
    /\ PendulumJs.getEnergyNames p !! 1%nat = Some "Kinetic 2"%string
    /\ (values ← PendulumJs.getEnergy p; index values 1) = Ok (-9.81).
Proof.
  destruct double_hanging_energy as (p & Hp & Hn & He).
  exists p. rewrite Hn, He. repeat split; assumption.
Qed.

(* ================================================================== *)
(** ** Geometry and energy for any number of links *)

Lemma for_pure_invariant {A} (Inv : nat -> A -> Prop)
  (body : nat -> A -> result A) (count : nat) :
  forall (from : nat) (acc : A),
  Inv from acc ->
  (forall i a, (from <= i < from + count)%nat -> Inv i a ->
               exists a', body i a = Ok a' /\ Inv (S i) a') ->
  exists acc',
    for_pure from count body acc = Ok acc' /\ Inv (from + count)%nat acc'.
Proof.
  induction count as [|count IH]; intros from acc Hinv Hbody; simpl.
  - exists acc. rewrite Nat.add_0_r. split; [reflexivity | exact Hinv].
  - destruct (Hbody from acc) as (a' & Ha & Hinv'); [lia | exact Hinv |].
    rewrite Ha. simpl.
    destruct (IH (S from) a' Hinv') as (acc' & Hacc & Hfin).
    { intros i a Hi. apply Hbody. lia. }
    exists acc'. split; [exact Hacc|].
    replace (from + S count)%nat with (S from + count)%nat by lia.
    exact Hfin.
Qed.

Lemma joint_before_app (pos : list (R * R)) (x : R * R) (i : nat) :
  (i <= length pos)%nat ->
  joint_before (pos ++ [x]) i = joint_before pos i.
Proof.
  destruct i as [|j]; [reflexivity|]. intros Hi. simpl.
  rewrite lookup_app_l by lia. reflexivity.
Qed.

Lemma joint_before_end (pos : list (R * R)) (x : R * R) :
  joint_before (pos ++ [x]) (S (length pos)) = x.
Proof.
  simpl. rewrite lookup_app_r by lia.
  replace (length pos - length pos)%nat with 0%nat by lia. reflexivity.
Qed.

Lemma index_Some (a : list R) (i : nat) (x : R) :
  a !! i = Some x -> index a i = Ok x.
Proof. unfold index. intros ->. reflexivity. Qed.

Lemma lookup_lt_length_Some (a : list R) (i n : nat) :
  length a = n -> (i < n)%nat -> exists x, a !! i = Some x.
Proof.
  intros <- Hi. destruct (a !! i) eqn:E; [eauto|].
  apply lookup_ge_None in E. lia.
Qed.

Lemma getCartesianPositions_joints (p : PendulumJs.Pendulum) :
  wf p ->
  exists pos,
    PendulumJs.getCartesianPositions p = Ok pos
    /\ length pos = PendulumJs.dimension p
    /\ joints_of (PendulumJs.lengths p) (PendulumJs.thetas p) pos.
Proof.
  intros (Hl & _ & Ht & _).
  unfold PendulumJs.getCartesianPositions.
  set (body := fun (i : nat) '(sx, sy, pos) => _).
  destruct (for_pure_invariant
              (fun k '(sx, sy, pos) =>
                 length pos = k
                 /\ joint_before pos k = (sx, sy)
                 /\ forall i l t, (i < k)%nat ->
                      PendulumJs.lengths p !! i = Some l ->
                      PendulumJs.thetas p !! i = Some t ->
                      pos !! i = Some ((joint_before pos i).1 + l * sin t,
                                       (joint_before pos i).2 - l * cos t))
              body (PendulumJs.dimension p) 0 (0, 0, []))
    as ([[sx sy] pos] & Hrun & Hlen & _ & Hpos).
  - repeat split. intros i l t Hi. lia.
  - intros i [[sx sy] pos] Hi (Hlen & Hlast & Hpos).
    destruct (lookup_lt_length_Some _ i _ Hl) as (l & El); [lia|].
    destruct (lookup_lt_length_Some _ i _ Ht) as (t & Et); [lia|].
    eexists. split.
    { unfold body. rewrite (index_Some _ _ _ El), (index_Some _ _ _ Et).
      reflexivity. }
    split; [rewrite length_app; simpl; lia|].
    split; [rewrite <- Hlen; apply joint_before_end|].
    intros j l' t' Hj El' Et'.
    rewrite joint_before_app by lia.
    destruct (decide (j = i)) as [-> | Hne].
    + rewrite lookup_app_r by lia.
      replace (i - length pos)%nat with 0%nat by lia.
      rewrite Hlast. simpl. unfold Math_sin, Math_cos. congruence.
    + rewrite lookup_app_l by lia. apply Hpos; [lia | assumption..].
  - exists pos. rewrite Hrun. simpl. split; [reflexivity|].
    split; [exact Hlen|].
    intros i l t El Et. apply Hpos; [|assumption..].
    apply lookup_lt_Some in El. lia.
Qed.

Lemma index_pair_Some (a : list (R * R)) (i : nat) (x : R * R) :
  a !! i = Some x -> index_pair a i = Ok x.
Proof. unfold index_pair. intros ->. reflexivity. Qed.

Lemma lookup_lt_length_pair (a : list (R * R)) (i n : nat) :
  length a = n -> (i < n)%nat -> exists x, a !! i = Some x.
Proof.
  intros <- Hi. destruct (a !! i) eqn:E; [eauto|].
  apply lookup_ge_None in E. lia.
Qed.

(** X1.  On a pendulum whose arrays have [dimension] entries,
    [getCartesianPositions] returns one joint per link, and every joint lies
    at the length of its link from the joint before it (the origin for the
    first link): the chain keeps its link lengths at every angle. *)
Theorem joints_keep_link_lengths (p : PendulumJs.Pendulum) :
  wf p ->
  exists pos,
    PendulumJs.getCartesianPositions p = Ok pos
    /\ length pos = PendulumJs.dimension p
    /\ forall i l xy,
        PendulumJs.lengths p !! i = Some l ->
        pos !! i = Some xy ->
        (xy.1 - (joint_before pos i).1) * (xy.1 - (joint_before pos i).1)
        + (xy.2 - (joint_before pos i).2) * (xy.2 - (joint_before pos i).2)
        = l * l.
Proof.
  intros Hwf.
  destruct (getCartesianPositions_joints p Hwf) as (pos & Hrun & Hlen & Hj).
  exists pos. split; [exact Hrun|]. split; [exact Hlen|].
  intros i l xy El Exy.
  destruct Hwf as (Hl & _ & Ht & _).
  destruct (lookup_lt_length_Some (PendulumJs.thetas p) i _ Ht) as (t & Et).
  { apply lookup_lt_Some in El. lia. }
  rewrite (Hj i l t El Et) in Exy. injection Exy as <-. simpl.
  pose proof (sin2_cos2 t) as Hsc. unfold Rsqr in Hsc.
  replace (_ + _) with (l * l * (sin t * sin t + cos t * cos t)) by ring.
  rewrite Hsc. ring.
Qed.

Lemma getCentersOfMass_midpoints (p : PendulumJs.Pendulum) :
  wf p ->
  exists com joints,
    PendulumJs.getCentersOfMass p = Ok com
    /\ PendulumJs.getCartesianPositions p = Ok joints
    /\ length com = PendulumJs.dimension p
    /\ forall i xy,
        joints !! i = Some xy ->
        com !! i = Some (if PendulumJs.compound p
                         then midpoint (joint_before joints i) xy
                         else xy).
Proof.
  intros Hwf.
  destruct (getCartesianPositions_joints p Hwf)
    as (joints & Hrun & Hlen & Hj).
  unfold PendulumJs.getCentersOfMass.
  destruct (PendulumJs.compound p) eqn:Hc; simpl.
  2: { exists joints, joints. repeat split; auto. }
  destruct Hwf as (Hl & _ & Ht & _).
  set (body := fun (i : nat) '(sx, sy, pos) => _).
  destruct (for_pure_invariant
              (fun k '(sx, sy, com) =>
                 length com = k
                 /\ joint_before joints k = (sx, sy)
                 /\ forall i xy, (i < k)%nat ->
                      joints !! i = Some xy ->
                      com !! i = Some (midpoint (joint_before joints i) xy))
              body (PendulumJs.dimension p) 0 (0, 0, []))
    as ([[sx sy] com] & Hcom & Hclen & _ & Hmid).
  - repeat split. intros i xy Hi. lia.
  - intros i [[sx sy] com] Hi (Hclen & Hlast & Hmid).
    destruct (lookup_lt_length_Some _ i _ Hl) as (l & El); [lia|].
    destruct (lookup_lt_length_Some _ i _ Ht) as (t & Et); [lia|].
    pose proof (Hj i l t El Et) as Hji. rewrite Hlast in Hji. simpl in Hji.
    eexists. split.
    { unfold body. rewrite (index_Some _ _ _ El), (index_Some _ _ _ Et).
      reflexivity. }
    split; [rewrite length_app; simpl; lia|].
    split.
    { simpl. rewrite Hji. simpl. unfold Math_sin, Math_cos.
      f_equal; lra. }
    intros j xy Hj' Exy.
    destruct (decide (j = i)) as [-> | Hne].
    + rewrite lookup_app_r by lia.
      replace (i - length com)%nat with 0%nat by lia.
      rewrite Hji in Exy. injection Exy as <-.
      rewrite Hlast. unfold midpoint, Math_sin, Math_cos. simpl.
      do 2 f_equal; lra.
    + rewrite lookup_app_l by lia. apply Hmid; [lia | assumption].
  - exists com, joints. rewrite Hcom. simpl.
    split; [reflexivity|]. split; [exact Hrun|]. split; [exact Hclen|].
    intros i xy Exy. apply Hmid; [|exact Exy].
    apply lookup_lt_Some in Exy. lia.
Qed.

Lemma getCartesianVelocities_relative (p : PendulumJs.Pendulum) :
  wf p ->
  exists vel,
    PendulumJs.getCartesianVelocities p = Ok vel
    /\ length vel = PendulumJs.dimension p
    /\ (PendulumJs.compound p = false ->
        forall i l t w,
          PendulumJs.lengths p !! i = Some l ->
          PendulumJs.thetas p !! i = Some t ->
          PendulumJs.omegas p !! i = Some w ->
          vel !! i = Some ((joint_before vel i).1 + l * cos t * w,
                           (joint_before vel i).2 + l * sin t * w)).
Proof.
  intros (Hl & _ & Ht & Hw).
  unfold PendulumJs.getCartesianVelocities.
  set (body := fun (i : nat) '(vx, vy, vel) => _).
  destruct (for_pure_invariant
              (fun k '(vx, vy, vel) =>
                 length vel = k
                 /\ (PendulumJs.compound p = false ->
                     joint_before vel k = (vx, vy)
                     /\ forall i l t w, (i < k)%nat ->
                          PendulumJs.lengths p !! i = Some l ->
                          PendulumJs.thetas p !! i = Some t ->
                          PendulumJs.omegas p !! i = Some w ->
                          vel !! i =
                            Some ((joint_before vel i).1 + l * cos t * w,
                                  (joint_before vel i).2 + l * sin t * w)))
              body (PendulumJs.dimension p) 0 (0, 0, []))
    as ([[vx vy] vel] & Hrun & Hlen & Hvel).
  - split; [reflexivity|]. intros _. split; [reflexivity|].
    intros i l t w Hi. lia.
  - intros i [[vx vy] vel] Hi (Hlen & Hvel).
    destruct (lookup_lt_length_Some _ i _ Hl) as (l & El); [lia|].
    destruct (lookup_lt_length_Some _ i _ Ht) as (t & Et); [lia|].
    destruct (lookup_lt_length_Some _ i _ Hw) as (w & Ew); [lia|].
    unfold body.
    rewrite (index_Some _ _ _ El), (index_Some _ _ _ Et),
      (index_Some _ _ _ Ew). simpl.
    destruct (PendulumJs.compound p) eqn:Hc.
    + eexists. split; [reflexivity|].
      split; [rewrite length_app; simpl; lia | discriminate].
    + eexists. split; [reflexivity|].
      split; [rewrite length_app; simpl; lia|]. intros _.
      destruct (Hvel eq_refl) as (Hlast & Hrel).
      split; [rewrite <- Hlen; apply joint_before_end|].
      intros j l' t' w' Hj El' Et' Ew'.
      rewrite joint_before_app by lia.
      destruct (decide (j = i)) as [-> | Hne].
      * rewrite lookup_app_r by lia.
        replace (i - length vel)%nat with 0%nat by lia.
        rewrite Hlast. simpl. unfold Math_sin, Math_cos. congruence.
      * rewrite lookup_app_l by lia.
        apply Hrel; [lia | assumption..].
  - exists vel. rewrite Hrun. simpl. split; [reflexivity|].
    split; [exact Hlen|]. intros Hc i l t w El Et Ew.
    destruct (Hvel Hc) as (_ & Hrel). apply Hrel; [|assumption..].
    apply lookup_lt_Some in El. lia.
Qed.

Lemma Rsum_app (l k : list R) : Rsum (l ++ k) = Rsum l + Rsum k.
Proof.
  unfold Rsum. induction l as [|x l IH]; simpl; [lra|]. rewrite IH. lra.
Qed.

Lemma fold_left_push {A B} (f : A -> B) (range : list A) (names : list B) :
  fold_left (fun names i => names ++ [f i]) range names
  = names ++ map f range.
Proof.
  revert names. induction range as [|i range IH]; intros names; simpl.
  - rewrite app_nil_r. reflexivity.
  - rewrite IH, <- app_assoc. reflexivity.
Qed.

Lemma getEnergyNames_groups (p : PendulumJs.Pendulum) :
  let range := seq 0 (PendulumJs.dimension p) in
  PendulumJs.getEnergyNames p =
    map (PendulumJs.label "Kinetic ") range
    ++ map (PendulumJs.label "Potential ") range
    ++ (if PendulumJs.compound p
        then map (PendulumJs.label "Angular ") range else [])
    ++ ["Total energy"%string].
Proof.
  unfold PendulumJs.getEnergyNames. simpl.
  destruct (PendulumJs.compound p); rewrite !fold_left_push; simpl;
    rewrite <- ?app_assoc; reflexivity.
Qed.

Lemma getEnergyNames_length (p : PendulumJs.Pendulum) :
  length (PendulumJs.getEnergyNames p) =
    (components_per_link (PendulumJs.compound p) * PendulumJs.dimension p
     + 1)%nat.
Proof.
  rewrite getEnergyNames_groups. unfold components_per_link.
  destruct (PendulumJs.compound p);
    rewrite !length_app, !length_map, ?length_seq; simpl; lia.
Qed.

Lemma getEnergy_layout (p : PendulumJs.Pendulum) :
  wf p ->
  exists pos vel components total,
    PendulumJs.getCentersOfMass p = Ok pos
    /\ PendulumJs.getCartesianVelocities p = Ok vel
    /\ PendulumJs.getEnergy p = Ok (components ++ [total])
    /\ length components =
         (components_per_link (PendulumJs.compound p)
          * PendulumJs.dimension p)%nat
    /\ total = Rsum components
    /\ forall i m l w v xy,
        PendulumJs.masses p !! i = Some m ->
        PendulumJs.lengths p !! i = Some l ->
        PendulumJs.omegas p !! i = Some w ->
        vel !! i = Some v ->
        pos !! i = Some xy ->
        let c := components_per_link (PendulumJs.compound p) in
        components !! (c * i)%nat
          = Some (0.5 * m * (v.1 * v.1 + v.2 * v.2))
        /\ components !! (c * i + 1)%nat = Some (m * GRAVITY * xy.2)
        /\ (PendulumJs.compound p = true ->
            components !! (c * i + 2)%nat
              = Some (1 / 24 * m * l * l * w * w)).
Proof.
  intros Hwf.
  destruct (getCentersOfMass_midpoints p Hwf)
    as (pos & _ & Hpos & _ & Hplen & _).
  destruct (getCartesianVelocities_relative p Hwf) as (vel & Hvel & Hvlen & _).
  destruct Hwf as (Hl & Hm & Ht & Hw).
  exists pos, vel.
  unfold PendulumJs.getEnergy. rewrite Hpos, Hvel. simpl.
  set (body := fun (i : nat) '(total, energy) => _).
  set (c := components_per_link (PendulumJs.compound p)).
  destruct (for_pure_invariant
              (fun k '(total, energy) =>
                 length energy = (c * k)%nat
                 /\ total = Rsum energy
                 /\ forall i m l w v xy, (i < k)%nat ->
                      PendulumJs.masses p !! i = Some m ->
                      PendulumJs.lengths p !! i = Some l ->
                      PendulumJs.omegas p !! i = Some w ->
                      vel !! i = Some v ->
                      pos !! i = Some xy ->
                      energy !! (c * i)%nat
                        = Some (0.5 * m * (v.1 * v.1 + v.2 * v.2))
                      /\ energy !! (c * i + 1)%nat
                         = Some (m * GRAVITY * xy.2)
                      /\ (PendulumJs.compound p = true ->
                          energy !! (c * i + 2)%nat
                            = Some (1 / 24 * m * l * l * w * w)))
              body (PendulumJs.dimension p) 0 (0, []))
    as ([total energy] & Hrun & Hlen & Hsum & Hlay).
  - split; [simpl; lia|]. split; [reflexivity|].
    intros i m l w v xy Hi. lia.
  - intros i [total energy] Hi (Hlen & Hsum & Hlay).
    destruct (lookup_lt_length_Some _ i _ Hm) as (m & Em); [lia|].
    destruct (lookup_lt_length_Some _ i _ Hl) as (l & El); [lia|].
    destruct (lookup_lt_length_Some _ i _ Hw) as (w & Ew); [lia|].
    destruct (lookup_lt_length_pair _ i _ Hplen) as (xy & Exy); [lia|].
    destruct (lookup_lt_length_pair _ i _ Hvlen) as (v & Ev); [lia|].
    unfold body.
    rewrite (index_Some _ _ _ Em), (index_pair_Some _ _ _ Ev),
      (index_pair_Some _ _ _ Exy). simpl.
    unfold c, components_per_link in *.
    destruct (PendulumJs.compound p).
    + rewrite (index_Some _ _ _ El), (index_Some _ _ _ Ew). simpl.
      eexists. split; [reflexivity|]. cbv beta iota.
      rewrite <- !app_assoc. simpl.
      rewrite !length_app, !Rsum_app. simpl.
      split; [lia|]. split; [lra|].
      intros j m' l' w' v' xy' Hj Em' El' Ew' Ev' Exy'.
      destruct (decide (j = i)) as [-> | Hne].
      * change (i + (i + (i + 0)))%nat with (3 * i)%nat.
        rewrite !lookup_app_r by lia.
        replace (3 * i - length energy)%nat with 0%nat by lia.
        replace (3 * i + 1 - length energy)%nat with 1%nat by lia.
        replace (3 * i + 2 - length energy)%nat with 2%nat by lia.
        simpl. repeat split; congruence.
      * rewrite !lookup_app_l by lia.
        apply (Hlay j m' l' w' v' xy'); [lia | assumption..].
    + eexists. split; [reflexivity|]. cbv beta iota.
      rewrite <- !app_assoc. simpl.
      rewrite !length_app, !Rsum_app. simpl.
      split; [lia|]. split; [lra|].
      intros j m' l' w' v' xy' Hj Em' El' Ew' Ev' Exy'.
      destruct (decide (j = i)) as [-> | Hne].
      * change (i + (i + 0))%nat with (2 * i)%nat.
        rewrite !lookup_app_r by lia.
        replace (2 * i - length energy)%nat with 0%nat by lia.
        replace (2 * i + 1 - length energy)%nat with 1%nat by lia.
        simpl. repeat split; try congruence.
      * rewrite !lookup_app_l by lia.
        destruct (Hlay j m' l' w' v' xy') as (H1 & H2 & _);
          [lia | assumption.. |].
        repeat split; [exact H1 | exact H2 | discriminate].
  - exists energy, total. rewrite Hrun. simpl.
    split; [reflexivity|]. split; [reflexivity|]. split; [reflexivity|].
    split; [exact Hlen|]. split; [exact Hsum|].
    intros i m l w v xy Em El Ew Ev Exy.
    apply (Hlay i m l w v xy); [|assumption..].
    apply lookup_lt_Some in Em. lia.
Qed.

(** X2.  [getCentersOfMass] returns one point per link: for compound links
    the midpoint between the two joints of the link as
    [getCartesianPositions] gives them, for point masses the joint at the
    tip. *)
Theorem centres_of_mass_are_midpoints (p : PendulumJs.Pendulum) :
  wf p ->
  exists com joints,
    PendulumJs.getCentersOfMass p = Ok com
    /\ PendulumJs.getCartesianPositions p = Ok joints
    /\ length com = PendulumJs.dimension p
    /\ length joints = PendulumJs.dimension p
    /\ forall i xy,
        joints !! i = Some xy ->
        com !! i = Some (if PendulumJs.compound p
                         then midpoint (joint_before joints i) xy
                         else xy).
Proof.
  intros Hwf.
  destruct (getCentersOfMass_midpoints p Hwf)
    as (com & joints & Hcom & Hj & Hclen & Hmid).
  destruct (getCartesianPositions_joints p Hwf) as (joints' & Hj' & Hjlen & _).
  exists com, joints. rewrite Hj in Hj'. injection Hj' as <-. auto.
Qed.

(** X3.  For point masses [getCartesianVelocities] returns one velocity per
    link, and the velocity of a bulb relative to the bulb before it (to the
    fixed pivot for the first) has the magnitude [length * omega] of that
    link. *)
Theorem point_mass_relative_speed (p : PendulumJs.Pendulum) :
  wf p ->
  PendulumJs.compound p = false ->
  exists vel,
    PendulumJs.getCartesianVelocities p = Ok vel
    /\ length vel = PendulumJs.dimension p
    /\ forall i l w v,
        PendulumJs.lengths p !! i = Some l ->
        PendulumJs.omegas p !! i = Some w ->
        vel !! i = Some v ->
        (v.1 - (joint_before vel i).1) * (v.1 - (joint_before vel i).1)
        + (v.2 - (joint_before vel i).2) * (v.2 - (joint_before vel i).2)
        = (l * w) * (l * w).
Proof.
  intros Hwf Hc.
  destruct (getCartesianVelocities_relative p Hwf) as (vel & Hrun & Hlen & Hv).
  exists vel. split; [exact Hrun|]. split; [exact Hlen|].
  intros i l w v El Ew Ev.
  destruct Hwf as (Hl & _ & Ht & _).
  destruct (lookup_lt_length_Some (PendulumJs.thetas p) i _ Ht) as (t & Et).
  { apply lookup_lt_Some in El. lia. }
  rewrite (Hv Hc i l t w El Et Ew) in Ev. injection Ev as <-. simpl.
  pose proof (sin2_cos2 t) as Hsc. unfold Rsqr in Hsc.
  replace (_ + _) with (l * w * (l * w) * (sin t * sin t + cos t * cos t))
    by ring.
  rewrite Hsc. ring.
Qed.

(** X4.  [getEnergyNames] lists the names by kind: ['Kinetic ' + (i+1)] at
    index [i], ['Potential ' + (i+1)] at [dimension + i], for compound links
    ['Angular ' + (i+1)] at [2 * dimension + i], and ['Total energy'] last;
    two or three names per link and one more. *)
Theorem energy_names_by_kind (p : PendulumJs.Pendulum) (i : nat) :
  (i < PendulumJs.dimension p)%nat ->
  let n := PendulumJs.dimension p in
  let names := PendulumJs.getEnergyNames p in
  names !! i = Some ("Kinetic " +:+ pretty (i + 1)%nat)
  /\ names !! (n + i)%nat = Some ("Potential " +:+ pretty (i + 1)%nat)
  /\ (PendulumJs.compound p = true ->
      names !! (2 * n + i)%nat = Some ("Angular " +:+ pretty (i + 1)%nat))
  /\ last names = Some "Total energy"%string
  /\ length names =
       (components_per_link (PendulumJs.compound p) * n + 1)%nat.
Proof.
  intros Hi n names.
  assert (Hseq : forall kind,
             map (PendulumJs.label kind) (seq 0 n) !! i
             = Some (kind +:+ pretty (i + 1)%nat)).
  { intros kind. rewrite list_lookup_fmap, lookup_seq_lt by exact Hi.
    reflexivity. }
  assert (Hlen : forall kind,
             length (map (PendulumJs.label kind) (seq 0 n)) = n).
  { intros kind. rewrite length_map, length_seq. reflexivity. }
  subst names. split; [|split; [|split; [|split]]].
  - rewrite getEnergyNames_groups. cbv zeta. fold n.
    rewrite lookup_app_l by (rewrite Hlen; exact Hi). apply Hseq.
  - rewrite getEnergyNames_groups. cbv zeta. fold n.
    rewrite lookup_app_r by (rewrite Hlen; lia). rewrite Hlen.
    replace (n + i - n)%nat with i by lia.
    rewrite lookup_app_l by (rewrite Hlen; exact Hi). apply Hseq.
  - intros Hc. rewrite getEnergyNames_groups, Hc. cbv zeta. fold n.
    rewrite lookup_app_r by (rewrite Hlen; lia). rewrite Hlen.
    rewrite lookup_app_r by (rewrite Hlen; lia). rewrite Hlen.
    replace (2 * n + i - n - n)%nat with i by lia.
    rewrite lookup_app_l by (rewrite Hlen; exact Hi). apply Hseq.
  - rewrite getEnergyNames_groups. cbv zeta.
    rewrite !app_assoc. apply last_snoc.
  - apply getEnergyNames_length.
Qed.

(** X5.  [getEnergy] lists the values by link, for any number of links: with
    [c] components per link (2, or 3 for compound links), index [c * i]
    holds the kinetic energy [0.5 m |v|^2] of link [i], index [c * i + 1]
    its potential energy [m g y], and for compound links index [c * i + 2]
    its rotational energy [(1/24) m l^2 omega^2]. *)
Theorem energy_components_per_link (p : PendulumJs.Pendulum) :
  wf p ->
  exists pos vel components total,
    PendulumJs.getCentersOfMass p = Ok pos
    /\ PendulumJs.getCartesianVelocities p = Ok vel
    /\ PendulumJs.getEnergy p = Ok (components ++ [total])
    /\ forall i m l w v xy,
        PendulumJs.masses p !! i = Some m ->
        PendulumJs.lengths p !! i = Some l ->
        PendulumJs.omegas p !! i = Some w ->
        vel !! i = Some v ->
        pos !! i = Some xy ->
        let c := components_per_link (PendulumJs.compound p) in
        components !! (c * i)%nat
          = Some (0.5 * m * (v.1 * v.1 + v.2 * v.2))
        /\ components !! (c * i + 1)%nat = Some (m * GRAVITY * xy.2)
        /\ (PendulumJs.compound p = true ->
            components !! (c * i + 2)%nat
              = Some (1 / 24 * m * l * l * w * w)).
Proof.
  intros Hwf.
  destruct (getEnergy_layout p Hwf)
    as (pos & vel & components & total & H1 & H2 & H3 & _ & _ & H4).
  exists pos, vel, components, total. auto.
Qed.

(** X6.  The last value of [getEnergy] is the sum of all the values before
    it, and [getEnergy] returns as many values as [getEnergyNames] returns
    names. *)
Theorem energy_total_is_sum (p : PendulumJs.Pendulum) :
  wf p ->
  exists components total,
    PendulumJs.getEnergy p = Ok (components ++ [total])
    /\ total = Rsum components
    /\ length (components ++ [total])
       = length (PendulumJs.getEnergyNames p).
Proof.
  intros Hwf.
  destruct (getEnergy_layout p Hwf)
    as (pos & vel & components & total & _ & _ & H3 & Hlen & Hsum & _).
  exists components, total. split; [exact H3|]. split; [exact Hsum|].
  rewrite getEnergyNames_length, length_app, Hlen. reflexivity.
Qed.

Lemma one_half : 0.5 = 1 / 2.
Proof. lra. Qed.

(** A well-formed pendulum of one link, spelled out with its link. *)
Ltac single_link p :=
  let Hd := fresh "Hd" in
  intros (? & ? & ? & ?) Hd;
  destruct p as [ls ms ths oms meth cmp dim rad tl tm];
  simpl in *; subst; list_shapes; simpl;
  intros [= ->] [= ->] [= ->] [= ->].

(** X7.  The energy of a single pendulum in closed form.  Point mass:
    kinetic [1/2 m (l omega)^2], potential [- m g l cos theta].  Compound
    link: kinetic plus rotational [1/6 m (l omega)^2] (a rod turning about
    its end), potential [- m g (l/2) cos theta]. *)
Theorem single_pendulum_energy (p : PendulumJs.Pendulum) (l m t w : R) :
  wf p ->
  PendulumJs.dimension p = 1%nat ->
  PendulumJs.lengths p !! 0%nat = Some l ->
  PendulumJs.masses p !! 0%nat = Some m ->
  PendulumJs.thetas p !! 0%nat = Some t ->
  PendulumJs.omegas p !! 0%nat = Some w ->
  if PendulumJs.compound p then
    exists T U A,
      PendulumJs.getEnergy p = Ok [T; U; A; 0 + (T + U) + A]
      /\ T + A = 1 / 6 * m * (l * w) ^ 2
      /\ U = - (m * GRAVITY * (l / 2) * cos t)
  else
    exists T U,
      PendulumJs.getEnergy p = Ok [T; U; 0 + (T + U)]
      /\ T = 1 / 2 * m * (l * w) ^ 2
      /\ U = - (m * GRAVITY * l * cos t).
Proof.
  single_link p. destruct cmp.
  - eexists. eexists. eexists. split; [reflexivity|].
    unfold Math_sin, Math_cos. simpl.
    pose proof (sin2_cos2 t) as Hsc. unfold Rsqr in Hsc.
    split; [|lra].
    transitivity
      (1 / 8 * m * (l * w) ^ 2 * (sin t * sin t + cos t * cos t)
       + 1 / 24 * m * (l * w) ^ 2); [rewrite one_half; field|].
    rewrite Hsc. field.
  - eexists. eexists. split; [reflexivity|].
    unfold Math_sin, Math_cos. simpl.
    pose proof (sin2_cos2 t) as Hsc. unfold Rsqr in Hsc.
    split; [|lra].
    transitivity
      (1 / 2 * m * (l * w) ^ 2 * (sin t * sin t + cos t * cos t));
      [rewrite one_half; field|].
    rewrite Hsc. field.
Qed.

Section Physics.
Context `{Numeric}.

(** X8.  The acceleration [computeAlphas] returns for a single pendulum of
    nonzero length satisfies the rotational equation of motion
    [I alpha = - m g d sin theta]: with [I = m l^2] and [d = l] for a point
    mass, with [I = m l^2 / 3] and [d = l / 2] for a compound link. *)
Theorem single_pendulum_equation_of_motion (p : PendulumJs.Pendulum)
  (om : list R) (tq : torques_arg) (l m t w : R) :
  wf p ->
  PendulumJs.dimension p = 1%nat ->
  PendulumJs.lengths p !! 0%nat = Some l ->
  PendulumJs.masses p !! 0%nat = Some m ->
  PendulumJs.thetas p !! 0%nat = Some t ->
  PendulumJs.omegas p !! 0%nat = Some w ->
  l <> 0 ->
  exists alpha,
    PendulumJs.computeAlphas (PendulumJs.thetas p) om tq p = Ok [alpha]
    /\ (if PendulumJs.compound p
        then 1 / 3 * m * l ^ 2 * alpha = - (m * GRAVITY * (l / 2) * sin t)
        else m * l ^ 2 * alpha = - (m * GRAVITY * l * sin t)).
Proof.
  single_link p. intros Hl.
  unfold PendulumJs.computeAlphas. simpl. unfold Math_sin.
  destruct cmp; eexists; (split; [reflexivity|]); field; exact Hl.
Qed.

(** X9.  For two links of positive lengths and masses the system that
    [computeAlphas] hands to [numeric.solve] has a 2x2 matrix of positive
    determinant, for point masses and for compound links: it is never
    singular. *)
Theorem double_pendulum_system_regular (p : PendulumJs.Pendulum)
  (th om : list R) (tq : torques_arg) (l1 l2 m1 m2 : R) :
  PendulumJs.dimension p = 2%nat ->
  PendulumJs.lengths p = [l1; l2] ->
  PendulumJs.masses p = [m1; m2] ->
  length th = 2%nat ->
  length om = 2%nat ->
  0 < l1 -> 0 < l2 -> 0 < m1 -> 0 < m2 ->
  exists a00 a01 a10 a11 b,
    PendulumJs.computeAlphas th om tq p
      = Ok (numeric_solve [[a00; a01]; [a10; a11]] b)
    /\ length b = 2%nat
    /\ 0 < a00 * a11 - a01 * a10.
Proof.
  intros Hd Hl Hm Hth Hom Hl1 Hl2 Hm1 Hm2.
  destruct th as [|t1 [|t2 [|]]]; try discriminate.
  destruct om as [|w1 [|w2 [|]]]; try discriminate.
  unfold PendulumJs.computeAlphas. rewrite Hd, Hl, Hm. simpl.
  pose proof (COS_bound (t1 - t2)) as [Hc1 Hc2].
  assert (Hc : cos (t1 - t2) * cos (t1 - t2) <= 1) by nra.
  assert (Hp : 0 < m2 * l1 * l2)
    by (apply Rmult_lt_0_compat; [apply Rmult_lt_0_compat|]; assumption).
  destruct (PendulumJs.compound p); do 5 eexists;
    (split; [reflexivity|]); (split; [reflexivity|]); unfold Math_cos.
  - replace (_ - _) with
      (m2 * l1 * l2
       * (m1 / 9 + m2 / 3 - m2 / 4 * (cos (t1 - t2) * cos (t1 - t2))))
      by (rewrite one_half; field).
    apply Rmult_lt_0_compat; [exact Hp | nra].
  - replace (_ - _) with
      (m2 * l1 * l2
       * (m1 + m2 * (1 - cos (t1 - t2) * cos (t1 - t2))))
      by ring.
    apply Rmult_lt_0_compat; [exact Hp | nra].
Qed.

End Physics.

(** The array that [numeric.solve] returns for two right-hand sides. *)
Ltac solver_shape :=
  match goal with
  | |- context [numeric_solve ?A ?b] =>
      let L := fresh "L" in
      pose proof (numeric_solve_length A b) as L;
      destruct (numeric_solve A b) as [|? [|? [|? ?]]]; simpl in L;
      try discriminate L; clear L
  end.

(** The same, remembering what the solver returned. *)
Ltac solver_shape_eq :=
  match goal with
  | E : numeric_solve ?A ?b = _ |- context [numeric_solve ?A ?b] =>
      rewrite E
  | |- context [numeric_solve ?A ?b] =>
      let L := fresh "L" in
      let E := fresh "E" in
      pose proof (numeric_solve_length A b) as L;
      destruct (numeric_solve A b) as [|? [|? [|? ?]]] eqn:E; simpl in L;
      try discriminate L; clear L
  end.

Section MoreSteps.
Context `{Numeric}.

Ltac run_takeStep :=
  unfold PendulumJs.takeStep, PendulumJs.alphas_here,
    PendulumJs.computeAlphas, Earlier.takeStep, Earlier.takeStep_passing,
    Earlier.alphas_here, Earlier.computeAlphas, call, st_bind;
  cbn; repeat (solver_shape; cbn).

Lemma supported_if_alphas (p : PendulumJs.Pendulum) (th om alphas : list R)
  (tq : torques_arg) :
  PendulumJs.computeAlphas th om tq p = Ok alphas -> supported p.
Proof.
  unfold PendulumJs.computeAlphas, supported.
  destruct (Nat.eqb_spec (PendulumJs.dimension p) 1); [tauto|].
  destruct (Nat.eqb_spec (PendulumJs.dimension p) 2); [tauto|].
  discriminate.
Qed.

(** X10.  A forward Euler step evaluates the accelerations at the state it
    starts from, then gives every link the angle [theta + omega * dt] from
    its old velocity and the velocity [omega + alpha * dt]. *)
Theorem forward_euler_step (p : PendulumJs.Pendulum) (dt : R)
  (tq : torques_arg) (alphas : list R) :
  wf p ->
  PendulumJs.integration_method_of p = FORWARD_EULER ->
  PendulumJs.computeAlphas (PendulumJs.thetas p) (PendulumJs.omegas p) tq p
    = Ok alphas ->
  exists p',
    PendulumJs.takeStep dt tq p = (Ok tt, p')
    /\ PendulumJs.thetas p' =
         forward_euler_thetas dt (PendulumJs.thetas p) (PendulumJs.omegas p)
    /\ PendulumJs.omegas p' =
         semi_implicit_omegas dt (PendulumJs.omegas p) alphas
    /\ PendulumJs.time p' = PendulumJs.time p + dt.
Proof.
  intros Hwf Hm Ha. pose proof (supported_if_alphas _ _ _ _ _ Ha) as Hs.
  revert Hwf Hs Hm Ha. pendulum_shapes p; intros -> Ha;
    unfold PendulumJs.computeAlphas in Ha; cbn in Ha;
    destruct cmp; injection Ha as <-; run_takeStep;
    eexists; (split; [reflexivity|]); repeat split.
Qed.

(** X11.  A Runge-Kutta step is the classical four-stage scheme: the
    accelerations are evaluated at the starting state and at the three
    stage states [(theta + h omega_k, omega + h alpha_k)] with [h = dt/2],
    [dt/2], [dt], built from the starting state each time, and the angles
    and velocities move by [dt/6 (k1 + 2 k2 + 2 k3 + k4)]. *)
Theorem runge_kutta_step (p : PendulumJs.Pendulum) (dt : R)
  (tq : torques_arg) (a1 a2 a3 a4 : list R) :
  wf p ->
  PendulumJs.integration_method_of p = RUNGE_KUTTA ->
  let th := PendulumJs.thetas p in
  let w1 := PendulumJs.omegas p in
  let w2 := axpy (dt / 2) w1 a1 in
  let w3 := axpy (dt / 2) w1 a2 in
  let w4 := axpy dt w1 a3 in
  PendulumJs.computeAlphas th w1 tq p = Ok a1 ->
  PendulumJs.computeAlphas (axpy (dt / 2) th w1) w2 tq p = Ok a2 ->
  PendulumJs.computeAlphas (axpy (dt / 2) th w2) w3 tq p = Ok a3 ->
  PendulumJs.computeAlphas (axpy dt th w3) w4 tq p = Ok a4 ->
  exists p',
    PendulumJs.takeStep dt tq p = (Ok tt, p')
    /\ PendulumJs.thetas p' = rk4_update dt th w1 w2 w3 w4
    /\ PendulumJs.omegas p' = rk4_update dt w1 a1 a2 a3 a4
    /\ PendulumJs.time p' = PendulumJs.time p + dt.
Proof.
  intros Hwf Hm th w1 w2 w3 w4 Ha1.
  pose proof (supported_if_alphas _ _ _ _ _ Ha1) as Hs.
  subst th w1 w2 w3 w4.
  revert Hwf Hs Hm Ha1. pendulum_shapes p; intros -> Ha1;
    unfold PendulumJs.computeAlphas in Ha1; cbn in Ha1;
    destruct cmp; injection Ha1 as <-.
  all: unfold PendulumJs.computeAlphas; cbn;
    repeat (solver_shape_eq; cbn); intros [= <-].
  all: cbn; repeat (solver_shape_eq; cbn); intros [= <-].
  all: cbn; repeat (solver_shape_eq; cbn); intros [= <-].
  all: unfold PendulumJs.takeStep, PendulumJs.alphas_here,
         PendulumJs.computeAlphas, call, st_bind;
       cbn; repeat (solver_shape_eq; cbn).
  all: eexists; (split; [reflexivity|]); repeat split.
Qed.

End MoreSteps.

Section Preserves.
Context {S : Type} (I : S -> Prop).

Lemma preserves_ret {A} (a : A) : preserves I (st_ret a).
Proof. intros s Hs. exact Hs. Qed.

Lemma preserves_gets {A} (f : S -> A) : preserves I (gets f).
Proof. intros s Hs. exact Hs. Qed.

Lemma preserves_modify (f : S -> S) :
  (forall s, I s -> I (f s)) -> preserves I (modify f).
Proof. intros Hf s Hs. apply Hf, Hs. Qed.

Lemma preserves_lift {A} (r : result A) : preserves I (lift r).
Proof. intros s Hs. exact Hs. Qed.

Lemma preserves_call {A} (f : S -> result A) : preserves I (call f).
Proof. intros s Hs. exact Hs. Qed.

Lemma preserves_bind {A B} (m : stateful S A) (k : A -> stateful S B) :
  preserves I m -> (forall a, preserves I (k a)) -> preserves I (st_bind m k).
Proof.
  intros Hm Hk s Hs. unfold st_bind. specialize (Hm s Hs).
  destruct (m s) as [[a | e |] s']; simpl in *; [apply Hk|..]; exact Hm.
Qed.

Lemma preserves_for_loop {A} (body : nat -> A -> stateful S A) :
  (forall i acc, preserves I (body i acc)) ->
  forall count from acc, preserves I (for_loop from count body acc).
Proof.
  intros Hbody. induction count as [|count IH]; intros from acc; simpl.
  - apply preserves_ret.
  - apply preserves_bind; [apply Hbody | intros a; apply IH].
Qed.

End Preserves.

Lemma same_frame_refl (p : PendulumJs.Pendulum) : same_frame p p.
Proof. repeat split. Qed.

Lemma same_frame_set_thetas (p q : PendulumJs.Pendulum) (i : nat) (v : R) :
  same_frame p q ->
  same_frame p (PendulumJs.set_thetas (<[i := v]> (PendulumJs.thetas q)) q).
Proof.
  unfold same_frame. simpl. rewrite length_insert. tauto.
Qed.

Lemma same_frame_set_omegas (p q : PendulumJs.Pendulum) (i : nat) (v : R) :
  same_frame p q ->
  same_frame p (PendulumJs.set_omegas (<[i := v]> (PendulumJs.omegas q)) q).
Proof.
  unfold same_frame. simpl. rewrite length_insert. tauto.
Qed.

Section Frame.
Context `{Numeric}.

Ltac preserves_step :=
  first
    [ apply preserves_ret
    | apply preserves_gets
    | apply preserves_lift
    | apply preserves_call
    | apply preserves_modify; intros ? ?;
      first [apply same_frame_set_thetas | apply same_frame_set_omegas];
      assumption
    | apply preserves_for_loop; intros ? ?
    | apply preserves_bind; [|intros ?]
    | match goal with
      | |- preserves _ (let '(_, _) := ?x in _) => destruct x
      | |- preserves _ (match ?x with FORWARD_EULER => _ | _ => _ end) =>
          destruct x
      end ].

Lemma takeStep_frame (p : PendulumJs.Pendulum) (dt : R) (tq : torques_arg) :
  same_frame (PendulumJs.set_time (PendulumJs.time p + dt) p)
    (PendulumJs.takeStep dt tq p).2.
Proof.
  unfold PendulumJs.takeStep.
  match goal with
  | |- same_frame ?q ((st_bind (modify ?f) ?k ?s).2) =>
      change (same_frame q (k tt (f s)).2);
      assert (Hk : preserves (same_frame q) (k tt))
  end.
  { unfold PendulumJs.alphas_here, PendulumJs.this_thetas,
      PendulumJs.this_omegas, PendulumJs.write_theta, PendulumJs.write_omega.
    repeat preserves_step. }
  apply Hk, same_frame_refl.
Qed.

(** With one or two links every step returns. *)
Lemma takeStep_returns (p : PendulumJs.Pendulum) (dt : R)
  (tq : torques_arg) :
  wf p -> supported p ->
  exists p', PendulumJs.takeStep dt tq p = (Ok tt, p').
Proof.
  pendulum_shapes p; destruct meth, cmp;
    unfold PendulumJs.takeStep, PendulumJs.alphas_here,
      PendulumJs.computeAlphas, call, st_bind;
    cbn; repeat (solver_shape; cbn);
    eexists; reflexivity.
Qed.

(** How a step on a well-formed pendulum ends: normally, or, with a
    dimension other than 1 and 2 and a recognized method, by the throw of
    [computeAlphas]. *)
Lemma takeStep_outcome (p : PendulumJs.Pendulum) (dt : R)
  (tq : torques_arg) :
  wf p ->
  (PendulumJs.takeStep dt tq p).1 = Ok tt
  \/ (PendulumJs.takeStep dt tq p).1 = Throw unsupported_dimension.
Proof.
  intros Hwf.
  destruct (decide (PendulumJs.dimension p = 1%nat
                    \/ PendulumJs.dimension p = 2%nat)) as [Hs | Hn].
  - destruct (takeStep_returns p dt tq Hwf Hs) as (p' & ->). left. reflexivity.
  - destruct (PendulumJs.integration_method_of p) eqn:Hm.
    4: left; rewrite (takeStep_unrecognized p dt tq Hm); reflexivity.
    all: right; rewrite (takeStep_unsupported p dt tq Hn); [reflexivity|];
      rewrite Hm; discriminate.
Qed.

(** X12.  A step on a pendulum whose four arrays have [dimension] entries
    ends normally or by the throw of [computeAlphas], and however it ends it
    has advanced [time] by exactly [dt], it has kept the number of angles
    and of velocities, and it has left lengths, masses, dimension, body
    model, method, radii and total length as they were; so the four arrays
    still have [dimension] entries. *)
Theorem step_changes_angles_and_time_only (p : PendulumJs.Pendulum)
  (dt : R) (tq : torques_arg) :
  wf p ->
  let p' := (PendulumJs.takeStep dt tq p).2 in
  ((PendulumJs.takeStep dt tq p).1 = Ok tt
   \/ (PendulumJs.takeStep dt tq p).1 = Throw unsupported_dimension)
  /\ PendulumJs.time p' = PendulumJs.time p + dt
  /\ length (PendulumJs.thetas p') = length (PendulumJs.thetas p)
  /\ length (PendulumJs.omegas p') = length (PendulumJs.omegas p)
  /\ PendulumJs.lengths p' = PendulumJs.lengths p
  /\ PendulumJs.masses p' = PendulumJs.masses p
  /\ PendulumJs.dimension p' = PendulumJs.dimension p
  /\ PendulumJs.compound p' = PendulumJs.compound p
  /\ PendulumJs.integration_method_of p' = PendulumJs.integration_method_of p
  /\ PendulumJs.radii p' = PendulumJs.radii p
  /\ PendulumJs.total_length p' = PendulumJs.total_length p
  /\ wf p'.
Proof.
  intros Hwf p'. pose proof (takeStep_frame p dt tq) as Hf.
  fold p' in Hf. unfold same_frame in Hf. simpl in Hf.
  destruct Hf as (H1 & H2 & H3 & H4 & H5 & H6 & H7 & H8 & H9 & H10).
  split; [exact (takeStep_outcome p dt tq Hwf)|].
  do 10 (split; [assumption|]).
  destruct Hwf as (W1 & W2 & W3 & W4). unfold wf. repeat split; congruence.
Qed.

End Frame.

(* ================================================================== *)
(** ** The driver *)

Lemma for_loop_invariant {S A} (Inv : nat -> A -> S -> Prop)
  (body : nat -> A -> stateful S A) (count : nat) :
  forall (from : nat) (acc : A) (s : S),
  Inv from acc s ->
  (forall i a s, (from <= i < from + count)%nat -> Inv i a s ->
     exists a' s', body i a s = (Ok a', s') /\ Inv (Datatypes.S i) a' s') ->
  exists acc' s',
    for_loop from count body acc s = (Ok acc', s')
    /\ Inv (from + count)%nat acc' s'.
Proof.
  induction count as [|count IH]; intros from acc s Hinv Hbody; simpl.
  - exists acc, s. rewrite Nat.add_0_r. split; [reflexivity | exact Hinv].
  - destruct (Hbody from acc s) as (a' & s' & Ha & Hinv');
      [lia | exact Hinv |].
    unfold st_bind. rewrite Ha.
    destruct (IH (Datatypes.S from) a' s' Hinv') as (acc' & s'' & Hacc & Hfin).
    { intros i a s0 Hi. apply Hbody. lia. }
    exists acc', s''. split; [exact Hacc|].
    replace (from + Datatypes.S count)%nat
      with (Datatypes.S from + count)%nat by lia.
    exact Hfin.
Qed.

Lemma update_energy_data_appends (s : Simulation) (energy : list R) :
  PendulumJs.getEnergy (pendulum s) = Ok energy ->
  length (energy_data s) = length energy ->
  exists s',
    update_energy_data s = (Ok tt, s')
    /\ pendulum s' = pendulum s
    /\ map fst (energy_data s') = map fst (energy_data s)
    /\ forall i label data e,
        energy_data s !! i = Some (label, data) ->
        energy !! i = Some e ->
        energy_data s' !! i
        = Some (label, data ++ [(PendulumJs.time (pendulum s), e)]).
Proof.
  intros He Hlen.
  unfold update_energy_data, st_bind, gets, call. rewrite He.
  set (t := PendulumJs.time (pendulum s)).
  destruct (for_loop_invariant
              (fun k (_ : unit) s' =>
                 pendulum s' = pendulum s
                 /\ map fst (energy_data s') = map fst (energy_data s)
                 /\ (forall i, (k <= i)%nat ->
                       energy_data s' !! i = energy_data s !! i)
                 /\ forall i label data e, (i < k)%nat ->
                      energy_data s !! i = Some (label, data) ->
                      energy !! i = Some e ->
                      energy_data s' !! i = Some (label, data ++ [(t, e)]))
              (fun i _ => st_bind (lift (index energy i))
                            (fun e => push_point i (t, e)))
              (length energy) 0 tt s)
    as ([] & s' & Hrun & Hp & Hlabels & _ & Hpts).
  - repeat split. intros i label data e Hi. lia.
  - intros i [] s1 Hi (Hp & Hlabels & Hrest & Hpts).
    destruct (lookup_lt_length_Some energy i _ eq_refl) as (e & Ee); [lia|].
    assert (Hsome : exists series, energy_data s !! i = Some series).
    { destruct (energy_data s !! i) eqn:E; [eauto|].
      apply lookup_ge_None in E. lia. }
    destruct Hsome as ([label data] & Es).
    assert (Es1 : energy_data s1 !! i = Some (label, data))
      by (rewrite Hrest by lia; exact Es).
    exists tt. eexists. split.
    { unfold st_bind, lift, push_point.
      rewrite (index_Some _ _ _ Ee), Es1. reflexivity. }
    simpl. split; [exact Hp|]. split.
    { rewrite list_fmap_insert. simpl.
      rewrite list_insert_id; [exact Hlabels|].
      rewrite list_lookup_fmap, Es1. reflexivity. }
    split.
    { intros j Hj. rewrite list_lookup_insert_ne by lia. apply Hrest. lia. }
    intros j label' data' e' Hj Es' Ee'.
    destruct (decide (j = i)) as [-> | Hne].
    + rewrite list_lookup_insert_eq by (apply lookup_lt_Some in Es1; exact Es1).
      congruence.
    + rewrite list_lookup_insert_ne by congruence.
      apply Hpts; [lia | assumption..].
  - exists s'. split; [exact Hrun|]. split; [exact Hp|].
    split; [exact Hlabels|].
    intros i label data e Es Ee. apply Hpts; [|assumption..].
    apply lookup_lt_Some in Ee. exact Ee.
Qed.

Lemma getEnergyNames_frame (p q : PendulumJs.Pendulum) :
  PendulumJs.dimension q = PendulumJs.dimension p ->
  PendulumJs.compound q = PendulumJs.compound p ->
  PendulumJs.getEnergyNames q = PendulumJs.getEnergyNames p.
Proof.
  intros Hd Hc. unfold PendulumJs.getEnergyNames. rewrite Hd, Hc.
  reflexivity.
Qed.

Lemma startSimulation_ready (o : PendulumJs.Options) (s : Simulation) :
  startSimulation o = Ok s ->
  PendulumJs.new_Pendulum o = Ok (pendulum s)
  /\ energy_data s
     = map (fun name => (name, [])) (PendulumJs.getEnergyNames (pendulum s))
  /\ map fst (energy_data s) = PendulumJs.getEnergyNames (pendulum s).
Proof.
  unfold startSimulation.
  destruct (PendulumJs.new_Pendulum o) as [p | e |]; simpl; try discriminate.
  intros [= <-]. simpl. rewrite fold_left_push. simpl.
  split; [reflexivity|]. split; [reflexivity|].
  rewrite map_map. simpl. apply map_id.
Qed.

Lemma energy_total_is_sum_helper (p : PendulumJs.Pendulum) :
  wf p ->
  exists components total,
    PendulumJs.getEnergy p = Ok (components ++ [total])
    /\ length (components ++ [total])
       = length (PendulumJs.getEnergyNames p).
Proof.
  intros Hwf.
  destruct (getEnergy_layout p Hwf)
    as (pos & vel & components & total & _ & _ & H3 & Hlen & _ & _).
  exists components, total. split; [exact H3|].
  rewrite getEnergyNames_length, length_app, Hlen. reflexivity.
Qed.

Section Driver.
Context `{Numeric}.

Lemma tick_appends (s : Simulation) (f_down j_down : bool) :
  plot_ready s ->
  exists s' energy,
    tick f_down j_down s = (Ok tt, s')
    /\ plot_ready s'
    /\ PendulumJs.time (pendulum s') = PendulumJs.time (pendulum s) + 0.005
    /\ PendulumJs.getEnergy (pendulum s') = Ok energy
    /\ length (energy_data s') = length (energy_data s)
    /\ forall i label data,
        energy_data s !! i = Some (label, data) ->
        exists e,
          energy !! i = Some e
          /\ energy_data s' !! i
             = Some (label, data ++ [(PendulumJs.time (pendulum s'), e)]).
Proof.
  intros (Hwf & Hs & Hlabels).
  set (tq := Some [if j_down
                   then (if f_down then 0 + 0.5 else 0) - 0.5
                   else (if f_down then 0 + 0.5 else 0)]).
  destruct (takeStep_returns (pendulum s) 0.005 tq Hwf Hs) as (p' & Hstep).
  pose proof (takeStep_frame (pendulum s) 0.005 tq) as Hf.
  rewrite Hstep in Hf. unfold same_frame in Hf. simpl in Hf.
  destruct Hf as (Hl & Hm & _ & Hc & Hd & _ & _ & Ht & Hth & Hom).
  assert (Hwf' : wf p').
  { destruct Hwf as (W1 & W2 & W3 & W4). unfold wf.
    repeat split; congruence. }
  destruct (energy_total_is_sum_helper p' Hwf')
    as (components & total & He & Hlen).
  set (s1 := set_pendulum p' s).
  destruct (update_energy_data_appends s1 (components ++ [total]))
    as (s' & Hupd & Hp & Hlab' & Hpts).
  { exact He. }
  { simpl. rewrite Hlen, (getEnergyNames_frame (pendulum s) p' Hd Hc),
      <- Hlabels, length_map. reflexivity. }
  exists s', (components ++ [total]).
  split.
  { unfold tick, st_bind, on_pendulum. fold tq. rewrite Hstep.
    fold s1. exact Hupd. }
  rewrite Hp. simpl.
  split.
  { split; [rewrite Hp; exact Hwf'|]. split.
    - rewrite Hp. unfold supported in *. simpl. rewrite Hd. exact Hs.
    - rewrite Hlab', Hp. simpl.
      rewrite (getEnergyNames_frame (pendulum s) p' Hd Hc). exact Hlabels. }
  split; [exact Ht|]. split; [exact He|].
  split.
  { rewrite <- (length_map fst), Hlab', length_map. reflexivity. }
  intros i label data Es.
  assert (Hi : (i < length (components ++ [total]))%nat).
  { rewrite Hlen, (getEnergyNames_frame (pendulum s) p' Hd Hc),
      <- Hlabels, length_map. apply lookup_lt_Some in Es. exact Es. }
  destruct (lookup_lt_length_Some _ i _ eq_refl Hi) as (e & Ee).
  exists e. split; [exact Ee|].
  apply (Hpts i label data e Es Ee).
Qed.

(** X13.  One timer callback on a simulation of one or two links whose
    series are those of the energy names: it returns normally, the time
    advances by 0.005, and every series gains exactly one point, the new
    time with the value [getEnergy] gives at the index of the series.  The
    key flags make no difference to it. *)
Theorem tick_appends_one_point (s : Simulation) (f_down j_down : bool) :
  plot_ready s ->
  exists s' energy,
    tick f_down j_down s = (Ok tt, s')
    /\ tick false false s = (Ok tt, s')
    /\ plot_ready s'
    /\ PendulumJs.time (pendulum s') = PendulumJs.time (pendulum s) + 0.005
    /\ PendulumJs.getEnergy (pendulum s') = Ok energy
    /\ length (energy_data s') = length (energy_data s)
    /\ forall i label data,
        energy_data s !! i = Some (label, data) ->
        exists e,
          energy !! i = Some e
          /\ energy_data s' !! i
             = Some (label, data ++ [(PendulumJs.time (pendulum s'), e)]).
Proof.
  intros Hs.
  destruct (tick_appends s f_down j_down Hs) as (s' & energy & Htick & Hrest).
  exists s', energy. split; [exact Htick|]. split; [|exact Hrest].
  rewrite <- Htick. reflexivity.
Qed.

Lemma click_ready (c : Controls) :
  exists s,
    startSimulation (click_options c) = Ok s
    /\ plot_ready s
    /\ PendulumJs.time (pendulum s) = 0
    /\ (PendulumJs.integration_method_of (pendulum s) = Unrecognized
        <-> int_forward_checked c = false
            /\ int_semi_checked c = false
            /\ int_runge_kutta_checked c = false)
    /\ Forall (fun series => series.2 = []) (energy_data s).
Proof.
  destruct (startSimulation (click_options c)) as [s | e |] eqn:Hstart.
  2, 3: exfalso; revert Hstart; unfold startSimulation, click_options;
    destruct (pendulum_type c) as [v|];
    [destruct (String.eqb v "single"), (String.eqb v "double")|];
    discriminate.
  exists s. split; [reflexivity|].
  destruct (startSimulation_ready _ _ Hstart) as (Hp & Hdata & Hlabels).
  pose proof (new_Pendulum_wf _ _ Hp) as Hwf.
  apply new_Pendulum_ok in Hp.
  destruct Hp as (_ & _ & _ & _ & _ & _ & Hd & _ & Ht).
  split; [|split; [exact Ht|split]].
  - split; [exact Hwf|]. split; [|exact Hlabels].
    unfold supported. rewrite Hd. unfold click_options.
    destruct (pendulum_type c) as [v|];
      [destruct (String.eqb v "single"), (String.eqb v "double")|];
      simpl; auto.
  - revert Hstart. unfold startSimulation, click_options.
    destruct (pendulum_type c) as [v|];
      [destruct (String.eqb v "single"), (String.eqb v "double")|];
      intros [= <-]; simpl;
      destruct (int_forward_checked c), (int_semi_checked c),
        (int_runge_kutta_checked c); intuition discriminate.
  - rewrite Hdata. apply Forall_fmap, Forall_true. reflexivity.
Qed.

End Driver.

(** *** The plot keeps the most recent points *)

Lemma trim_series_drop (label : string) (data : list (R * R)) :
  trim_series (label, data)
  = (label, drop (length data - max_length) data).
Proof.
  unfold trim_series. destruct (Nat.ltb_spec max_length (length data)).
  - reflexivity.
  - replace (length data - max_length)%nat with 0%nat by lia. reflexivity.
Qed.

(** X15.  [draw_energy_plot] keeps of every series its last
    [max_length = 1000] points: the kept data is a suffix of the data, of
    length [min (length data) 1000], the data itself when that has at most
    1000 points, and trimming it again changes nothing. *)
Theorem draw_energy_plot_keeps_recent (s : Simulation) :
  exists s',
    draw_energy_plot s = (Ok tt, s')
    /\ pendulum s' = pendulum s
    /\ length (energy_data s') = length (energy_data s)
    /\ forall i label data,
        energy_data s !! i = Some (label, data) ->
        exists kept,
          energy_data s' !! i = Some (label, kept)
          /\ length kept = (length data `min` max_length)%nat
          /\ kept `suffix_of` data
          /\ ((length data <= max_length)%nat -> kept = data)
          /\ trim_series (label, kept) = (label, kept).
Proof.
  exists (set_energy_data (map trim_series (energy_data s)) s).
  split; [reflexivity|]. cbn [pendulum energy_data set_energy_data].
  split; [reflexivity|]. split; [apply length_map|].
  intros i label data Es.
  exists (drop (length data - max_length) data).
  split.
  { etransitivity; [apply list_lookup_fmap|]. rewrite Es.
    cbn [fmap option_fmap option_map]. rewrite trim_series_drop.
    reflexivity. }
  split; [rewrite length_drop; lia|].
  split; [apply suffix_drop|].
  split.
  - intros Hle. replace (length data - max_length)%nat with 0%nat by lia.
    reflexivity.
  - rewrite trim_series_drop. f_equal. rewrite length_drop.
    replace (length data - (length data - max_length) - max_length)%nat
      with 0%nat by lia.
    reflexivity.
Qed.

(* ================================================================== *)
(** ** Edge: a pendulum without links *)

Section Edge.
Context `{Numeric}.

(** X16.  Four empty arrays construct a pendulum of dimension 0, with no
    radius and NaN for [total_length].  Its geometry is empty, its energy is
    the single value 0 under the single name ['Total energy'],
    [getTotalEnergy] returns 0 (its loop never reaches the missing
    property), and a step of a recognized method throws the
    unsupported-dimension error with the time advanced. *)
Theorem pendulum_without_links (method : option integration_method)
  (compound : bool) (dt : R) (tq : torques_arg) :
  exists p,
    PendulumJs.new_Pendulum (no_links method compound) = Ok p
    /\ PendulumJs.dimension p = 0%nat
    /\ PendulumJs.radii p = []
    /\ PendulumJs.total_length p = None
    /\ PendulumJs.getCartesianPositions p = Ok []
    /\ PendulumJs.getCentersOfMass p = Ok []
    /\ PendulumJs.getCartesianVelocities p = Ok []
    /\ PendulumJs.getEnergyNames p = ["Total energy"%string]
    /\ PendulumJs.getEnergy p = Ok [0]
    /\ PendulumJs.getTotalEnergy p = Ok 0
    /\ (method <> Some Unrecognized ->
        PendulumJs.takeStep dt tq p
        = (Throw unsupported_dimension, PendulumJs.set_time (0 + dt) p)).
Proof.
  eexists. split; [reflexivity|].
  do 9 (split; [first [reflexivity | destruct compound; reflexivity]|]).
  intros Hm.
  destruct method as [[]|]; try congruence; reflexivity.
Qed.

End Edge.

(* ================================================================== *)
(** ** The two variants on point masses *)

Section Variants.
Context `{Numeric}.

Lemma earlier_computeAlphas_unsupported (p : Earlier.Pendulum)
  (th om : list R) (tq : torques_arg) :
  ~ supported_earlier p ->
  Earlier.computeAlphas th om tq p = Throw unsupported_dimension.
Proof.
  unfold supported_earlier, Earlier.computeAlphas. intros Hn.
  destruct (Nat.eqb_spec (Earlier.dimension p) 1); [tauto|].
  destruct (Nat.eqb_spec (Earlier.dimension p) 2); [tauto|].
  reflexivity.
Qed.

Lemma variants_agree_supported (p : PendulumJs.Pendulum) (dt : R)
  (tq tq' : torques_arg) :
  wf p -> supported p ->
  PendulumJs.compound p = false ->
  Earlier.takeStep dt tq' (forget_compound p)
  = ((PendulumJs.takeStep dt tq p).1,
     forget_compound (PendulumJs.takeStep dt tq p).2).
Proof.
  pendulum_shapes p; intros ->; destruct meth;
    unfold PendulumJs.takeStep, PendulumJs.alphas_here,
      PendulumJs.computeAlphas, Earlier.takeStep, Earlier.takeStep_passing,
      Earlier.alphas_here, Earlier.computeAlphas, forget_compound,
      call, st_bind;
    cbn; repeat (solver_shape; cbn); reflexivity.
Qed.

(** X17.  On point masses the two variants take the same step: for any
    number of links, any method and any torques, the step of the earlier
    variant on the same fields ends as the step of [js/pendulum.js] does,
    in the same state. *)
Theorem variants_take_the_same_step (p : PendulumJs.Pendulum) (dt : R)
  (tq tq' : torques_arg) :
  wf p ->
  PendulumJs.compound p = false ->
  Earlier.takeStep dt tq' (forget_compound p)
  = ((PendulumJs.takeStep dt tq p).1,
     forget_compound (PendulumJs.takeStep dt tq p).2).
Proof.
  intros Hwf Hc.
  destruct (decide (PendulumJs.dimension p = 1%nat
                    \/ PendulumJs.dimension p = 2%nat)) as [Hs | Hn].
  - apply variants_agree_supported; assumption.
  - assert (Hn' : ~ supported_earlier (forget_compound p)) by exact Hn.
    assert (Hn1 : forall t, ~ supported (PendulumJs.set_time t p))
      by (intros t; exact Hn).
    assert (Hn2 : forall t,
               ~ supported_earlier (Earlier.set_time t (forget_compound p)))
      by (intros t; exact Hn).
    unfold PendulumJs.takeStep, PendulumJs.alphas_here, Earlier.takeStep,
      Earlier.takeStep_passing, Earlier.alphas_here, call, st_bind, modify,
      gets.
    cbn.
    destruct (PendulumJs.integration_method_of p);
      rewrite ?computeAlphas_unsupported by apply Hn1;
      rewrite ?earlier_computeAlphas_unsupported by apply Hn2;
      reflexivity.
Qed.

End Variants.

(* ================================================================== *)
(** ** Energy in the earlier variant *)

Lemma earlier_positions (p : Earlier.Pendulum) :
  wf_earlier p ->
  exists pos,
    Earlier.getCartesianPositions p = Ok pos
    /\ length pos = Earlier.dimension p.
Proof.
  intros (Hl & _ & Ht & _). unfold Earlier.getCartesianPositions.
  set (body := fun (i : nat) '(sx, sy, pos) => _).
  destruct (for_pure_invariant
              (fun k '(sx, sy, pos) => length pos = k)
              body (Earlier.dimension p) 0 (0, 0, []))
    as ([[sx sy] pos] & Hrun & Hlen).
  - reflexivity.
  - intros i [[sx sy] pos] Hi Hlen.
    destruct (lookup_lt_length_Some _ i _ Hl) as (l & El); [lia|].
    destruct (lookup_lt_length_Some _ i _ Ht) as (t & Et); [lia|].
    eexists. split.
    { unfold body. rewrite (index_Some _ _ _ El), (index_Some _ _ _ Et).
      reflexivity. }
    cbv beta iota. rewrite length_app. simpl. lia.
  - exists pos. rewrite Hrun. auto.
Qed.

Lemma earlier_velocities (p : Earlier.Pendulum) :
  wf_earlier p ->
  exists vel,
    Earlier.getCartesianVelocities p = Ok vel
    /\ length vel = Earlier.dimension p.
Proof.
  intros (Hl & _ & Ht & Hw). unfold Earlier.getCartesianVelocities.
  set (body := fun (i : nat) '(vx, vy, vel) => _).
  destruct (for_pure_invariant
              (fun k '(vx, vy, vel) => length vel = k)
              body (Earlier.dimension p) 0 (0, 0, []))
    as ([[vx vy] vel] & Hrun & Hlen).
  - reflexivity.
  - intros i [[vx vy] vel] Hi Hlen.
    destruct (lookup_lt_length_Some _ i _ Hl) as (l & El); [lia|].
    destruct (lookup_lt_length_Some _ i _ Ht) as (t & Et); [lia|].
    destruct (lookup_lt_length_Some _ i _ Hw) as (w & Ew); [lia|].
    eexists. split.
    { unfold body. rewrite (index_Some _ _ _ El), (index_Some _ _ _ Et),
        (index_Some _ _ _ Ew). reflexivity. }
    cbv beta iota. rewrite length_app. simpl. lia.
  - exists vel. rewrite Hrun. auto.
Qed.

Lemma earlier_getEnergy_lists (p : Earlier.Pendulum) :
  wf_earlier p ->
  exists pos vel kinetic potential,
    Earlier.getCartesianPositions p = Ok pos
    /\ Earlier.getCartesianVelocities p = Ok vel
    /\ Earlier.getEnergy p = Ok (kinetic, potential)
    /\ length kinetic = Earlier.dimension p
    /\ length potential = Earlier.dimension p
    /\ forall i m v xy,
        Earlier.masses p !! i = Some m ->
        vel !! i = Some v ->
        pos !! i = Some xy ->
        kinetic !! i = Some (0.5 * m * (v.1 * v.1 + v.2 * v.2))
        /\ potential !! i = Some (m * GRAVITY * xy.2).
Proof.
  intros Hwf.
  destruct (earlier_positions p Hwf) as (pos & Hpos & Hplen).
  destruct (earlier_velocities p Hwf) as (vel & Hvel & Hvlen).
  destruct Hwf as (Hl & Hm & Ht & Hw).
  exists pos, vel. unfold Earlier.getEnergy. rewrite Hpos, Hvel. simpl.
  set (body := fun (i : nat) '(kinetic, potential) => _).
  destruct (for_pure_invariant
              (fun k '(kinetic, potential) =>
                 length kinetic = k /\ length potential = k
                 /\ forall i m v xy, (i < k)%nat ->
                      Earlier.masses p !! i = Some m ->
                      vel !! i = Some v ->
                      pos !! i = Some xy ->
                      kinetic !! i
                        = Some (0.5 * m * (v.1 * v.1 + v.2 * v.2))
                      /\ potential !! i = Some (m * GRAVITY * xy.2))
              body (Earlier.dimension p) 0 ([], []))
    as ([kinetic potential] & Hrun & Hklen & Hulen & Hval).
  - repeat split. all: intros; lia.
  - intros i [kinetic potential] Hi (Hklen & Hulen & Hval).
    destruct (lookup_lt_length_Some _ i _ Hm) as (m & Em); [lia|].
    destruct (lookup_lt_length_pair _ i _ Hplen) as (xy & Exy); [lia|].
    destruct (lookup_lt_length_pair _ i _ Hvlen) as (v & Ev); [lia|].
    eexists. split.
    { unfold body.
      rewrite (index_Some _ _ _ Em), (index_pair_Some _ _ _ Ev),
        (index_pair_Some _ _ _ Exy). reflexivity. }
    cbv beta iota. rewrite !length_app. simpl.
    split; [lia|]. split; [lia|].
    intros j m' v' xy' Hj Em' Ev' Exy'.
    destruct (decide (j = i)) as [-> | Hne].
    + rewrite !lookup_app_r by lia.
      rewrite Hklen, Hulen, Nat.sub_diag. simpl. split; congruence.
    + rewrite !lookup_app_l by lia.
      apply (Hval j m' v' xy'); [lia | assumption..].
  - exists kinetic, potential. rewrite Hrun.
    do 3 (split; [reflexivity|]). split; [exact Hklen|].
    split; [exact Hulen|].
    intros i m v xy Em Ev Exy. apply (Hval i m v xy); [|assumption..].
    apply lookup_lt_Some in Em. lia.
Qed.

Lemma Rsum_take_S (l : list R) (k : nat) (x : R) :
  l !! k = Some x -> Rsum (take (S k) l) = Rsum (take k l) + x.
Proof.
  intros Hx. rewrite (take_S_r _ _ _ Hx), Rsum_app. unfold Rsum. simpl. lra.
Qed.

Lemma total_loop_sums (kinetic potential : list R) (n : nat) :
  length kinetic = n -> length potential = n ->
  for_pure 0 n (fun i total_energy =>
      k ← index_prop (prop_kinetic (EnergyObject kinetic potential)) i;
      u ← index_prop (prop_potential (EnergyObject kinetic potential)) i;
      Ok (total_energy + (k + u))) 0
  = Ok (Rsum kinetic + Rsum potential).
Proof.
  intros Hk Hu.
  set (body := fun (i : nat) (total_energy : R) => _).
  destruct (for_pure_invariant
              (fun k total =>
                 total = Rsum (take k kinetic) + Rsum (take k potential))
              body n 0 0) as (total & Hrun & Hsum).
  - unfold Rsum. simpl. lra.
  - intros i total Hi Hsum.
    destruct (lookup_lt_length_Some _ i _ Hk) as (k & Ek); [lia|].
    destruct (lookup_lt_length_Some _ i _ Hu) as (u & Eu); [lia|].
    eexists. split.
    { unfold body. simpl.
      rewrite (index_Some _ _ _ Ek), (index_Some _ _ _ Eu). reflexivity. }
    rewrite (Rsum_take_S _ _ _ Ek), (Rsum_take_S _ _ _ Eu), Hsum. lra.
  - rewrite Hrun. simpl in Hsum.
    rewrite !take_ge in Hsum by lia. rewrite Hsum. reflexivity.
Qed.

(** X18.  In the earlier variant, for any number of links, [getEnergy]
    returns one kinetic and one potential energy per link and
    [getTotalEnergy] returns the sum of them all. *)
Theorem earlier_total_energy_is_sum (p : Earlier.Pendulum) :
  wf_earlier p ->
  exists kinetic potential,
    Earlier.getEnergy p = Ok (kinetic, potential)
    /\ length kinetic = Earlier.dimension p
    /\ length potential = Earlier.dimension p
    /\ Earlier.getTotalEnergy p = Ok (Rsum kinetic + Rsum potential).
Proof.
  intros Hwf.
  destruct (earlier_getEnergy_lists p Hwf)
    as (pos & vel & kinetic & potential & _ & _ & He & Hk & Hu & _).
  exists kinetic, potential. do 3 (split; [assumption|]).
  unfold Earlier.getTotalEnergy. rewrite He. simpl.
  apply total_loop_sums; assumption.
Qed.

(* ================================================================== *)
(** ** The driver of the earlier variant *)

Lemma earlier_labels_length (n : nat) :
  length (earlier_labels n) = (2 * n + 1)%nat.
Proof.
  unfold earlier_labels. rewrite !length_app, !length_map, !length_seq.
  simpl. lia.
Qed.

Lemma earlier_labels_lookup (n i : nat) :
  (i < n)%nat ->
  earlier_labels n !! i = Some ("Kinetic " +:+ pretty (i + 1)%nat)
  /\ earlier_labels n !! (i + n)%nat
     = Some ("Potential " +:+ pretty (i + 1)%nat).
Proof.
  intros Hi. unfold earlier_labels. split.
  - rewrite lookup_app_l by (rewrite length_map, length_seq; exact Hi).
    rewrite list_lookup_fmap, lookup_seq_lt by exact Hi. reflexivity.
  - rewrite lookup_app_r by (rewrite length_map, length_seq; lia).
    rewrite length_map, length_seq.
    replace (i + n - n)%nat with i by lia.
    rewrite lookup_app_l by (rewrite length_map, length_seq; exact Hi).
    rewrite list_lookup_fmap, lookup_seq_lt by exact Hi. reflexivity.
Qed.

Lemma earlier_labels_total (n : nat) :
  earlier_labels n !! (2 * n)%nat = Some "Total energy"%string.
Proof.
  unfold earlier_labels.
  rewrite lookup_app_r by (rewrite length_map, length_seq; lia).
  rewrite length_map, length_seq.
  rewrite lookup_app_r by (rewrite length_map, length_seq; lia).
  rewrite length_map, length_seq.
  replace (2 * n - n - n)%nat with 0%nat by lia. reflexivity.
Qed.

Lemma series_of_label {P} (s : Closure P) (labels : list string) (i : nat)
  (label : string) :
  map fst (energy_data s) = labels ->
  labels !! i = Some label ->
  exists data, energy_data s !! i = Some (label, data).
Proof.
  intros <- Hl. rewrite list_lookup_fmap in Hl.
  destruct (energy_data s !! i) as [[label' data]|]; [|discriminate].
  injection Hl as <-. eauto.
Qed.

Lemma push_point_run {P} (s : Closure P) (i : nat) (point : R * R)
  (label : string) (data : list (R * R)) :
  energy_data s !! i = Some (label, data) ->
  push_point i point s
  = (Ok tt,
     set_energy_data (<[i := (label, data ++ [point])]> (energy_data s)) s).
Proof. intros Es. unfold push_point. rewrite Es. reflexivity. Qed.

Lemma labels_after_push (d : list (string * list (R * R))) (i : nat)
  (label : string) (data data' : list (R * R)) :
  d !! i = Some (label, data) ->
  map fst (<[i := (label, data')]> d) = map fst d.
Proof.
  intros Es. rewrite list_fmap_insert. simpl.
  apply list_insert_id. rewrite list_lookup_fmap, Es. reflexivity.
Qed.

Lemma earlier_update_run (s : EarlierSimulation) :
  wf_earlier (pendulum s) ->
  map fst (energy_data s) = earlier_labels (Earlier.dimension (pendulum s)) ->
  exists s' kinetic potential,
    earlier_update_energy_data s = (Ok tt, s')
    /\ Earlier.getEnergy (pendulum s) = Ok (kinetic, potential)
    /\ pendulum s' = pendulum s
    /\ map fst (energy_data s') = map fst (energy_data s)
    /\ (forall i k data,
          kinetic !! i = Some k ->
          energy_data s !! i = Some data ->
          energy_data s' !! i
          = Some (data.1, data.2 ++ [(Earlier.time (pendulum s), k)]))
    /\ (forall i u data,
          potential !! i = Some u ->
          energy_data s !! (i + Earlier.dimension (pendulum s))%nat
            = Some data ->
          energy_data s' !! (i + Earlier.dimension (pendulum s))%nat
          = Some (data.1, data.2 ++ [(Earlier.time (pendulum s), u)]))
    /\ (forall data,
          energy_data s !! (2 * Earlier.dimension (pendulum s))%nat
            = Some data ->
          energy_data s' !! (2 * Earlier.dimension (pendulum s))%nat
          = Some (data.1,
                  data.2 ++ [(Earlier.time (pendulum s),
                              Rsum kinetic + Rsum potential)])).
Proof.
  intros Hwf Hlabels.
  destruct (earlier_getEnergy_lists _ Hwf)
    as (pos & vel & kinetic & potential & _ & _ & He & Hk & Hu & _).
  set (n := Earlier.dimension (pendulum s)) in *.
  set (t := Earlier.time (pendulum s)).
  assert (Hlen : length (energy_data s) = (2 * n + 1)%nat)
    by (rewrite <- (length_map fst), Hlabels; apply earlier_labels_length).
  unfold earlier_update_energy_data, st_bind, gets, call.
  rewrite He. fold n t. cbn [fst snd].
  set (body := fun (i : nat) (total_energy : R) => _).
  destruct (for_loop_invariant
              (fun j total s1 =>
                 pendulum s1 = pendulum s
                 /\ map fst (energy_data s1) = map fst (energy_data s)
                 /\ total = Rsum (take j kinetic) + Rsum (take j potential)
                 /\ (forall i k data, (i < j)%nat ->
                       kinetic !! i = Some k ->
                       energy_data s !! i = Some data ->
                       energy_data s1 !! i
                       = Some (data.1, data.2 ++ [(t, k)]))
                 /\ (forall i u data, (i < j)%nat ->
                       potential !! i = Some u ->
                       energy_data s !! (i + n)%nat = Some data ->
                       energy_data s1 !! (i + n)%nat
                       = Some (data.1, data.2 ++ [(t, u)]))
                 /\ (forall i, (j <= i < n \/ n + j <= i)%nat ->
                       energy_data s1 !! i = energy_data s !! i))
              body n 0 0 s)
    as (total & s1 & Hrun & Hp & Hlab & Hsum & Hkin & Hpot & Hrest).
  - split; [reflexivity|]. split; [reflexivity|].
    split; [unfold Rsum; simpl; lra|].
    split; [intros; lia|]. split; [intros; lia|]. reflexivity.
  - intros j total s1 Hj (Hp & Hlab & Hsum & Hkin & Hpot & Hrest).
    destruct (lookup_lt_length_Some _ j _ Hk) as (k & Ek); [lia|].
    destruct (lookup_lt_length_Some _ j _ Hu) as (u & Eu); [lia|].
    assert (Hs1 : exists d, energy_data s !! j = Some d).
    { destruct (energy_data s !! j) eqn:E; [eauto|].
      apply lookup_ge_None in E. lia. }
    destruct Hs1 as ([label1 data1] & Es1).
    assert (Hs2 : exists d, energy_data s !! (j + n)%nat = Some d).
    { destruct (energy_data s !! (j + n)%nat) eqn:E; [eauto|].
      apply lookup_ge_None in E. lia. }
    destruct Hs2 as ([label2 data2] & Es2).
    assert (E1 : energy_data s1 !! j = Some (label1, data1))
      by (rewrite Hrest by lia; exact Es1).
    assert (E2 : energy_data s1 !! (j + n)%nat = Some (label2, data2))
      by (rewrite Hrest by lia; exact Es2).
    eexists. eexists. split.
    { unfold body, st_bind, lift. simpl.
      rewrite (index_Some _ _ _ Ek), (index_Some _ _ _ Eu).
      rewrite (push_point_run _ _ _ _ _ E1).
      rewrite (push_point_run _ (j + n) _ label2 data2).
      - reflexivity.
      - simpl. rewrite list_lookup_insert_ne by lia. exact E2. }
    simpl. split; [exact Hp|]. split.
    { rewrite (labels_after_push _ (j + n) label2 data2).
      - rewrite (labels_after_push _ j label1 data1); assumption.
      - rewrite list_lookup_insert_ne by lia. exact E2. }
    split.
    { rewrite (Rsum_take_S _ _ _ Ek), (Rsum_take_S _ _ _ Eu), Hsum. lra. }
    split.
    { intros i k' data Hi Ek' Es.
      rewrite list_lookup_insert_ne by lia.
      destruct (decide (i = j)) as [-> | Hne].
      - rewrite list_lookup_insert_eq by (apply lookup_lt_Some in E1; exact E1).
        rewrite Es1 in Es. injection Es as <-. simpl. congruence.
      - rewrite list_lookup_insert_ne by congruence.
        apply Hkin; [lia | assumption..]. }
    split.
    { intros i u' data Hi Eu' Es.
      destruct (decide (i = j)) as [-> | Hne].
      - rewrite list_lookup_insert_eq.
        + rewrite Es2 in Es. injection Es as <-. simpl. congruence.
        + rewrite length_insert. apply lookup_lt_Some in E2. exact E2.
      - rewrite !list_lookup_insert_ne by lia.
        apply Hpot; [lia | assumption..]. }
    intros i Hi. rewrite !list_lookup_insert_ne by lia. apply Hrest. lia.
  - assert (Hs3 : exists d, energy_data s !! (2 * n)%nat = Some d).
    { destruct (energy_data s !! (2 * n)%nat) eqn:E; [eauto|].
      apply lookup_ge_None in E. lia. }
    destruct Hs3 as ([label3 data3] & Es3).
    assert (E3 : energy_data s1 !! (2 * n)%nat = Some (label3, data3))
      by (rewrite Hrest by lia; exact Es3).
    rewrite Hrun. rewrite (push_point_run _ _ _ _ _ E3).
    eexists. exists kinetic, potential.
    split; [reflexivity|]. split; [reflexivity|]. simpl.
    split; [exact Hp|]. split.
    { rewrite (labels_after_push _ _ _ _ _ E3). exact Hlab. }
    rewrite !take_ge in Hsum by lia.
    split.
    { intros i k data Ek Es. pose proof (lookup_lt_Some _ _ _ Ek).
      rewrite list_lookup_insert_ne by lia.
      apply Hkin; [lia | assumption..]. }
    split.
    { intros i u data Eu Es. pose proof (lookup_lt_Some _ _ _ Eu).
      rewrite list_lookup_insert_ne by lia.
      apply Hpot; [lia | assumption..]. }
    intros data Es.
    change (energy_data s !! (2 * n)%nat = Some data) in Es.
    rewrite Es3 in Es. injection Es as <-.
    change (n + (n + 0))%nat with (2 * n)%nat.
    rewrite list_lookup_insert_eq by (apply lookup_lt_Some in E3; exact E3).
    simpl. rewrite Hsum. reflexivity.
Qed.

(** X19.  In the earlier variant the plot is labelled as it is filled: an
    update appends the kinetic energy of link [i] to the series labelled
    ['Kinetic ' + (i+1)], its potential energy to the series labelled
    ['Potential ' + (i+1)], and the total to the series ['Total energy'],
    each with the time. *)
Theorem earlier_series_receive_their_energy (s : EarlierSimulation) :
  wf_earlier (pendulum s) ->
  map fst (energy_data s) = earlier_labels (Earlier.dimension (pendulum s)) ->
  let n := Earlier.dimension (pendulum s) in
  let t := Earlier.time (pendulum s) in
  exists s' kinetic potential,
    earlier_update_energy_data s = (Ok tt, s')
    /\ Earlier.getEnergy (pendulum s) = Ok (kinetic, potential)
    /\ pendulum s' = pendulum s
    /\ map fst (energy_data s') = earlier_labels n
    /\ (forall i k,
          kinetic !! i = Some k ->
          exists data,
            energy_data s !! i
              = Some ("Kinetic " +:+ pretty (i + 1)%nat, data)
            /\ energy_data s' !! i
               = Some ("Kinetic " +:+ pretty (i + 1)%nat, data ++ [(t, k)]))
    /\ (forall i u,
          potential !! i = Some u ->
          exists data,
            energy_data s !! (i + n)%nat
              = Some ("Potential " +:+ pretty (i + 1)%nat, data)
            /\ energy_data s' !! (i + n)%nat
               = Some ("Potential " +:+ pretty (i + 1)%nat,
                       data ++ [(t, u)]))
    /\ (exists data,
          energy_data s !! (2 * n)%nat = Some ("Total energy"%string, data)
          /\ energy_data s' !! (2 * n)%nat
             = Some ("Total energy"%string,
                     data ++ [(t, Rsum kinetic + Rsum potential)])).
Proof.
  intros Hwf Hlabels n t.
  destruct (earlier_update_run s Hwf Hlabels)
    as (s' & kinetic & potential & Hrun & He & Hp & Hlab & Hkin & Hpot & Htot).
  destruct (earlier_getEnergy_lists _ Hwf)
    as (pos & vel & kinetic' & potential' & _ & _ & He' & Hk & Hu & _).
  rewrite He in He'. injection He' as <- <-. fold n in Hk, Hu.
  exists s', kinetic, potential.
  do 3 (split; [assumption|]). split; [rewrite Hlab; exact Hlabels|].
  split; [|split].
  - intros i k Ek.
    assert (Hi : (i < n)%nat) by (apply lookup_lt_Some in Ek; lia).
    destruct (earlier_labels_lookup n i Hi) as (Hl & _).
    destruct (series_of_label s _ i _ Hlabels Hl) as (data & Es).
    exists data. split; [exact Es|]. apply (Hkin i k _ Ek Es).
  - intros i u Eu.
    assert (Hi : (i < n)%nat) by (apply lookup_lt_Some in Eu; lia).
    destruct (earlier_labels_lookup n i Hi) as (_ & Hl).
    destruct (series_of_label s _ (i + n) _ Hlabels Hl) as (data & Es).
    exists data. split; [exact Es|]. apply (Hpot i u _ Eu Es).
  - destruct (series_of_label s _ (2 * n) _ Hlabels (earlier_labels_total n))
      as (data & Es).
    exists data. split; [exact Es|]. apply (Htot _ Es).
Qed.

Lemma earlier_startSimulation_labels (o : Earlier.Options)
  (s : EarlierSimulation) :
  earlier_startSimulation o = Ok s ->
  Earlier.new_Pendulum o = Ok (pendulum s)
  /\ map fst (energy_data s)
     = earlier_labels (Earlier.dimension (pendulum s))
  /\ Forall (fun series => series.2 = []) (energy_data s).
Proof.
  unfold earlier_startSimulation.
  destruct (Earlier.new_Pendulum o) as [p | e |]; simpl; try discriminate.
  intros [= <-]. simpl. split; [reflexivity|].
  rewrite !fold_left_push. simpl. unfold earlier_labels.
  split.
  - rewrite !map_app, !map_map. simpl. rewrite <- app_assoc. reflexivity.
  - rewrite !Forall_app. repeat split.
    + apply Forall_fmap, Forall_true. reflexivity.
    + apply Forall_fmap, Forall_true. reflexivity.
    + repeat constructor.
Qed.

(* ================================================================== *)
(** ** The added properties on concrete pendulums *)

(** The first hypothesis, checked by evaluation and kept for the theorem. *)
Ltac first_hypothesis H :=
  match goal with
  | |- ?W /\ _ => assert (H : W); [repeat split | split; [exact H|]]
  end.

Lemma joints_keep_link_lengths_witness :
  exists p,
    PendulumJs.new_Pendulum double_hanging = Ok p
    /\ wf p
    /\ exists pos,
        PendulumJs.getCartesianPositions p = Ok pos
        /\ length pos = PendulumJs.dimension p
        /\ forall i l xy,
            PendulumJs.lengths p !! i = Some l ->
            pos !! i = Some xy ->
            (xy.1 - (joint_before pos i).1) * (xy.1 - (joint_before pos i).1)
            + (xy.2 - (joint_before pos i).2)
              * (xy.2 - (joint_before pos i).2)
            = l * l.
Proof.
  eexists. split; [reflexivity|].
  first_hypothesis Hwf.
  exact (joints_keep_link_lengths _ Hwf).
Defined.

Lemma centres_of_mass_are_midpoints_witness :
  exists p,
    PendulumJs.new_Pendulum page_default = Ok p
    /\ wf p
    /\ exists com joints,
        PendulumJs.getCentersOfMass p = Ok com
        /\ PendulumJs.getCartesianPositions p = Ok joints
        /\ length com = PendulumJs.dimension p
        /\ length joints = PendulumJs.dimension p
        /\ forall i xy,
            joints !! i = Some xy ->
            com !! i = Some (if PendulumJs.compound p
                             then midpoint (joint_before joints i) xy
                             else xy).
Proof.
  eexists. split; [reflexivity|].
  first_hypothesis Hwf.
  exact (centres_of_mass_are_midpoints _ Hwf).
Defined.

Lemma point_mass_relative_speed_witness :
  exists p,
    PendulumJs.new_Pendulum double_hanging = Ok p
    /\ wf p
    /\ PendulumJs.compound p = false
    /\ exists vel,
        PendulumJs.getCartesianVelocities p = Ok vel
        /\ length vel = PendulumJs.dimension p
        /\ forall i l w v,
            PendulumJs.lengths p !! i = Some l ->
            PendulumJs.omegas p !! i = Some w ->
            vel !! i = Some v ->
            (v.1 - (joint_before vel i).1) * (v.1 - (joint_before vel i).1)
            + (v.2 - (joint_before vel i).2) * (v.2 - (joint_before vel i).2)
            = (l * w) * (l * w).
Proof.
  eexists. split; [reflexivity|].
  first_hypothesis Hwf. split; [reflexivity|].
  exact (point_mass_relative_speed _ Hwf eq_refl).
Defined.

Lemma energy_names_by_kind_witness :
  exists p,
    PendulumJs.new_Pendulum page_default = Ok p
    /\ let i := 0%nat in
       (i < PendulumJs.dimension p)%nat
       /\ let n := PendulumJs.dimension p in
          let names := PendulumJs.getEnergyNames p in
          names !! i = Some ("Kinetic " +:+ pretty (i + 1)%nat)
          /\ names !! (n + i)%nat
             = Some ("Potential " +:+ pretty (i + 1)%nat)
          /\ (PendulumJs.compound p = true ->
              names !! (2 * n + i)%nat
              = Some ("Angular " +:+ pretty (i + 1)%nat))
          /\ last names = Some "Total energy"%string
          /\ length names =
               (components_per_link (PendulumJs.compound p) * n + 1)%nat.
Proof.
  eexists. split; [reflexivity|]. intros i.
  assert (Hi : (i < 1)%nat) by (unfold i; lia).
  split; [exact Hi|].
  refine (energy_names_by_kind _ i _). exact Hi.
Defined.

Lemma energy_components_per_link_witness :
  exists p,
    PendulumJs.new_Pendulum page_default = Ok p
    /\ wf p
    /\ exists pos vel components total,
        PendulumJs.getCentersOfMass p = Ok pos
        /\ PendulumJs.getCartesianVelocities p = Ok vel
        /\ PendulumJs.getEnergy p = Ok (components ++ [total])
        /\ forall i m l w v xy,
            PendulumJs.masses p !! i = Some m ->
            PendulumJs.lengths p !! i = Some l ->
            PendulumJs.omegas p !! i = Some w ->
            vel !! i = Some v ->
            pos !! i = Some xy ->
            let c := components_per_link (PendulumJs.compound p) in
            components !! (c * i)%nat
              = Some (0.5 * m * (v.1 * v.1 + v.2 * v.2))
            /\ components !! (c * i + 1)%nat = Some (m * GRAVITY * xy.2)
            /\ (PendulumJs.compound p = true ->
                components !! (c * i + 2)%nat
                  = Some (1 / 24 * m * l * l * w * w)).
Proof.
  eexists. split; [reflexivity|].
  first_hypothesis Hwf.
  exact (energy_components_per_link _ Hwf).
Defined.

Lemma energy_total_is_sum_witness :
  exists p,
    PendulumJs.new_Pendulum double_hanging = Ok p
    /\ wf p
    /\ exists components total,
        PendulumJs.getEnergy p = Ok (components ++ [total])
        /\ total = Rsum components
        /\ length (components ++ [total])
           = length (PendulumJs.getEnergyNames p).
Proof.
  eexists. split; [reflexivity|].
  first_hypothesis Hwf.
  exact (energy_total_is_sum _ Hwf).
Defined.

Lemma single_pendulum_energy_witness :
  exists p,
    PendulumJs.new_Pendulum single_point_mass = Ok p
    /\ let l := 1 in
       let m := 2 in
       let t := Math_PI / 2 in
       let w := 0 in
       wf p
       /\ PendulumJs.dimension p = 1%nat
       /\ PendulumJs.lengths p !! 0%nat = Some l
       /\ PendulumJs.masses p !! 0%nat = Some m
       /\ PendulumJs.thetas p !! 0%nat = Some t
       /\ PendulumJs.omegas p !! 0%nat = Some w
       /\ exists T U,
           PendulumJs.getEnergy p = Ok [T; U; 0 + (T + U)]
           /\ T = 1 / 2 * m * (l * w) ^ 2
           /\ U = - (m * GRAVITY * l * cos t).
Proof.
  eexists. split; [reflexivity|]. intros l m t w.
  first_hypothesis Hwf.
  do 5 (split; [reflexivity|]).
  exact (single_pendulum_energy _ l m t w Hwf eq_refl eq_refl eq_refl
           eq_refl eq_refl).
Defined.

Lemma single_pendulum_equation_of_motion_witness :
  exists p,
    PendulumJs.new_Pendulum page_default = Ok p
    /\ let l := 1.2 in
       let m := 40 in
       let t := Math_PI / 2 in
       let w := 0 in
       wf p
       /\ PendulumJs.dimension p = 1%nat
       /\ PendulumJs.lengths p !! 0%nat = Some l
       /\ PendulumJs.masses p !! 0%nat = Some m
       /\ PendulumJs.thetas p !! 0%nat = Some t
       /\ PendulumJs.omegas p !! 0%nat = Some w
       /\ l <> 0
       /\ exists alpha,
           PendulumJs.computeAlphas (H := cramer_numeric)
             (PendulumJs.thetas p) [0] None p = Ok [alpha]
           /\ 1 / 3 * m * l ^ 2 * alpha
              = - (m * GRAVITY * (l / 2) * sin t).
Proof.
  eexists. split; [reflexivity|]. intros l m t w.
  first_hypothesis Hwf.
  do 5 (split; [reflexivity|]).
  assert (Hl : l <> 0) by (unfold l; lra).
  split; [exact Hl|].
  exact (single_pendulum_equation_of_motion (H := cramer_numeric) _ [0] None
           l m t w Hwf eq_refl eq_refl eq_refl eq_refl eq_refl Hl).
Defined.

Lemma double_pendulum_system_regular_witness :
  exists p,
    PendulumJs.new_Pendulum double_hanging = Ok p
    /\ PendulumJs.dimension p = 2%nat
    /\ PendulumJs.lengths p = [1; 1]
    /\ PendulumJs.masses p = [1; 1]
    /\ length [0; 0] = 2%nat
    /\ 0 < 1
    /\ exists a00 a01 a10 a11 b,
        PendulumJs.computeAlphas (H := cramer_numeric) [0; 0] [0; 0] None p
          = Ok (numeric_solve (Numeric := cramer_numeric)
                  [[a00; a01]; [a10; a11]] b)
        /\ length b = 2%nat
        /\ 0 < a00 * a11 - a01 * a10.
Proof.
  eexists. split; [reflexivity|].
  do 4 (split; [reflexivity|]).
  assert (H1 : 0 < 1) by lra. split; [exact H1|].
  refine (double_pendulum_system_regular (H := cramer_numeric) _ [0; 0]
            [0; 0] None 1 1 1 1 _ _ _ _ _ H1 H1 H1 H1); reflexivity.
Defined.

Lemma forward_euler_step_witness :
  exists p alphas,
    PendulumJs.new_Pendulum single_forward = Ok p
    /\ let dt := 0.005 in
       let tq := Some [0.5] in
       wf p
       /\ PendulumJs.integration_method_of p = FORWARD_EULER
       /\ PendulumJs.computeAlphas (H := cramer_numeric)
            (PendulumJs.thetas p) (PendulumJs.omegas p) tq p = Ok alphas
       /\ exists p',
           PendulumJs.takeStep (H := cramer_numeric) dt tq p = (Ok tt, p')
           /\ PendulumJs.thetas p' =
                forward_euler_thetas dt (PendulumJs.thetas p)
                  (PendulumJs.omegas p)
           /\ PendulumJs.omegas p' =
                semi_implicit_omegas dt (PendulumJs.omegas p) alphas
           /\ PendulumJs.time p' = PendulumJs.time p + dt.
Proof.
  eexists. eexists. split; [reflexivity|]. intros dt tq.
  first_hypothesis Hwf.
  split; [reflexivity|]. split; [reflexivity|].
  exact (forward_euler_step (H := cramer_numeric) _ dt tq _ Hwf eq_refl
           eq_refl).
Defined.

Lemma runge_kutta_step_witness :
  exists p a1 a2 a3 a4,
    PendulumJs.new_Pendulum page_default = Ok p
    /\ let dt := 0.005 in
       let tq := Some [0.5] in
       wf p
       /\ PendulumJs.integration_method_of p = RUNGE_KUTTA
       /\ let th := PendulumJs.thetas p in
          let w1 := PendulumJs.omegas p in
          let w2 := axpy (dt / 2) w1 a1 in
          let w3 := axpy (dt / 2) w1 a2 in
          let w4 := axpy dt w1 a3 in
          PendulumJs.computeAlphas (H := cramer_numeric) th w1 tq p = Ok a1
          /\ PendulumJs.computeAlphas (H := cramer_numeric)
               (axpy (dt / 2) th w1) w2 tq p = Ok a2
          /\ PendulumJs.computeAlphas (H := cramer_numeric)
               (axpy (dt / 2) th w2) w3 tq p = Ok a3
          /\ PendulumJs.computeAlphas (H := cramer_numeric)
               (axpy dt th w3) w4 tq p = Ok a4
          /\ exists p',
              PendulumJs.takeStep (H := cramer_numeric) dt tq p = (Ok tt, p')
              /\ PendulumJs.thetas p' = rk4_update dt th w1 w2 w3 w4
              /\ PendulumJs.omegas p' = rk4_update dt w1 a1 a2 a3 a4
              /\ PendulumJs.time p' = PendulumJs.time p + dt.
Proof.
  eexists. eexists. eexists. eexists. eexists.
  split; [reflexivity|]. intros dt tq.
  first_hypothesis Hwf.
  split; [reflexivity|]. intros th w1 w2 w3 w4.
  do 4 (split; [reflexivity|]).
  exact (runge_kutta_step (H := cramer_numeric) _ dt tq _ _ _ _ Hwf eq_refl
           eq_refl eq_refl eq_refl eq_refl).
Defined.

Lemma step_changes_angles_and_time_only_witness :
  exists p,
    PendulumJs.new_Pendulum three_links = Ok p
    /\ wf p
    /\ let p' := (PendulumJs.takeStep (H := cramer_numeric) 1 None p).2 in
       ((PendulumJs.takeStep (H := cramer_numeric) 1 None p).1 = Ok tt
        \/ (PendulumJs.takeStep (H := cramer_numeric) 1 None p).1
           = Throw unsupported_dimension)
       /\ PendulumJs.time p' = PendulumJs.time p + 1
       /\ length (PendulumJs.thetas p') = length (PendulumJs.thetas p)
       /\ length (PendulumJs.omegas p') = length (PendulumJs.omegas p)
       /\ PendulumJs.lengths p' = PendulumJs.lengths p
       /\ PendulumJs.masses p' = PendulumJs.masses p
       /\ PendulumJs.dimension p' = PendulumJs.dimension p
       /\ PendulumJs.compound p' = PendulumJs.compound p
       /\ PendulumJs.integration_method_of p'
          = PendulumJs.integration_method_of p
       /\ PendulumJs.radii p' = PendulumJs.radii p
       /\ PendulumJs.total_length p' = PendulumJs.total_length p
       /\ wf p'.
Proof.
  eexists. split; [reflexivity|].
  first_hypothesis Hwf.
  exact (step_changes_angles_and_time_only (H := cramer_numeric) _ 1 None Hwf).
Defined.

Lemma tick_appends_one_point_witness :
  exists s,
    startSimulation single_point_mass = Ok s
    /\ plot_ready s
    /\ exists s' energy,
        tick (H := cramer_numeric) true false s = (Ok tt, s')
        /\ tick (H := cramer_numeric) false false s = (Ok tt, s')
        /\ plot_ready s'
        /\ PendulumJs.time (pendulum s')
           = PendulumJs.time (pendulum s) + 0.005
        /\ PendulumJs.getEnergy (pendulum s') = Ok energy
        /\ length (energy_data s') = length (energy_data s)
        /\ forall i label data,
            energy_data s !! i = Some (label, data) ->
            exists e,
              energy !! i = Some e
              /\ energy_data s' !! i
                 = Some (label,
                         data ++ [(PendulumJs.time (pendulum s'), e)]).
Proof.
  eexists. split; [reflexivity|].
  match goal with
  | |- ?W /\ _ => assert (Hs : W)
  end.
  { split; [repeat split|]. split; [left; reflexivity | reflexivity]. }
  split; [exact Hs|].
  exact (tick_appends_one_point (H := cramer_numeric) _ true false Hs).
Defined.

Lemma variants_take_the_same_step_witness :
  exists p,
    PendulumJs.new_Pendulum single_point_mass = Ok p
    /\ let dt := 0.005 in
       wf p
       /\ PendulumJs.compound p = false
       /\ Earlier.takeStep (H := cramer_numeric) dt None (forget_compound p)
          = ((PendulumJs.takeStep (H := cramer_numeric) dt (Some [0.5]) p).1,
             forget_compound
               (PendulumJs.takeStep (H := cramer_numeric) dt (Some [0.5])
                  p).2).
Proof.
  eexists. split; [reflexivity|]. intros dt.
  first_hypothesis Hwf. split; [reflexivity|].
  exact (variants_take_the_same_step (H := cramer_numeric) _ dt (Some [0.5])
           None Hwf eq_refl).
Defined.

Lemma earlier_total_energy_is_sum_witness :
  exists p,
    Earlier.new_Pendulum double_at_right_angle = Ok p
    /\ wf_earlier p
    /\ exists kinetic potential,
        Earlier.getEnergy p = Ok (kinetic, potential)
        /\ length kinetic = Earlier.dimension p
        /\ length potential = Earlier.dimension p
        /\ Earlier.getTotalEnergy p = Ok (Rsum kinetic + Rsum potential).
Proof.
  eexists. split; [reflexivity|].
  first_hypothesis Hwf.
  exact (earlier_total_energy_is_sum _ Hwf).
Defined.

Lemma earlier_series_receive_their_energy_witness :
  exists s,
    earlier_startSimulation double_at_right_angle = Ok s
    /\ wf_earlier (pendulum s)
    /\ map fst (energy_data s)
       = earlier_labels (Earlier.dimension (pendulum s))
    /\ let n := Earlier.dimension (pendulum s) in
       let t := Earlier.time (pendulum s) in
       exists s' kinetic potential,
         earlier_update_energy_data s = (Ok tt, s')
         /\ Earlier.getEnergy (pendulum s) = Ok (kinetic, potential)
         /\ pendulum s' = pendulum s
         /\ map fst (energy_data s') = earlier_labels n
         /\ (forall i k,
               kinetic !! i = Some k ->
               exists data,
                 energy_data s !! i
                   = Some ("Kinetic " +:+ pretty (i + 1)%nat, data)
                 /\ energy_data s' !! i
                    = Some ("Kinetic " +:+ pretty (i + 1)%nat,
                            data ++ [(t, k)]))
         /\ (forall i u,
               potential !! i = Some u ->
               exists data,
                 energy_data s !! (i + n)%nat
                   = Some ("Potential " +:+ pretty (i + 1)%nat, data)
                 /\ energy_data s' !! (i + n)%nat
                    = Some ("Potential " +:+ pretty (i + 1)%nat,
                            data ++ [(t, u)]))
         /\ (exists data,
               energy_data s !! (2 * n)%nat
                 = Some ("Total energy"%string, data)
               /\ energy_data s' !! (2 * n)%nat
                  = Some ("Total energy"%string,
                          data ++ [(t, Rsum kinetic + Rsum potential)])).
Proof.
  eexists. split; [reflexivity|].
  first_hypothesis Hwf.
  match goal with
  | |- ?L /\ _ => assert (Hl : L) by reflexivity
  end.
  split; [exact Hl|].
  exact (earlier_series_receive_their_energy _ Hwf Hl).
Defined.

(* ================================================================== *)
(** ** Drawing stays on the canvas *)

Lemma fold_left_Rplus (l : list R) (a : R) :
  fold_left Rplus l a = a + Rsum l.
Proof.
  revert a. unfold Rsum.
  induction l as [|x l IH]; intros a; simpl; [lra|]. rewrite IH. lra.
Qed.

Lemma Rsum_nonneg (l : list R) : Forall (fun x => 0 <= x) l -> 0 <= Rsum l.
Proof.
  unfold Rsum. induction 1 as [|x l Hx _ IH]; simpl; lra.
Qed.

Lemma Rsum_take_le (l : list R) (k : nat) :
  Forall (fun x => 0 <= x) l -> Rsum (take k l) <= Rsum l.
Proof.
  intros Hl. rewrite <- (take_drop k l) at 2. rewrite Rsum_app.
  pose proof (Rsum_nonneg (drop k l) (Forall_drop _ _ _ Hl)). lra.
Qed.

(** The radius of a link of positive length whose mass is not negative. *)
Lemma radius_nonneg (compound : bool) (x : R * R) :
  0 <= x.1 -> 0 < x.2 -> 0 <= PendulumJs.radius compound x.
Proof.
  intros _ _.
  unfold PendulumJs.radius, Math_sqrt, Math_pow. destruct compound.
  - apply sqrt_pos.
  - destruct (Rle_dec _ 0); [lra|]. unfold Rpower. left. apply exp_pos.
Qed.

(** Every joint is within the sum of the lengths of the origin, in both
    coordinates. *)
Lemma joints_within_reach (p : PendulumJs.Pendulum) :
  wf p ->
  Forall (fun l => 0 <= l) (PendulumJs.lengths p) ->
  exists pos,
    PendulumJs.getCartesianPositions p = Ok pos
    /\ length pos = PendulumJs.dimension p
    /\ forall i xy,
        pos !! i = Some xy ->
        within (Rsum (PendulumJs.lengths p)) xy.1
        /\ within (Rsum (PendulumJs.lengths p)) xy.2.
Proof.
  intros (Hl & _ & Ht & _) Hpos.
  unfold PendulumJs.getCartesianPositions.
  set (body := fun (i : nat) '(sx, sy, pos) => _).
  destruct (for_pure_invariant
              (fun k '(sx, sy, pos) =>
                 let reach := Rsum (take k (PendulumJs.lengths p)) in
                 length pos = k
                 /\ within reach sx /\ within reach sy
                 /\ forall i xy, pos !! i = Some xy ->
                      within reach xy.1 /\ within reach xy.2)
              body (PendulumJs.dimension p) 0 (0, 0, []))
    as ([[sx sy] pos] & Hrun & Hlen & _ & _ & Hin).
  - cbv zeta. unfold within, Rsum. simpl.
    split; [reflexivity|]. split; [lra|]. split; [lra|].
    intros i xy Hi. discriminate.
  - intros i [[sx sy] pos] Hi (Hlen & Hx & Hy & Hin).
    destruct (lookup_lt_length_Some _ i _ Hl) as (l & El); [lia|].
    destruct (lookup_lt_length_Some _ i _ Ht) as (t & Et); [lia|].
    assert (Hl0 : 0 <= l)
      by (exact (proj1 (Forall_lookup _ _) Hpos i l El)).
    eexists. split.
    { unfold body. rewrite (index_Some _ _ _ El), (index_Some _ _ _ Et).
      reflexivity. }
    cbv beta iota zeta. rewrite (Rsum_take_S _ _ _ El).
    pose proof (SIN_bound t) as [Hs1 Hs2].
    pose proof (COS_bound t) as [Hc1 Hc2].
    unfold Math_sin, Math_cos.
    assert (Hx' : within (Rsum (take i (PendulumJs.lengths p)) + l)
                    (sx + l * sin t)).
    { unfold within in *. split; nra. }
    assert (Hy' : within (Rsum (take i (PendulumJs.lengths p)) + l)
                    (sy - l * cos t)).
    { unfold within in *. split; nra. }
    split; [rewrite length_app; simpl; lia|].
    split; [exact Hx'|]. split; [exact Hy'|].
    intros j xy Ej.
    apply lookup_app_Some in Ej.
    destruct Ej as [Ej | (_ & Ej)].
    + destruct (Hin j xy Ej). unfold within in *. split; lra.
    + destruct (j - length pos)%nat; [|discriminate].
      injection Ej as <-. split; assumption.
  - exists pos. rewrite Hrun. split; [reflexivity|]. split; [exact Hlen|].
    intros i xy Ei. destruct (Hin i xy Ei) as (H1 & H2).
    pose proof (Rsum_take_le (PendulumJs.lengths p) (0 + PendulumJs.dimension p)
                  Hpos).
    unfold within in *. split; lra.
Qed.

Lemma radii_nonneg (o : PendulumJs.Options) (p : PendulumJs.Pendulum) :
  PendulumJs.new_Pendulum o = Ok p ->
  Forall (fun ell => 0 < ell) (PendulumJs.lengths p) ->
  Forall (fun m => 0 <= m) (PendulumJs.masses p) ->
  Forall (fun r => 0 <= r) (PendulumJs.radii p)
  /\ length (PendulumJs.radii p) = PendulumJs.dimension p.
Proof.
  intros Hp Hlen Hmass. pose proof (new_Pendulum_wf _ _ Hp) as (Hl & Hm & _).
  apply new_Pendulum_ok in Hp.
  destruct Hp as (_ & El & Em & _ & _ & _ & Ed & -> & _).
  rewrite <- El, <- Em. split.
  - apply Forall_fmap, Forall_forall. intros [m ell] Hx. simpl.
    apply radius_nonneg; simpl.
    + apply elem_of_zip_l in Hx.
      exact (proj1 (Forall_forall _ _) Hmass m Hx).
    + apply elem_of_zip_r in Hx.
      exact (proj1 (Forall_forall _ _) Hlen ell Hx).
  - rewrite length_map, length_zip. lia.
Qed.

Lemma total_length_reach (o : PendulumJs.Options) (p : PendulumJs.Pendulum)
  (total : R) :
  PendulumJs.new_Pendulum o = Ok p ->
  Forall (fun r => 0 <= r) (PendulumJs.radii p) ->
  PendulumJs.total_length p = Some total ->
  Rsum (PendulumJs.lengths p) <= total.
Proof.
  intros Hp Hrad Ht.
  unfold PendulumJs.new_Pendulum in Hp.
  destruct (_ || _); [discriminate|]. injection Hp as <-. simpl in *.
  destruct (last _) as [r|] eqn:Hlast; [|discriminate].
  injection Ht as <-. rewrite fold_left_Rplus.
  apply last_Some_elem_of in Hlast.
  pose proof (proj1 (Forall_forall _ _) Hrad r Hlast). lra.
Qed.

(** A point scaled as [draw] scales it lies on the canvas when it is within
    the total length of the origin. *)
Lemma scaled_on_canvas (width height total x y : R) :
  0 <= width -> 0 <= height -> 0 < total ->
  within total x -> within total y ->
  let scale := 0.5 * Math_min width height / total in
  0 <= width / 2 + scale * x <= width
  /\ 0 <= height / 2 - scale * y <= height.
Proof.
  intros Hw Hh Ht Hx Hy scale.
  assert (Hm1 : Rmin width height <= width) by apply Rmin_l.
  assert (Hm2 : Rmin width height <= height) by apply Rmin_r.
  assert (Hm0 : 0 <= Rmin width height) by (apply Rmin_glb; assumption).
  assert (Hs : 0 <= scale).
  { unfold scale, Math_min. apply Rmult_le_pos; [lra|].
    left. apply Rinv_0_lt_compat, Ht. }
  assert (Hst : scale * total = 0.5 * Rmin width height).
  { unfold scale, Math_min. field. lra. }
  unfold within in Hx, Hy.
  assert (Hsx : - (scale * total) <= scale * x <= scale * total)
    by (split; nra).
  assert (Hsy : - (scale * total) <= scale * y <= scale * total)
    by (split; nra).
  rewrite Hst in Hsx, Hsy. split; split; lra.
Qed.

Lemma Rsum_positive (l : list R) :
  Forall (fun x => 0 < x) l -> l <> [] -> 0 < Rsum l.
Proof.
  unfold Rsum. intros Hl Hne. destruct Hl as [|x l Hx Hl]; [congruence|].
  simpl. pose proof (Rsum_nonneg l) as Hn. unfold Rsum in Hn.
  assert (0 <= foldr Rplus 0 l); [|lra].
  apply Hn. eapply Forall_impl; [exact Hl|]. simpl. intros. lra.
Qed.

(** Without links [draw] clears the canvas and does nothing else. *)
Lemma draw_no_links (p : PendulumJs.Pendulum) (width height : R) :
  PendulumJs.dimension p = 0%nat ->
  draw width height p = Ok [ClearRect 0 0 width height].
Proof.
  intros Hd. unfold draw, PendulumJs.getCartesianPositions.
  rewrite Hd. reflexivity.
Qed.

(** What [draw] needs of a pendulum to keep its drawing on the canvas: the
    joints stay within the sum of the lengths, which is at most the total
    length. *)
Lemma draw_within (p : PendulumJs.Pendulum) (total width height : R) :
  wf p ->
  length (PendulumJs.radii p) = PendulumJs.dimension p ->
  Forall (fun l => 0 <= l) (PendulumJs.lengths p) ->
  Forall (fun r => 0 <= r) (PendulumJs.radii p) ->
  PendulumJs.total_length p = Some total ->
  Rsum (PendulumJs.lengths p) <= total ->
  0 < total ->
  0 <= width -> 0 <= height ->
  exists calls,
    draw width height p = Ok calls
    /\ Forall (on_canvas width height) calls.
Proof.
  intros Hwf Hradii Hlen Hrad Htotal Hreach Ht Hw Hh.
  destruct (joints_within_reach p Hwf Hlen) as (pos & Hpos & Hposlen & Hin).
  unfold draw, total_length_operand. rewrite Htotal, Hpos.
  cbn [mbind result_bind].
  set (scale := 0.5 * Math_min width height / total).
  assert (Hscale : 0 <= scale).
  { unfold scale, Math_min.
    assert (0 <= Rmin width height) by (apply Rmin_glb; assumption).
    apply Rmult_le_pos; [lra|]. left. apply Rinv_0_lt_compat, Ht. }
  assert (Hpoint : forall i xy, pos !! i = Some xy ->
            0 <= width / 2 + scale * xy.1 <= width
            /\ 0 <= height / 2 - scale * xy.2 <= height).
  { intros i xy Hi. destruct (Hin i xy Hi) as (Hx & Hy).
    apply scaled_on_canvas; try assumption.
    all: unfold within in *; lra. }
  assert (Hcentre : 0 <= width / 2 <= width /\ 0 <= height / 2 <= height)
    by lra.
  match goal with
  | |- exists calls, for_pure 0 ?n ?body ?init = _ /\ _ =>
      destruct (for_pure_invariant
                  (fun _ calls => Forall (on_canvas width height) calls)
                  body n 0 init) as (calls & Hrun & Hcalls)
  end.
  - apply Forall_cons. split; [exact I | apply Forall_nil_2].
  - intros i calls Hi Hcalls.
    destruct (lookup_lt_length_pair _ i _ Hposlen) as (here & Ehere); [lia|].
    destruct (lookup_lt_length_Some _ i _ Hradii) as (r & Er); [lia|].
    assert (Hr : 0 <= scale * r).
    { apply Rmult_le_pos; [exact Hscale|].
      exact (proj1 (Forall_lookup _ _) Hrad i r Er). }
    assert (Hstart : exists start,
              (if (i =? 0)%nat then Ok (width / 2, height / 2)
               else
                 before ← index_pair pos (i - 1);
                 Ok (width / 2 + scale * before.1,
                     height / 2 - scale * before.2)) = Ok start
              /\ 0 <= start.1 <= width /\ 0 <= start.2 <= height).
    { destruct (i =? 0)%nat eqn:Ei.
      - eexists. split; [reflexivity|]. exact Hcentre.
      - apply Nat.eqb_neq in Ei.
        destruct (lookup_lt_length_pair _ (i - 1) _ Hposlen)
          as (before & Ebefore); [lia|].
        rewrite (index_pair_Some _ _ _ Ebefore). eexists.
        split; [reflexivity|]. exact (Hpoint _ _ Ebefore). }
    destruct Hstart as ([x0 y0] & Estart & Hstart).
    cbn [mbind result_bind]. rewrite Estart.
    rewrite (index_pair_Some _ _ _ Ehere), (index_Some _ _ _ Er).
    eexists. split; [reflexivity|].
    pose proof (Hpoint _ _ Ehere) as Hhere.
    destruct (PendulumJs.compound p).
    all: repeat (apply Forall_app; split); try exact Hcalls.
    all: repeat (apply Forall_cons; split); try apply Forall_nil_2.
    all: try exact I.
    all: cbn [on_canvas fst snd] in *; tauto.
  - exists calls. split; [exact Hrun | exact Hcalls].
Qed.

(** X20.  [draw] of a constructed pendulum of positive lengths and masses,
    with the links at whatever angles, on a canvas of any size: it
    completes, every point it names (the ends of each link's line and the
    centre of each circle) lies on the canvas, and no circle has a negative
    radius. *)
Theorem draw_stays_on_canvas (o : PendulumJs.Options)
  (p : PendulumJs.Pendulum) (th : list R) (width height : R) :
  PendulumJs.new_Pendulum o = Ok p ->
  positive_links p ->
  length th = PendulumJs.dimension p ->
  0 <= width -> 0 <= height ->
  exists calls,
    draw width height (PendulumJs.set_thetas th p) = Ok calls
    /\ Forall (on_canvas width height) calls.
Proof.
  intros Hp (Hlen & Hmass') Hth Hw Hh.
  assert (Hmass : Forall (fun m => 0 <= m) (PendulumJs.masses p)).
  { eapply Forall_impl; [exact Hmass'|]. simpl. intros. lra. }
  pose proof (new_Pendulum_wf _ _ Hp) as Hwf.
  destruct (radii_nonneg o p Hp Hlen Hmass) as (Hrad & Hradii).
  destruct (PendulumJs.lengths p) as [|l ls] eqn:El.
  { destruct Hwf as (Hd & _). rewrite El in Hd. simpl in Hd.
    rewrite draw_no_links by (simpl; congruence).
    eexists. split; [reflexivity|].
    apply Forall_cons. split; [exact I | apply Forall_nil_2]. }
  assert (Htotal : exists total, PendulumJs.total_length p = Some total).
  { pose proof Hp as Hp'. unfold PendulumJs.new_Pendulum in Hp'.
    destruct (_ || _); [discriminate|]. injection Hp' as <-. simpl in *.
    destruct Hwf as (_ & Hm & _). simpl in Hm. rewrite El in *.
    destruct (PendulumJs.opt_masses o) as [|m ms]; [discriminate|].
    simpl. destruct (last _) eqn:Hlast; [eauto|].
    apply last_None in Hlast. apply fmap_nil_inv in Hlast.
    destruct ms; simpl in Hlast; try discriminate.
    all: destruct ls; simpl in Hlast; discriminate. }
  destruct Htotal as (total & Htotal).
  pose proof (total_length_reach o p total Hp Hrad Htotal) as Hreach.
  assert (Hsum : 0 < Rsum (PendulumJs.lengths p)).
  { rewrite El. apply Rsum_positive; [exact Hlen | discriminate]. }
  apply (draw_within _ total).
  - destruct Hwf as (W1 & W2 & W3 & W4). unfold wf. simpl.
    repeat split; congruence.
  - exact Hradii.
  - simpl. rewrite El. eapply Forall_impl; [exact Hlen|]. simpl. intros. lra.
  - exact Hrad.
  - exact Htotal.
  - exact Hreach.
  - lra.
  - exact Hw.
  - exact Hh.
Qed.

Lemma draw_stays_on_canvas_witness :
  exists p,
    PendulumJs.new_Pendulum page_default = Ok p
    /\ positive_links p
    /\ length [0] = PendulumJs.dimension p
    /\ 0 <= 600
    /\ 0 <= 400
    /\ exists calls,
        draw 600 400 (PendulumJs.set_thetas [0] p) = Ok calls
        /\ Forall (on_canvas 600 400) calls.
Proof.
  eexists. split; [reflexivity|].
  match goal with
  | |- positive_links ?p /\ _ =>
      assert (Hp : PendulumJs.new_Pendulum page_default = Ok p)
        by reflexivity;
      assert (Hpos : positive_links p)
        by (split; (apply Forall_cons; split; [lra | apply Forall_nil_2]))
  end.
  assert (Hw : 0 <= 600) by lra.
  assert (Hh : 0 <= 400) by lra.
  split; [exact Hpos|]. split; [reflexivity|].
  split; [exact Hw|]. split; [exact Hh|].
  exact (draw_stays_on_canvas _ _ [0] 600 400 Hp Hpos eq_refl Hw Hh).
Defined.

(* ================================================================== *)
(** ** The two drawing functions of the earlier variant *)

(** Two loops over the same range that keep a relation between their
    states both complete, in related states. *)
Lemma for_pure_related {A B} (Rel : nat -> A -> B -> Prop)
  (f : nat -> A -> result A) (g : nat -> B -> result B) (count : nat) :
  forall (from : nat) (a : A) (b : B),
  Rel from a b ->
  (forall i a b, (from <= i < from + count)%nat -> Rel i a b ->
     exists a' b', f i a = Ok a' /\ g i b = Ok b' /\ Rel (S i) a' b') ->
  exists a' b',
    for_pure from count f a = Ok a'
    /\ for_pure from count g b = Ok b'
    /\ Rel (from + count)%nat a' b'.
Proof.
  induction count as [|count IH]; intros from a b Hrel Hstep; simpl.
  - exists a, b. rewrite Nat.add_0_r. auto.
  - destruct (Hstep from a b) as (a' & b' & Ha & Hb & Hrel');
      [lia | exact Hrel |].
    rewrite Ha, Hb. simpl.
    destruct (IH (S from) a' b' Hrel') as (a'' & b'' & Ha' & Hb' & Hfin).
    { intros i x y Hi. apply Hstep. lia. }
    exists a'', b''. split; [exact Ha'|]. split; [exact Hb'|].
    replace (from + S count)%nat with (S from + count)%nat by lia.
    exact Hfin.
Qed.

Lemma earlier_positions_joints (p : Earlier.Pendulum) :
  wf_earlier p ->
  exists pos,
    Earlier.getCartesianPositions p = Ok pos
    /\ length pos = Earlier.dimension p
    /\ joints_of (Earlier.lengths p) (Earlier.thetas p) pos.
Proof.
  intros (Hl & _ & Ht & _).
  unfold Earlier.getCartesianPositions.
  set (body := fun (i : nat) '(sx, sy, pos) => _).
  destruct (for_pure_invariant
              (fun k '(sx, sy, pos) =>
                 length pos = k
                 /\ joint_before pos k = (sx, sy)
                 /\ forall i l t, (i < k)%nat ->
                      Earlier.lengths p !! i = Some l ->
                      Earlier.thetas p !! i = Some t ->
                      pos !! i = Some ((joint_before pos i).1 + l * sin t,
                                       (joint_before pos i).2 - l * cos t))
              body (Earlier.dimension p) 0 (0, 0, []))
    as ([[sx sy] pos] & Hrun & Hlen & _ & Hpos).
  - split; [reflexivity|]. split; [reflexivity|]. intros i l t Hi. lia.
  - intros i [[sx sy] pos] Hi (Hlen & Hlast & Hpos).
    destruct (lookup_lt_length_Some _ i _ Hl) as (l & El); [lia|].
    destruct (lookup_lt_length_Some _ i _ Ht) as (t & Et); [lia|].
    eexists. split.
    { unfold body. rewrite (index_Some _ _ _ El), (index_Some _ _ _ Et).
      reflexivity. }
    split; [rewrite length_app; simpl; lia|].
    split; [rewrite <- Hlen; apply joint_before_end|].
    intros j l' t' Hj El' Et'.
    rewrite joint_before_app by lia.
    destruct (decide (j = i)) as [-> | Hne].
    + rewrite lookup_app_r by lia.
      replace (i - length pos)%nat with 0%nat by lia.
      rewrite Hlast. simpl. unfold Math_sin, Math_cos. congruence.
    + rewrite lookup_app_l by lia. apply Hpos; [lia | assumption..].
  - exists pos. rewrite Hrun. simpl. split; [reflexivity|].
    split; [exact Hlen|].
    intros i l t El Et. apply Hpos; [|assumption..].
    apply lookup_lt_Some in El. lia.
Qed.

(** X21.  In the earlier variant the drawing function the timer calls
    ([new_draw], which scales the joints of [getCartesianPositions]) and the
    one nothing calls ([draw], which walks the links itself with y growing
    downwards) make the same calls on the context, whatever the number of
    links, when the four arrays and the radii have [dimension] entries and
    the total length is a number other than zero (so that the scale is a
    number): one [clearRect] and seven calls for each link. *)
Theorem earlier_draws_agree (p : Earlier.Pendulum) (total width height : R) :
  wf_earlier p ->
  length (Earlier.radii p) = Earlier.dimension p ->
  Earlier.total_length p = Some total ->
  total <> 0 ->
  exists calls,
    earlier_new_draw width height p = Ok calls
    /\ earlier_draw width height p = Ok calls
    /\ length calls = (1 + 7 * Earlier.dimension p)%nat.
Proof.
  intros Hwf Hradii Htotal _.
  destruct (earlier_positions_joints p Hwf) as (pos & Hpos & Hposlen & Hjoints).
  destruct Hwf as (Hl & Hm & Ht & _).
  assert (Hrows : zip_rows p = Earlier.dimension p)
    by (unfold zip_rows; lia).
  unfold earlier_new_draw, earlier_draw, earlier_total_length_operand.
  rewrite Htotal, Hpos, Hrows. cbn [mbind result_bind].
  set (scale := 0.5 * Math_min width height / total).
  match goal with
  | |- exists calls, for_pure 0 ?n ?f ?a = _
                     /\ (mbind _ (for_pure 0 ?n ?g ?b)) = _ /\ _ =>
      destruct (for_pure_related
                  (fun i calls '(x0, y0, calls') =>
                     calls' = calls
                     /\ length calls = (1 + 7 * i)%nat
                     /\ x0 = width / 2 + scale * (joint_before pos i).1
                     /\ y0 = height / 2 - scale * (joint_before pos i).2)
                  f g n 0 a b)
        as (calls & [[x0 y0] calls'] & Hf & Hg & -> & Hcount & _)
  end.
  - split; [reflexivity|]. split; [reflexivity|]. simpl. split; lra.
  - intros i calls [[x0 y0] calls'] Hi (-> & Hcount & Hx & Hy).
    destruct (lookup_lt_length_Some _ i _ Hl) as (l & El); [lia|].
    destruct (lookup_lt_length_Some _ i _ Ht) as (t & Et); [lia|].
    destruct (lookup_lt_length_Some _ i _ Hradii) as (r & Er); [lia|].
    pose proof (Hjoints i l t El Et) as Ehere.
    assert (Hstart :
              (if (i =? 0)%nat then Ok (width / 2, height / 2)
               else
                 before ← index_pair pos (i - 1);
                 Ok (width / 2 + scale * before.1,
                     height / 2 - scale * before.2)) = Ok (x0, y0)).
    { destruct i as [|j]; simpl.
      - simpl in Hx, Hy. do 2 f_equal; lra.
      - rewrite Nat.sub_0_r.
        destruct (lookup_lt_length_pair _ j _ Hposlen)
          as (before & Ebefore); [lia|].
        rewrite (index_pair_Some _ _ _ Ebefore). simpl.
        simpl in Hx, Hy. rewrite Ebefore in Hx, Hy. simpl in Hx, Hy.
        rewrite Hx, Hy. reflexivity. }
    rewrite Hstart.
    rewrite (index_pair_Some _ _ _ Ehere).
    rewrite (index_Some _ _ _ El), (index_Some _ _ _ Et),
      (index_Some _ _ _ Er).
    eexists. eexists. split; [reflexivity|]. split; [reflexivity|].
    cbv beta iota zeta. cbn [fst snd].
    assert (Ex : width / 2
                 + scale * ((joint_before pos i).1 + l * sin t)
                 = x0 + scale * Math_sin t * l)
      by (rewrite Hx; unfold Math_sin; ring).
    assert (Ey : height / 2
                 - scale * ((joint_before pos i).2 - l * cos t)
                 = y0 + scale * Math_cos t * l)
      by (rewrite Hy; unfold Math_cos; ring).
    rewrite Ex, Ey.
    split; [reflexivity|].
    split; [rewrite length_app; simpl; lia|].
    cbn [joint_before]. rewrite Ehere. cbn [default fst snd].
    rewrite <- Ex, <- Ey. split; reflexivity.
  - exists calls. rewrite Hf, Hg. split; [reflexivity|].
    split; [reflexivity|]. exact Hcount.
Qed.

Lemma earlier_radius_nonneg (m : R) : 0 <= Earlier.radius m.
Proof.
  unfold Earlier.radius, Math_pow.
  destruct (Rle_dec _ 0); [lra|]. unfold Rpower. left. apply exp_pos.
Qed.

Lemma earlier_draws_agree_witness :
  exists p total,
    Earlier.new_Pendulum double_at_right_angle = Ok p
    /\ wf_earlier p
    /\ length (Earlier.radii p) = Earlier.dimension p
    /\ Earlier.total_length p = Some total
    /\ total <> 0
    /\ exists calls,
        earlier_new_draw 600 400 p = Ok calls
        /\ earlier_draw 600 400 p = Ok calls
        /\ length calls = (1 + 7 * Earlier.dimension p)%nat.
Proof.
  eexists. eexists. split; [reflexivity|].
  first_hypothesis Hwf.
  match goal with
  | |- ?L /\ _ => assert (Hr : L) by reflexivity
  end.
  split; [exact Hr|].
  match goal with
  | |- ?P = Some _ /\ _ => assert (Ht : P = Some (0 + 1 + 1 + Earlier.radius 1))
      by reflexivity
  end.
  split; [exact Ht|].
  assert (Hne : 0 + 1 + 1 + Earlier.radius 1 <> 0).
  { pose proof (earlier_radius_nonneg 1). lra. }
  split; [exact Hne|].
  exact (earlier_draws_agree _ _ 600 400 Hwf Hr Ht Hne).
Defined.

(* ================================================================== *)
(** ** The callbacks of the timers *)

(** A pendulum [draw] can read its radii and total length from. *)
Lemma draw_returns (p : PendulumJs.Pendulum) (total width height : R) :
  wf p ->
  length (PendulumJs.radii p) = PendulumJs.dimension p ->
  PendulumJs.total_length p = Some total ->
  exists calls, draw width height p = Ok calls.
Proof.
  intros Hwf Hradii Htotal.
  destruct (getCartesianPositions_joints p Hwf) as (pos & Hpos & Hposlen & _).
  unfold draw, total_length_operand. rewrite Htotal, Hpos.
  cbn [mbind result_bind].
  match goal with
  | |- exists calls, for_pure 0 ?n ?body ?init = _ =>
      destruct (for_pure_invariant (fun _ _ => True) body n 0 init)
        as (calls & Hrun & _)
  end.
  - exact I.
  - intros i calls Hi _.
    destruct (lookup_lt_length_pair _ i _ Hposlen) as (here & Ehere); [lia|].
    destruct (lookup_lt_length_Some _ i _ Hradii) as (r & Er); [lia|].
    cbn [mbind result_bind].
    destruct (i =? 0)%nat eqn:Ei.
    + rewrite (index_pair_Some _ _ _ Ehere), (index_Some _ _ _ Er).
      eexists. split; [reflexivity | exact I].
    + apply Nat.eqb_neq in Ei.
      destruct (lookup_lt_length_pair _ (i - 1) _ Hposlen)
        as (before & Ebefore); [lia|].
      rewrite (index_pair_Some _ _ _ Ebefore).
      cbn [mbind result_bind].
      rewrite (index_pair_Some _ _ _ Ehere), (index_Some _ _ _ Er).
      eexists. split; [reflexivity | exact I].
  - exists calls. exact Hrun.
Qed.

Lemma points_after_le (cs : list callback) :
  forall n, (points_after n cs <= n + steps_of cs)%nat.
Proof.
  induction cs as [|[f j | w h |] cs IH]; intros n; simpl.
  - lia.
  - specialize (IH (S n)). lia.
  - apply IH.
  - specialize (IH (Nat.min n max_length)). lia.
Qed.

Section Timers.
Context `{Numeric}.

Lemma tick_same_frame (s : Simulation) (f_down j_down : bool) :
  plot_ready s ->
  same_frame
    (PendulumJs.set_time (PendulumJs.time (pendulum s) + 0.005) (pendulum s))
    (pendulum (tick f_down j_down s).2).
Proof.
  intros (Hwf & Hs & Hlabels).
  set (tq := Some [if j_down
                   then (if f_down then 0 + 0.5 else 0) - 0.5
                   else (if f_down then 0 + 0.5 else 0)]).
  destruct (takeStep_returns (pendulum s) 0.005 tq Hwf Hs) as (p' & Hstep).
  pose proof (takeStep_frame (pendulum s) 0.005 tq) as Hf.
  rewrite Hstep in Hf. cbn [snd] in Hf.
  assert (Hwf' : wf p').
  { unfold same_frame in Hf. simpl in Hf.
    destruct Hf as (Hl & Hm & _ & _ & Hd & _ & _ & _ & Hth & Hom).
    destruct Hwf as (W1 & W2 & W3 & W4). unfold wf.
    repeat split; congruence. }
  destruct (energy_total_is_sum_helper p' Hwf')
    as (components & total & He & Hlen).
  destruct (update_energy_data_appends (set_pendulum p' s)
              (components ++ [total])) as (s' & Hupd & Hp & _).
  { exact He. }
  { unfold same_frame in Hf. simpl in Hf.
    destruct Hf as (_ & _ & _ & Hc & Hd & _).
    simpl. rewrite Hlen, (getEnergyNames_frame (pendulum s) p' Hd Hc),
      <- Hlabels, length_map. reflexivity. }
  unfold tick, st_bind, on_pendulum. fold tq. rewrite Hstep, Hupd.
  cbn [snd]. rewrite Hp. exact Hf.
Qed.

Lemma run_callback_running (c : callback) (n : nat) (s : Simulation) :
  running n s ->
  exists s',
    run_callback c s = (Ok tt, s')
    /\ running (points_after n [c]) s'
    /\ PendulumJs.time (pendulum s')
       = PendulumJs.time (pendulum s) + INR (steps_of [c]) * 0.005.
Proof.
  intros (Hready & Hradii & (total & Htotal) & Hpoints).
  destruct c as [f_down j_down | width height |].
  - destruct (tick_appends s f_down j_down Hready)
      as (s' & energy & Htick & Hready' & Ht & _ & Hlen & Hpts).
    pose proof (tick_same_frame s f_down j_down Hready) as Hf.
    rewrite Htick in Hf. unfold same_frame in Hf. simpl in Hf.
    destruct Hf as (_ & _ & _ & _ & Hd & Hr & Htl & _).
    exists s'. split; [exact Htick|]. split.
    + split; [exact Hready'|]. split; [congruence|].
      split; [exists total; congruence|].
      apply Forall_lookup. intros i [label' data'] Es'.
      assert (Hsome : exists series, energy_data s !! i = Some series).
      { destruct (energy_data s !! i) eqn:E; [eauto|].
        apply lookup_ge_None in E. apply lookup_lt_Some in Es'. lia. }
      destruct Hsome as ([label data] & Es).
      pose proof (proj1 (Forall_lookup _ _) Hpoints i _ Es) as Hn.
      destruct (Hpts i label data Es) as (e & _ & Es'').
      rewrite Es'' in Es'. injection Es' as <- <-.
      simpl in *. rewrite length_app. simpl. lia.
    + rewrite Ht. simpl. lra.
  - destruct Hready as (Hwf & Hready).
    destruct (draw_returns (pendulum s) total (INR width) (INR height)
                Hwf Hradii Htotal) as (calls & Hdraw).
    exists s. split.
    { unfold run_callback, st_bind, call. rewrite Hdraw. reflexivity. }
    split.
    + split; [exact (conj Hwf Hready)|]. split; [exact Hradii|].
      split; [exists total; exact Htotal | exact Hpoints].
    + simpl. lra.
  - exists (set_energy_data (map trim_series (energy_data s)) s).
    split; [reflexivity|]. cbn [pendulum energy_data set_energy_data].
    split.
    + split.
      { destruct Hready as (Hwf & Hs & Hlabels).
        split; [exact Hwf|]. split; [exact Hs|].
        cbn [pendulum energy_data set_energy_data].
        rewrite <- Hlabels, map_map. apply map_ext.
        intros [label data]. rewrite trim_series_drop. reflexivity. }
      split; [exact Hradii|]. split; [exists total; exact Htotal|].
      cbn [pendulum energy_data set_energy_data].
      apply Forall_fmap. eapply Forall_impl; [exact Hpoints|].
      intros [label data] Hn. unfold compose.
      rewrite trim_series_drop. simpl in *. rewrite length_drop. lia.
    + simpl. lra.
Qed.

Lemma run_callbacks_running (cs : list callback) :
  forall (n : nat) (s : Simulation),
  running n s ->
  exists s',
    run_callbacks cs s = (Ok tt, s')
    /\ running (points_after n cs) s'
    /\ PendulumJs.time (pendulum s')
       = PendulumJs.time (pendulum s) + INR (steps_of cs) * 0.005.
Proof.
  induction cs as [|c cs IH]; intros n s Hs.
  - exists s. split; [reflexivity|]. split; [exact Hs|]. simpl. lra.
  - destruct (run_callback_running c n s Hs) as (s1 & Hrun1 & Hs1 & Ht1).
    destruct (IH _ s1 Hs1) as (s' & Hrun & Hs' & Ht).
    exists s'. split.
    { cbn [run_callbacks]. unfold st_bind. rewrite Hrun1. exact Hrun. }
    split.
    + destruct c; exact Hs'.
    + rewrite Ht, Ht1.
      destruct c; cbn [steps_of]; rewrite ?S_INR; change (INR 0) with 0; lra.
Qed.

(** X14.  Whatever the controls of the page hold when the button is
    clicked, [startSimulation] constructs a pendulum of one or two links
    with one empty series per energy name, and the callbacks of the three
    timers (step, drawing, plot) then run without a throw in whatever order
    and number they fire.  After them the time is 0.005 for each step, and
    every series has the same number of points: one more for each step, cut
    back to the last 1000 by each plot, so never more than there were
    steps.  The method is the unrecognized [null] exactly when none of the
    three method inputs is checked. *)
Theorem page_simulation_never_throws (c : Controls) (cs : list callback) :
  exists s s',
    startSimulation (click_options c) = Ok s
    /\ plot_ready s
    /\ Forall (fun series => series.2 = []) (energy_data s)
    /\ run_callbacks cs s = (Ok tt, s')
    /\ plot_ready s'
    /\ PendulumJs.time (pendulum s') = INR (steps_of cs) * 0.005
    /\ Forall (fun series => length series.2 = points_after 0 cs)
         (energy_data s')
    /\ (points_after 0 cs <= steps_of cs)%nat
    /\ (PendulumJs.integration_method_of (pendulum s) = Unrecognized
        <-> int_forward_checked c = false
            /\ int_semi_checked c = false
            /\ int_runge_kutta_checked c = false).
Proof.
  destruct (click_ready c) as (s & Hstart & Hs & Ht0 & Hm & Hempty).
  assert (Hrun : running 0 s).
  { split; [exact Hs|].
    destruct (startSimulation_ready _ _ Hstart) as (Hp & _).
    pose proof Hs as (Hwf & Hsup & _).
    pose proof Hp as Hp'. apply new_Pendulum_ok in Hp'.
    destruct Hp' as (_ & El & Em & _ & _ & _ & Ed & Er & _).
    split.
    { rewrite Er, length_map, length_zip, <- El, <- Em.
      destruct Hwf as (W1 & W2 & _). lia. }
    split.
    { revert Hp. unfold PendulumJs.new_Pendulum, click_options.
      destruct (pendulum_type c) as [v|];
        [destruct (String.eqb v "single"), (String.eqb v "double")|];
        intros [= <-]; simpl; eauto. }
    eapply Forall_impl; [exact Hempty|].
    intros series ->. reflexivity. }
  destruct (run_callbacks_running cs 0 s Hrun)
    as (s' & Hcs & (Hs' & _ & _ & Hpoints) & Ht).
  exists s, s'. do 5 (split; [assumption|]).
  split; [rewrite Ht, Ht0; lra|]. split; [exact Hpoints|].
  split; [|exact Hm].
  pose proof (points_after_le cs 0). lia.
Qed.

End Timers.
